(** * k8s-port-forward-mcp: service discovery, resolution and process lifecycle

    A shallow embedding of the decision logic of the server:
    - [k8s.ts]: [execPromise], [parseServicesMap], [getNamespaces],
      [getPods], [getServicePort], [resolveService];
    - [util.ts]: [isValidPort], and [openLogsInTerminal] as the actions it
      takes on each platform;
    - [index.ts]: the [start_k8s_port_forward] and [stop_k8s_port_forward]
      branches of the tool-call handler, over an explicit process registry
      and a trace of the effects they perform, and the texts the
      [list_k8s_namespaces] and [list_k8s_services] branches answer with.

    Strings are sequences of code units below 256 ([ascii]); the white space
    of [trim] and of the regular expression class [\s] is, in that range,
    TAB, LF, VT, FF, CR, SPACE and NBSP. *)

From Stdlib Require Import Bool List ZArith Lia Ascii String.
From Stdlib Require Import Sorting.Permutation Sorting.Sorted.
Import ListNotations.

Open Scope string_scope.
Open Scope Z_scope.

Set Implicit Arguments.

(** ** Outcomes of a JavaScript computation *)

Inductive js_error : Type :=
| TypeError
| SyntaxError
| Rejected (message : string).

Inductive outcome (A : Type) : Type :=
| Returns (a : A)
| Throws (e : js_error).

Arguments Throws {A} e.

Definition bind {A B : Type} (m : outcome A) (k : A -> outcome B) : outcome B :=
  match m with
  | Returns a => k a
  | Throws e => Throws e
  end.

Declare Scope js_scope.
Delimit Scope js_scope with js.
Notation "x <- m ;; k" := (bind m (fun x => k))
  (at level 100, m at next level, right associativity) : js_scope.
Open Scope js_scope.

(** ** Strings and arrays as the runtime has them *)

Module Js.

Definition is_space (c : ascii) : bool :=
  match nat_of_ascii c with
  | 9%nat | 10%nat | 11%nat | 12%nat | 13%nat | 32%nat | 160%nat => true
  | _ => false
  end.

Definition is_empty (s : string) : bool :=
  match s with
  | EmptyString => true
  | String _ _ => false
  end.

(** [String.prototype.trimStart], [trimEnd] and [trim]. *)
Fixpoint trimStart (s : string) : string :=
  match s with
  | EmptyString => EmptyString
  | String c r => if is_space c then trimStart r else s
  end.

Fixpoint trimEnd (s : string) : string :=
  match s with
  | EmptyString => EmptyString
  | String c r =>
      let r' := trimEnd r in
      if is_space c && is_empty r' then EmptyString else String c r'
  end.

Definition trim (s : string) : string := trimEnd (trimStart s).

Definition cons_head (c : ascii) (fields : list string) : list string :=
  match fields with
  | [] => [String c EmptyString]
  | f :: fs => String c f :: fs
  end.

(** [s.split(sep)] for a separator of one character: the fields between the
    separators, empty fields included; never an empty array. *)
Fixpoint split_char (sep : ascii) (s : string) : list string :=
  match s with
  | EmptyString => [EmptyString]
  | String c r =>
      if Ascii.eqb c sep then EmptyString :: split_char sep r
      else cons_head c (split_char sep r)
  end.

(** [s.split(/\s+/)]: a maximal run of white space is one separator; a run at
    either end leaves an empty field there. *)
Fixpoint split_ws (s : string) : list string :=
  match s with
  | EmptyString => [EmptyString]
  | String c r =>
      if is_space c then
        match r with
        | String d _ => if is_space d then split_ws r else EmptyString :: split_ws r
        | EmptyString => EmptyString :: split_ws r
        end
      else cons_head c (split_ws r)
  end.

(** [parts.join(sep)]. *)
Fixpoint join (sep : string) (parts : list string) : string :=
  match parts with
  | [] => EmptyString
  | [p] => p
  | p :: ps => p ++ sep ++ join sep ps
  end.

(** [s.startsWith(p)]. *)
Fixpoint startsWith (s p : string) {struct p} : bool :=
  match p with
  | EmptyString => true
  | String a p' =>
      match s with
      | EmptyString => false
      | String b s' => Ascii.eqb a b && startsWith s' p'
      end
  end.

(** The text left after the first [n] characters. *)
Fixpoint drop (n : nat) (s : string) : string :=
  match n, s with
  | O, _ => s
  | S n', String _ r => drop n' r
  | S _, EmptyString => EmptyString
  end.

(** [s.replace(/^p/, "")] for a literal text [p]. *)
Definition strip_prefix (p s : string) : string :=
  if startsWith s p then drop (String.length p) s else s.

(** [arr.indexOf(x)]: the first position holding [x], [-1] when there is
    none. *)
Fixpoint indexOf (arr : list string) (x : string) : Z :=
  match arr with
  | [] => -1
  | y :: ys =>
      if String.eqb y x then 0
      else let i := indexOf ys x in if i <? 0 then -1 else i + 1
  end.

(** [arr[i]]: [None] stands for [undefined], the value of every position
    that is negative or past the end. *)
Definition at_index {A : Type} (arr : list A) (i : Z) : option A :=
  if i <? 0 then None else nth_error arr (Z.to_nat i).

(** [arr.slice(0, -2)] and [arr.slice(-2)]. *)
Definition slice_init2 {A : Type} (arr : list A) : list A :=
  firstn (List.length arr - 2) arr.

Definition slice_last2 {A : Type} (arr : list A) : list A :=
  skipn (List.length arr - 2) arr.

(** A value interpolated in a template literal. *)
Definition template (v : option string) : string :=
  match v with
  | Some s => s
  | None => "undefined"
  end.

(** Truthiness of a value that is a string or [undefined]/[null]. *)
Definition truthy (v : option string) : bool :=
  match v with
  | Some s => negb (is_empty s)
  | None => false
  end.

End Js.

(** ** k8s.ts *)

Module K8s.
Import Js.

Definition LF : ascii := ascii_of_nat 10.
Definition nl : string := String LF EmptyString.
Definition dash : ascii := "-"%char.

(** Insertion-ordered tables with text keys: the own properties of a plain
    object, and the entries of a [Map]. Writing an existing key keeps its
    place, a new key goes last. *)
Section Table.
Variable V : Type.

Fixpoint get (t : list (string * V)) (k : string) : option V :=
  match t with
  | [] => None
  | (k', v) :: r => if String.eqb k' k then Some v else get r k
  end.

Fixpoint set (t : list (string * V)) (k : string) (v : V) : list (string * V) :=
  match t with
  | [] => [(k, v)]
  | (k', v') :: r =>
      if String.eqb k' k then (k', v) :: r else (k', v') :: set r k v
  end.
End Table.

Definition ENV_PREFIXES : list string := ["dev"; "qa"; "stg"; "prod"].

(** [namespace] is declared a string, yet [parseServicesMap] stores
    [undefined] there when the listing has no NAMESPACE column and no
    namespace was passed: hence the option. *)
Record ServiceDetails : Type := {
  id : string;
  namespace : option string;
  serviceName : string
}.

Definition EnvMap : Type := list (string * ServiceDetails).
Definition ServicesMap : Type := list (string * EnvMap).

(** The regular expressions of the runtime, as far as the parser uses them:
    [subject.replace(new RegExp(source, "g"), "")], which is the text left,
    or the error raised for a source that is no expression. *)
Definition RegExpEngine : Type := string -> string -> outcome string.

(** The characters with a meaning of their own in a pattern; a source text
    free of them matches itself, character by character. *)
Definition RegExp_syntax_character (c : ascii) : bool :=
  existsb (Ascii.eqb c)
    ["^"; "$"; "\"; "."; "*"; "+"; "?"; "("; ")"; "["; "]"; "{"; "}"; "|"]%char.

Fixpoint RegExp_literal_source (src : string) : bool :=
  match src with
  | EmptyString => true
  | String c r => negb (RegExp_syntax_character c) && RegExp_literal_source r
  end.

(** [ENV_PREFIXES.find((env) => nameColumn.startsWith(`${env}-`)) ?? "default"] *)
Definition envPrefixOf (nameColumn : string) : string :=
  match find (fun env => startsWith nameColumn (env ++ "-")) ENV_PREFIXES with
  | Some env => env
  | None => "default"
  end.

(** [serviceName.replace(/^(dev|qa|stg|prod)-/, "")]: the alternatives are
    tried in order, each followed by the dash. *)
Definition stripEnvPrefix (serviceName : string) : string :=
  match find (fun env => startsWith serviceName (env ++ "-")) ENV_PREFIXES with
  | Some env => drop (String.length (env ++ "-")) serviceName
  | None => serviceName
  end.

(** [s.replace(new RegExp(`^${namespaceColumn}-`, "g"), "")]: the namespace
    is spliced into the source of the expression. Anchored at the start, a
    literal source matches at most once, also under the [g] flag; any other
    source is left to the engine. *)
Definition stripNamespacePrefix (re : RegExpEngine) (namespaceColumn s : string)
  : outcome string :=
  if RegExp_literal_source namespaceColumn
  then Returns (strip_prefix (namespaceColumn ++ "-") s)
  else re ("^" ++ namespaceColumn ++ "-") s.

(** The write at the end of a turn of the loop: the environment table of the
    short name is created when absent, then written at the environment. *)
Definition upsert (servicesMap : ServicesMap) (shortServiceName envPrefix : string)
    (details : ServiceDetails) : ServicesMap :=
  let envMap :=
    match get servicesMap shortServiceName with
    | Some m => m
    | None => []
    end in
  set servicesMap shortServiceName (set envMap envPrefix details).

(** One turn of the loop over the rows, from the split of the line to the
    write into the map. *)
Definition parseRow (re : RegExpEngine) (namespace : option string)
    (namespaceIndex nameIndex statusIndex : Z)
    (servicesMap : ServicesMap) (line : string) : outcome ServicesMap :=
  let columns := split_ws line in
  let statusColumn :=
    if negb (statusIndex =? -1) then at_index columns statusIndex else None in
  let skip :=
    match statusColumn with
    | Some st => negb (String.eqb st "Running")
    | None => false
    end in
  if skip then Returns servicesMap
  else
    let namespaceColumn :=
      match namespace with
      | Some n => Some n
      | None => at_index columns namespaceIndex
      end in
    match at_index columns nameIndex with
    | None => Throws TypeError
    | Some nameColumn =>
        let envPrefix := envPrefixOf nameColumn in
        let parts := split_char dash nameColumn in
        if (2 <? List.length parts)%nat then
          let serviceName := join "-" (slice_init2 parts) in
          let serviceId := join "-" (slice_last2 parts) in
          shortServiceName <-
            match namespaceColumn with
            | Some n =>
                if is_empty n then Returns (stripEnvPrefix serviceName)
                else stripNamespacePrefix re n (stripEnvPrefix serviceName)
            | None => Returns (stripEnvPrefix serviceName)
            end ;;
          Returns
            (upsert servicesMap shortServiceName envPrefix
               {| id := serviceId;
                  namespace := namespaceColumn;
                  serviceName := serviceName |})
        else Returns servicesMap
    end.

Fixpoint parseRows (re : RegExpEngine) (namespace : option string)
    (namespaceIndex nameIndex statusIndex : Z)
    (servicesMap : ServicesMap) (rows : list string) : outcome ServicesMap :=
  match rows with
  | [] => Returns servicesMap
  | line :: rest =>
      m <- parseRow re namespace namespaceIndex nameIndex statusIndex
             servicesMap line ;;
      parseRows re namespace namespaceIndex nameIndex statusIndex m rest
  end.

Definition parseServicesMap (re : RegExpEngine) (podsData : string)
    (namespace : option string) : outcome ServicesMap :=
  match split_char LF (trim podsData) with
  | [] => Returns []
  | header :: rows =>
      let headers := split_ws header in
      let namespaceIndex := indexOf headers "NAMESPACE" in
      let nameIndex := indexOf headers "NAME" in
      let statusIndex := indexOf headers "STATUS" in
      parseRows re namespace namespaceIndex nameIndex statusIndex [] rows
  end.

(** *** Resolution *)

(** The answer of [resolveService]. Its [namespace] and [serviceName] are
    [undefined] when the details read from the environment table are not a
    [ServiceDetails] at all (see [Inherited]). *)
Record Resolved : Type := {
  resolved_namespace : option string;
  podName : string;
  resolved_serviceName : option string;
  environment : string
}.

(** The names every plain object inherits from [Object.prototype]. *)
Definition Object_prototype_names : list string :=
  ["constructor"; "toString"; "toLocaleString"; "valueOf"; "hasOwnProperty";
   "isPrototypeOf"; "propertyIsEnumerable"; "__proto__"; "__defineGetter__";
   "__defineSetter__"; "__lookupGetter__"; "__lookupSetter__"].

(** What [envMap[env]] reads: an own property, a member inherited from the
    prototype (a function or the prototype object: truthy, and without any
    of the fields of a [ServiceDetails]), or [undefined]. *)
Inductive property : Type :=
| Own (details : ServiceDetails)
| Inherited
| Undefined.

Definition read (envMap : EnvMap) (env : string) : property :=
  match get envMap env with
  | Some d => Own d
  | None =>
      if existsb (String.eqb env) Object_prototype_names then Inherited
      else Undefined
  end.

Definition resolvedFrom (details : ServiceDetails) (env : string) : Resolved :=
  {| resolved_namespace := namespace details;
     podName := serviceName details ++ "-" ++ id details;
     resolved_serviceName := Some (serviceName details);
     environment := env |}.

(** [d.namespace === options.namespace] for a namespace that is a string. *)
Definition namespace_is (n : string) (entry : string * ServiceDetails) : bool :=
  match namespace (snd entry) with
  | Some n' => String.eqb n' n
  | None => false
  end.

(** [options.namespace] and [options.environment] are [None] when absent. *)
Definition resolveService (servicesMap : ServicesMap) (shortServiceName : string)
    (options_namespace options_environment : option string) : option Resolved :=
  match get servicesMap shortServiceName with
  | None => None
  | Some envMap =>
      let entry :=
        match options_namespace with
        | Some n => if is_empty n then None else find (namespace_is n) envMap
        | None => None
        end in
      match entry with
      | Some (resolvedEnv, details) => Some (resolvedFrom details resolvedEnv)
      | None =>
          let env :=
            if truthy options_environment then options_environment
            else option_map fst (hd_error envMap) in
          match env with
          | None => None
          | Some env =>
              match read envMap env with
              | Own details => Some (resolvedFrom details env)
              | Inherited =>
                  Some {| resolved_namespace := None;
                          podName := "undefined-undefined";
                          resolved_serviceName := None;
                          environment := env |}
              | Undefined => None
              end
          end
      end
  end.

(** *** Cluster queries *)

(** What [exec] hands to its callback. *)
Record ExecReply : Type := {
  error : option string;
  stdout : string;
  stderr : string
}.

(** The cluster as the server sees it: the reply to each command line (a
    command run twice during a call is answered alike). *)
Definition Shell : Type := string -> ExecReply.

Definition execPromise (sh : Shell) (cmd : string) : outcome string :=
  let reply := sh cmd in
  match error reply with
  | Some e => Throws (Rejected e)
  | None =>
      if negb (is_empty (stderr reply)) && negb (is_empty (trim (stderr reply)))
      then Throws (Rejected (stderr reply))
      else Returns (stdout reply)
  end.

Definition getPods (sh : Shell) (namespace : option string) : outcome string :=
  let cmd :=
    match namespace with
    | Some n =>
        if is_empty n then "kubectl get pods --all-namespaces"
        else "kubectl get pods --namespace " ++ n
    | None => "kubectl get pods --all-namespaces"
    end in
  execPromise sh cmd.

(** Both arguments are interpolated as they come, [undefined] included. *)
Definition servicePortCommand (serviceNamespace serviceName : option string)
  : string :=
  "kubectl get service --namespace " ++ template serviceNamespace ++ " "
  ++ template serviceName ++ " -o jsonpath={.spec.ports[*].port}".

Definition getServicePort (sh : Shell)
    (serviceNamespace serviceName : option string) : string :=
  let cmd := servicePortCommand serviceNamespace serviceName in
  match execPromise sh cmd with
  | Returns port =>
      let t := trim port in if is_empty t then "3000" else t
  | Throws _ => "3000"
  end.

Definition namespacesCommand : string :=
  "kubectl get namespaces -o jsonpath={.items[*].metadata.name}".

(** [out.trim() ? out.trim().split(/\s+/) : []] *)
Definition getNamespaces (sh : Shell) : outcome (list string) :=
  out <- execPromise sh namespacesCommand ;;
  Returns (if is_empty (trim out) then [] else split_ws (trim out)).

End K8s.

(** ** Numbers

    The handler tests a number for being an integer, compares integers and
    prints them; nothing else. A number is kept as what those operations
    see: a fractional value is kept without its digits. Negative zero is
    [Int 0]. *)

Module Num.
Import Js.

Inductive number : Type :=
| NaN
| Infinity (negative : bool)
| Int (z : Z)
| Fraction.

Definition is_digit (c : ascii) : bool :=
  let n := nat_of_ascii c in ((48 <=? n) && (n <=? 57))%nat.

(** The value of a digit in a base up to sixteen, [None] when the character
    is no digit of that base. *)
Definition digit_in (base : Z) (c : ascii) : option Z :=
  let n := Z.of_nat (nat_of_ascii c) in
  let v :=
    if (48 <=? n) && (n <=? 57) then n - 48
    else if (97 <=? n) && (n <=? 102) then n - 87
    else if (65 <=? n) && (n <=? 70) then n - 55
    else base in
  if v <? base then Some v else None.

Fixpoint span (f : ascii -> bool) (s : string) : string * string :=
  match s with
  | EmptyString => (EmptyString, EmptyString)
  | String c r =>
      if f c then let '(a, b) := span f r in (String c a, b)
      else (EmptyString, s)
  end.

(** The integer written by the digits of [s] in [base], after [acc]; [None]
    when a character is no digit. *)
Fixpoint digits_value (base acc : Z) (s : string) : option Z :=
  match s with
  | EmptyString => Some acc
  | String c r =>
      match digit_in base c with
      | Some v => digits_value base (acc * base + v) r
      | None => None
      end
  end.

Definition decimal_value (s : string) : Z :=
  match digits_value 10 0 s with
  | Some v => v
  | None => 0
  end.

Definition round_half_even (n d : Z) : Z :=
  let q := n / d in
  let r := n mod d in
  if 2 * r <? d then q
  else if d <? 2 * r then q + 1
  else if Z.even q then q else q + 1.

(** The binary64 value nearest to [p / q], ties to even, for [0 <= p] and
    [0 < q]: 53 significant bits from exponent -1022 up, the fixed grid of
    the subnormals below, infinity from [2 ^ 1024]. *)
Definition binary64 (p q : Z) : number :=
  if p =? 0 then Int 0
  else
    let e0 := Z.log2 p - Z.log2 q in
    let at_least :=
      if 0 <=? e0 then q * 2 ^ e0 <=? p else q <=? p * 2 ^ (- e0) in
    let e := Z.max (if at_least then e0 else e0 - 1) (-1022) in
    let k := e - 52 in
    if 0 <=? k then
      let v := round_half_even p (q * 2 ^ k) * 2 ^ k in
      if 2 ^ 1024 <=? v then Infinity false else Int v
    else
      let m := round_half_even (p * 2 ^ (- k)) q in
      if m mod 2 ^ (- k) =? 0 then Int (m / 2 ^ (- k)) else Fraction.

Definition negate (n : number) : number :=
  match n with
  | NaN => NaN
  | Infinity b => Infinity (negb b)
  | Int z => Int (- z)
  | Fraction => Fraction
  end.

Definition take_sign (s : string) : bool * string :=
  match s with
  | String "-" r => (true, r)
  | String "+" r => (false, r)
  | _ => (false, s)
  end.

(** The exponent part that follows the mantissa: [Some 0] when there is
    none, [None] when the text is no exponent part. *)
Definition exponent_part (s : string) : option Z :=
  match s with
  | EmptyString => Some 0
  | String c r =>
      if Ascii.eqb c "e" || Ascii.eqb c "E" then
        let '(neg, r') := take_sign r in
        let '(ds, rest) := span is_digit r' in
        if is_empty ds || negb (is_empty rest) then None
        else Some (if neg then - decimal_value ds else decimal_value ds)
      else None
  end.

(** An unsigned decimal literal: digits, an optional point and digits, an
    optional exponent; one digit at least around the point. *)
Definition unsigned_decimal (s : string) : number :=
  let '(whole, r1) := span is_digit s in
  let '(frac, r2) :=
    match r1 with
    | String "." r => span is_digit r
    | _ => (EmptyString, r1)
    end in
  if is_empty whole && is_empty frac then NaN
  else
    match exponent_part r2 with
    | None => NaN
    | Some ex =>
        let mantissa := decimal_value (whole ++ frac) in
        let e10 := ex - Z.of_nat (String.length frac) in
        if 0 <=? e10 then binary64 (mantissa * 10 ^ e10) 1
        else binary64 mantissa (10 ^ (- e10))
    end.

Definition radix_literal (base : Z) (digits : string) : number :=
  if is_empty digits then NaN
  else
    match digits_value base 0 digits with
    | Some v => binary64 v 1
    | None => NaN
    end.

(** [Number(s)] for a string: white space around the literal is dropped,
    the empty text is zero, a literal is decimal (signed) or has one of the
    prefixes [0x], [0o], [0b] (unsigned), anything else is [NaN]. *)
Definition StringToNumber (s : string) : number :=
  let t := trim s in
  match t with
  | EmptyString => Int 0
  | String "0" (String c r) =>
      if Ascii.eqb c "x" || Ascii.eqb c "X" then radix_literal 16 r
      else if Ascii.eqb c "o" || Ascii.eqb c "O" then radix_literal 8 r
      else if Ascii.eqb c "b" || Ascii.eqb c "B" then radix_literal 2 r
      else unsigned_decimal t
  | _ =>
      let '(neg, r) := take_sign t in
      let n := if String.eqb r "Infinity" then Infinity false
               else unsigned_decimal r in
      if neg then negate n else n
  end.

(** [parseInt(s, 10)]: leading white space, a sign, then the longest run of
    decimal digits; [NaN] when that run is empty. *)
Definition parseInt10 (s : string) : number :=
  let '(neg, r) := take_sign (trimStart s) in
  let '(ds, _) := span is_digit r in
  if is_empty ds then NaN
  else let n := binary64 (decimal_value ds) 1 in if neg then negate n else n.

(** Truthiness of a number, as [||] tests it. *)
Definition truthy (n : number) : bool :=
  match n with
  | NaN => false
  | Int z => negb (z =? 0)
  | _ => true
  end.

Definition digit_char (d : Z) : ascii := ascii_of_nat (48 + Z.to_nat d).

Fixpoint decimal_digits (fuel : nat) (z : Z) (acc : string) : string :=
  match fuel with
  | O => acc
  | S fuel' =>
      let acc' := String (digit_char (z mod 10)) acc in
      if z <? 10 then acc' else decimal_digits fuel' (z / 10) acc'
  end.

(** The decimal numeral of an integer; the fuel is above its number of
    digits. *)
Definition show_Z (z : Z) : string :=
  let digits := decimal_digits (S (Z.to_nat (Z.log2 (Z.abs z)))) (Z.abs z) "" in
  if z <? 0 then String "-" digits else digits.

(** The decimal text [v] reads as the number [x]. *)
Definition reads (v x : Z) : bool :=
  match binary64 v 1 with
  | Int y => y =? x
  | _ => false
  end.

(** The digits [s] and the power of ten [e] that Number::toString prints
    for the integer [x] of [len] digits: the fewest digits [k] such that
    [s * 10 ^ e] reads as [x], and among two such [s] the one nearer to [x],
    the even one when both are as near. *)
Fixpoint shortest (fuel : nat) (k x len : Z) : Z * Z :=
  match fuel with
  | O => (x, 0)
  | S fuel' =>
      let e := len - k in
      let unit := 10 ^ e in
      let lo := x / unit in
      let hi := lo + 1 in
      let okLo := reads (lo * unit) x in
      let okHi := reads (hi * unit) x in
      if okLo && okHi then
        let below := x - lo * unit in
        let above := hi * unit - x in
        if below <? above then (lo, e)
        else if above <? below then (hi, e)
        else if Z.even lo then (lo, e) else (hi, e)
      else if okLo then (lo, e)
      else if okHi then (hi, e)
      else shortest fuel' (k + 1) x len
  end.

Fixpoint dropZeros (s : string) : string :=
  match s with
  | EmptyString => EmptyString
  | String c r =>
      match dropZeros r with
      | EmptyString => if Ascii.eqb c "0" then EmptyString else String c ""
      | r' => String c r'
      end
  end.

Fixpoint zeros (n : nat) : string :=
  match n with
  | O => EmptyString
  | S n' => String "0" (zeros n')
  end.

(** Number::toString for an integer that is not negative: the digits of
    [s] followed by [e] zeros when that makes 21 digits at most, and
    otherwise the exponent form: the first digit, a point and the other
    digits when there are any, [e+] and the exponent. *)
Definition integerText (x : Z) : string :=
  let len := Z.of_nat (String.length (show_Z x)) in
  let '(s, e) := shortest (Z.to_nat len) 1 x len in
  let digits := show_Z s in
  let n := Z.of_nat (String.length digits) + e in
  if n <=? 21 then digits ++ zeros (Z.to_nat e)
  else
    match dropZeros digits with
    | EmptyString => "0"
    | String d EmptyString => String d ("e+" ++ show_Z (n - 1))
    | String d rest => String d ("." ++ rest ++ "e+" ++ show_Z (n - 1))
    end.

(** [String(n)] where the handler interpolates a number. No [Fraction] is
    ever printed (see [isValidPort], [parseInt10]). *)
Definition toString (n : number) : string :=
  match n with
  | NaN => "NaN"
  | Infinity false => "Infinity"
  | Infinity true => "-Infinity"
  | Int z => if z <? 0 then String "-" (integerText (- z)) else integerText z
  | Fraction => "NaN"
  end.

End Num.

(** ** util.ts *)

Module Util.
Import Num.

(** [Number.isInteger(n) && n > 0 && n <= 65535]; the comparisons are only
    reached by an integer. *)
Definition isValidPort (n : number) : bool :=
  match n with
  | Int z => (0 <? z) && (z <=? 65535)
  | _ => false
  end.

Import Js.

Definition backslash : ascii := ascii_of_nat 92.
Definition dquote : ascii := ascii_of_nat 34.

(** [s.replace(/c/g, by)] for one character [c] and a replacement text
    without [$]. *)
Fixpoint replaceAll (c : ascii) (by_ : string) (s : string) : string :=
  match s with
  | EmptyString => EmptyString
  | String a r =>
      if Ascii.eqb a c then by_ ++ replaceAll c by_ r
      else String a (replaceAll c by_ r)
  end.

(** The escaping of [openLogsInTerminal]: every backslash is doubled, then
    every double quote gets a backslash in front. *)
Definition escapeQuoted (s : string) : string :=
  replaceAll dquote (String backslash (String dquote EmptyString))
    (replaceAll backslash (String backslash (String backslash EmptyString)) s).

Inductive platform : Type :=
| win32
| darwin
| otherPlatform.

(** What [openLogsInTerminal] does, now and in its callbacks. *)
Inductive action : Type :=
| Exec (command : string)
| Launch (file : string) (args : list string)
| ConsoleError (text : string).

(** The commands run through [exec] that fail, with the message of their
    error. *)
Definition ExecFailures : Type := string -> option string.

(** What the [osascript] child reports, in the order it reports it; the
    exit code is [None] when a signal ended the child. *)
Inductive osascript_event : Type :=
| StderrData (chunk : string)
| Close (code : option Z)
| ChildError (message : string).

(** [spawn("kubectl", logsCommand.split(" ").slice(1), ...)] *)
Definition headless (logsCommand : string) : action :=
  Launch "kubectl" (tl (split_char " " logsCommand)).

Definition windowsCommand (logsCommand logsTitle : string) : string :=
  "start " ++ String dquote (escapeQuoted logsTitle) ++ String dquote
    " cmd.exe /k " ++ String dquote logsCommand ++ String dquote "".

Definition osascriptArgs (logsCommand logsTitle : string) : list string :=
  ["-e"; "tell application " ++ String dquote "Terminal" ++ String dquote "";
   "-e"; "set newTab to do script " ++ String dquote (escapeQuoted logsCommand)
         ++ String dquote "";
   "-e"; "set custom title of newTab to "
         ++ String dquote (escapeQuoted logsTitle) ++ String dquote "";
   "-e"; "activate";
   "-e"; "end tell"].

Definition commandWithTitle (logsCommand logsTitle : string) : string :=
  "echo -ne '" ++ String backslash "033]0;" ++ escapeQuoted logsTitle
  ++ String backslash "007'; " ++ escapeQuoted logsCommand.

Definition gnomeCommand (logsCommand logsTitle : string) : string :=
  "gnome-terminal -- bash -c " ++ String dquote
    (commandWithTitle logsCommand logsTitle) ++ "; exec bash"
  ++ String dquote "".

Definition xTerminalCommand (logsCommand logsTitle : string) : string :=
  "x-terminal-emulator -e bash -c " ++ String dquote
    (commandWithTitle logsCommand logsTitle) ++ "; exec bash"
  ++ String dquote "".

Definition xtermCommand (logsCommand logsTitle : string) : string :=
  "xterm -T " ++ String dquote (escapeQuoted logsTitle) ++ String dquote
    " -e bash -c " ++ String dquote (escapeQuoted logsCommand)
  ++ "; exec bash" ++ String dquote "".

Definition exitCodeText (code : option Z) : string :=
  match code with
  | Some z => show_Z z
  | None => "null"
  end.

(** The listeners of the [osascript] child, run on its events; [stderrData]
    is what the child wrote so far. *)
Fixpoint onOsascript (logsCommand stderrData : string)
    (events : list osascript_event) : list action :=
  match events with
  | [] => []
  | StderrData chunk :: rest =>
      onOsascript logsCommand (stderrData ++ chunk) rest
  | Close code :: rest =>
      match code with
      | Some 0 => onOsascript logsCommand stderrData rest
      | _ =>
          ConsoleError ("Failed to open Terminal (exit code "
                        ++ exitCodeText code ++ ")")
          :: (if is_empty stderrData then []
              else [ConsoleError ("stderr: " ++ stderrData)])
          ++ headless logsCommand :: onOsascript logsCommand stderrData rest
      end
  | ChildError message :: rest =>
      ConsoleError ("Failed to execute osascript: " ++ message)
      :: headless logsCommand :: onOsascript logsCommand stderrData rest
  end.

(** [openLogsInTerminal]: the actions it takes in the order they happen,
    given which [exec] commands fail and what the [osascript] child
    reports. *)
Definition openLogsInTerminal (p : platform) (failures : ExecFailures)
    (events : list osascript_event) (logsCommand logsTitle : string)
  : list action :=
  match p with
  | win32 =>
      let cmd := windowsCommand logsCommand logsTitle in
      Exec cmd ::
      match failures cmd with
      | Some message =>
          [ConsoleError ("Failed to open terminal: " ++ message);
           headless logsCommand]
      | None => []
      end
  | darwin =>
      Launch "osascript" (osascriptArgs logsCommand logsTitle)
      :: onOsascript logsCommand "" events
  | otherPlatform =>
      let gnome := gnomeCommand logsCommand logsTitle in
      let xTerminal := xTerminalCommand logsCommand logsTitle in
      let xterm := xtermCommand logsCommand logsTitle in
      Exec gnome ::
      match failures gnome with
      | None => []
      | Some _ =>
          Exec xTerminal ::
          match failures xTerminal with
          | None => []
          | Some _ =>
              Exec xterm ::
              match failures xterm with
              | None => []
              | Some message =>
                  [ConsoleError ("Failed to open terminal: " ++ message);
                   headless logsCommand]
              end
          end
      end
  end.

End Util.

(** ** index.ts *)

Module Index.
Import Js K8s Num Util.

Definition quote : string := String (ascii_of_nat 34) EmptyString.

(** A field of a service entry as the client sent it: a value parsed from
    JSON, or [undefined] for a field that is absent. *)
#[warnings="-register-all"]
Inductive jsval : Type :=
| JUndefined
| JNull
| JBool (b : bool)
| JNumber (n : number)
| JString (s : string)
| JArray (elements : list jsval)
| JObject (members : list (string * jsval)).

Record ServiceConfig : Type := {
  cfg_serviceName : jsval;
  cfg_namespace : jsval;
  cfg_localPort : jsval;
  cfg_remotePort : jsval;
  cfg_environment : jsval;
  cfg_includeLogs : jsval
}.

(** An element of [services] as the loop sees it: [Object] for an element
    of type object that is not [null], with the fields the loop reads;
    [Primitive] for any other element. *)
Inductive entry : Type :=
| Primitive (v : jsval)
| Object (o : ServiceConfig).

(** [o[name]] for an object parsed from JSON and a name that
    [Object.prototype] does not have: the last member of that name. *)
Fixpoint field (name : string) (members : list (string * jsval)) : jsval :=
  match members with
  | [] => JUndefined
  | (k, v) :: rest =>
      match field name rest with
      | JUndefined => if String.eqb k name then v else JUndefined
      | later => later
      end
  end.

(** How an element of [services] is seen: [!s || typeof s !== "object"]
    leaves the objects and the arrays, and an array has none of the
    fields. *)
Definition entryOf (v : jsval) : entry :=
  match v with
  | JObject members =>
      Object {| cfg_serviceName := field "serviceName" members;
                cfg_namespace := field "namespace" members;
                cfg_localPort := field "localPort" members;
                cfg_remotePort := field "remotePort" members;
                cfg_environment := field "environment" members;
                cfg_includeLogs := field "includeLogs" members |}
  | JArray _ =>
      Object {| cfg_serviceName := JUndefined;
                cfg_namespace := JUndefined;
                cfg_localPort := JUndefined;
                cfg_remotePort := JUndefined;
                cfg_environment := JUndefined;
                cfg_includeLogs := JUndefined |}
  | _ => Primitive v
  end.

(** What a method looked up for a conversion to a primitive gives. *)
Inductive converted : Type :=
| NotCallable
| AnObject
| AText (text : string).

Definition hasOwn (name : string) (members : list (string * jsval)) : bool :=
  existsb (fun kv => String.eqb (fst kv) name) members.

(** [valueOf] and [toString] of an object parsed from JSON. A member of the
    object under the name is a JSON value, so no function; without one the
    method is the one of [Object.prototype], which returns the object
    itself, or the text [[object Object]]. *)
Definition valueOf_ (members : list (string * jsval)) : converted :=
  if hasOwn "valueOf" members then NotCallable else AnObject.

Definition toString_ (members : list (string * jsval)) : converted :=
  if hasOwn "toString" members then NotCallable
  else AText "[object Object]".

(** OrdinaryToPrimitive: the first of the two methods that can be called
    and gives no object decides; with none, a TypeError. *)
Definition OrdinaryToPrimitive (first second : converted) : outcome string :=
  match first with
  | AText s => Returns s
  | _ =>
      match second with
      | AText s => Returns s
      | _ => Throws TypeError
      end
  end.

(** The text of an element in [Array.prototype.join], kept as what
    [Number] reads in it: the text of a number reads as that number, and
    the text of two elements or more holds a comma. *)
Inductive piece : Type :=
| Numeral (n : number)
| Text (s : string)
| Listed.

Definition joined (pieces : list piece) : piece :=
  match pieces with
  | [] => Text ""
  | [p] => p
  | _ => Listed
  end.

(** The element of an array in [join]: [undefined] and [null] are the
    empty text, an array is its own [join], an object is converted with
    [toString] before [valueOf]; the elements are converted in order. *)
Fixpoint joinPiece (v : jsval) : outcome piece :=
  match v with
  | JUndefined | JNull => Returns (Text "")
  | JBool b => Returns (Text (if b then "true" else "false"))
  | JNumber n => Returns (Numeral n)
  | JString s => Returns (Text s)
  | JArray elements =>
      pieces <-
        (fix each (l : list jsval) : outcome (list piece) :=
           match l with
           | [] => Returns []
           | x :: rest =>
               p <- joinPiece x ;;
               ps <- each rest ;;
               Returns (p :: ps)
           end) elements ;;
      Returns (joined pieces)
  | JObject members =>
      s <- OrdinaryToPrimitive (toString_ members) (valueOf_ members) ;;
      Returns (Text s)
  end.

Definition numberOfPiece (p : piece) : number :=
  match p with
  | Numeral n => n
  | Text s => StringToNumber s
  | Listed => NaN
  end.

(** [Number(v)]. An array is converted through its [toString], which is
    its [join]; an object with [valueOf] before [toString]. *)
Definition ToNumber (v : jsval) : outcome number :=
  match v with
  | JUndefined => Returns NaN
  | JNull => Returns (Int 0)
  | JBool b => Returns (if b then Int 1 else Int 0)
  | JNumber n => Returns n
  | JString s => Returns (StringToNumber s)
  | JArray _ => p <- joinPiece v ;; Returns (numberOfPiece p)
  | JObject members =>
      s <- OrdinaryToPrimitive (valueOf_ members) (toString_ members) ;;
      Returns (StringToNumber s)
  end.

(** [typeof v === "number" ? v : Number(v)] *)
Definition asNumber (v : jsval) : outcome number :=
  match v with
  | JNumber n => Returns n
  | _ => ToNumber v
  end.

(** [typeof v === "string" ? v : undefined] *)
Definition asString (v : jsval) : option string :=
  match v with
  | JString x => Some x
  | _ => None
  end.

Record ResolvedService : Type := {
  namespace : option string;
  podName : string;
  localPort : number;
  remotePort : number;
  label : string;
  includeLogs : bool;
  environment : string
}.

Definition entryNumber (i : nat) : string := show_Z (Z.of_nat i + 1).

(** The two lines that open the branch: the pods of all namespaces are
    listed and the listing is parsed. *)
Definition fetchServicesMap (re : RegExpEngine) (sh : Shell)
  : outcome ServicesMap :=
  podsData <- getPods sh None ;; parseServicesMap re podsData None.

(** The remote port when the entry gives none:
    [parseInt(await getServicePort(...), 10) || 3000]. *)
Definition detectRemotePort (sh : Shell) (resolvedOne : Resolved) : number :=
  let detected :=
    getServicePort sh (resolved_namespace resolvedOne)
      (resolved_serviceName resolvedOne) in
  let n := parseInt10 detected in
  if Num.truthy n then n else Int 3000.

(** [s.remotePort != null ? (typeof ... ? ... : Number(...)) : null] *)
Definition givenNumber (v : jsval) : outcome (option number) :=
  match v with
  | JUndefined | JNull => Returns None
  | _ => n <- asNumber v ;; Returns (Some n)
  end.

(** The checks of the loop on the coerced fields of an entry, and what is
    pushed for it. *)
Definition judge (sh : Shell) (servicesMap : ServicesMap) (i : nat)
    (o : ServiceConfig) (localPort : number) (remotePort : option number)
  : string + ResolvedService :=
  let serviceName :=
    match cfg_serviceName o with JString x => trim x | _ => "" end in
  let namespace := asString (cfg_namespace o) in
  let environment := asString (cfg_environment o) in
  let includeLogs :=
    match cfg_includeLogs o with JBool false => false | _ => true end in
  if is_empty serviceName then
    inl ("Entry " ++ entryNumber i ++ ": serviceName is required")
  else if negb (isValidPort localPort) then
    inl ("Entry " ++ entryNumber i ++ ": localPort must be 1-65535")
  else if match remotePort with
          | Some r => negb (isValidPort r)
          | None => false
          end then
    inl ("Entry " ++ entryNumber i ++ ": remotePort must be 1-65535")
  else
    match resolveService servicesMap serviceName namespace environment with
    | None =>
        inl ("Entry " ++ entryNumber i ++ ": could not resolve service "
             ++ quote ++ serviceName ++ quote
             ++ (if Js.truthy namespace
                 then " in namespace " ++ template namespace else "")
             ++ ". Call list_k8s_services to see available names.")
    | Some resolvedOne =>
        let remotePortFinal :=
          match remotePort with
          | Some r => r
          | None => detectRemotePort sh resolvedOne
          end in
        let envLabel :=
          if negb (String.eqb (K8s.environment resolvedOne) "default")
          then K8s.environment resolvedOne ++ "~" else "" in
        inr {| namespace := resolved_namespace resolvedOne;
               podName := K8s.podName resolvedOne;
               localPort := localPort;
               remotePort := remotePortFinal;
               label := envLabel ++ serviceName ++ ":" ++ toString localPort;
               includeLogs := includeLogs;
               environment := K8s.environment resolvedOne |}
    end.

(** The body of the loop over [services] for the entry at index [i]: the
    line pushed on [errors], or the record pushed on [resolved]. Both ports
    are coerced before anything is checked, and the TypeError of a
    coercion leaves the loop. *)
Definition checkEntry (sh : Shell) (servicesMap : ServicesMap)
    (i : nat) (s : entry) : outcome (string + ResolvedService) :=
  match s with
  | Primitive _ =>
      Returns (inl ("Entry " ++ entryNumber i ++ ": invalid object"))
  | Object o =>
      localPort <- asNumber (cfg_localPort o) ;;
      remotePort <- givenNumber (cfg_remotePort o) ;;
      Returns (judge sh servicesMap i o localPort remotePort)
  end.

(** The whole loop, from index [i] on: [errors] and [resolved] in the order
    of the entries, or the error that ended it. *)
Fixpoint checkEntries (sh : Shell) (servicesMap : ServicesMap)
    (i : nat) (services : list entry)
  : outcome (list string * list ResolvedService) :=
  match services with
  | [] => Returns ([], [])
  | s :: rest =>
      pushed <- checkEntry sh servicesMap i s ;;
      others <- checkEntries sh servicesMap (S i) rest ;;
      Returns (match pushed with
               | inl e => (e :: fst others, snd others)
               | inr r => (fst others, r :: snd others)
               end)
  end.

(** A handle returned by [spawn]; [pid] tells the handles apart. *)
Record ChildProcess : Type := { pid : nat }.

(** The module-level state: the array [portForwardProcesses], and how many
    children were spawned so far. *)
Record State : Type := {
  portForwardProcesses : list ChildProcess;
  spawned : nat
}.

(** What a handler does to the world, in the order it does it. An argument
    of [spawn] that is [undefined] is [None]. *)
Inductive effect : Type :=
| OnSignal (signal : string)
| OpenLogs (logsCommand logsTitle : string)
| Spawn (p : ChildProcess) (file : string) (args : list (option string))
| Kill (p : ChildProcess) (signal : string)
| Sleep (ms : Z)
| StderrWrite (text : string).

Definition logsCommandOf (r : ResolvedService) : string :=
  "kubectl logs --namespace " ++ template (namespace r) ++ " " ++ podName r
  ++ " -f".

Definition portForwardArgs (r : ResolvedService) : list (option string) :=
  [Some "port-forward"; Some "--namespace"; namespace r; Some (podName r);
   Some (toString (localPort r) ++ ":" ++ toString (remotePort r))].

(** [args.join(" ")]: an element that is [undefined] joins as the empty
    text. *)
Definition portForwardCommand (r : ResolvedService) : string :=
  "kubectl " ++
  join " " (map (fun a => match a with Some x => x | None => "" end)
              (portForwardArgs r)).

Definition openLogs (resolved : list ResolvedService) : list effect :=
  map (fun r => OpenLogs (logsCommandOf r) (label r))
    (filter includeLogs resolved).

Fixpoint spawnAll (next : nat) (resolved : list ResolvedService)
  : list ChildProcess * list effect :=
  match resolved with
  | [] => ([], [])
  | r :: rest =>
      let p := {| pid := next |} in
      let '(ps, es) := spawnAll (S next) rest in
      (p :: ps, Spawn p "kubectl" (portForwardArgs r) :: es)
  end.

Definition commandsOf (resolved : list ResolvedService) : list string :=
  map (fun r => "# Logs: " ++ logsCommandOf r) (filter includeLogs resolved)
  ++ map portForwardCommand resolved.

Definition startedText (resolved : list ResolvedService) : string :=
  let summary :=
    join nl
      (map (fun r => "- " ++ label r ++ " -> http://localhost:"
                     ++ toString (localPort r) ++ " (pod " ++ podName r ++ ")")
         resolved) in
  let commandsBlock :=
    "To run in a VS Code terminal instead, use:" ++ nl ++ "```" ++ nl
    ++ join nl (commandsOf resolved) ++ nl ++ "```" in
  "Port forwarding started for " ++ show_Z (Z.of_nat (List.length resolved))
  ++ " service(s):" ++ nl ++ summary ++ nl ++ nl ++ commandsBlock.

(** What a handler run leaves behind: its answer (the text of the result, or
    the error it fails with), the state, the effects. *)
Record Run : Type := {
  answer : outcome string;
  after : State;
  effects : list effect
}.

(** The [start_k8s_port_forward] branch. [services] is [None] when the
    argument is not an array. *)
Definition start_k8s_port_forward (re : RegExpEngine) (sh : Shell)
    (services : option (list entry)) (st : State) : Run :=
  let quiet (a : outcome string) :=
    {| answer := a; after := st; effects := [] |} in
  match services with
  | None | Some [] =>
      quiet (Returns "Error: 'services' must be a non-empty array of objects with serviceName and localPort.")
  | Some services =>
      match fetchServicesMap re sh with
      | Throws e => quiet (Throws e)
      | Returns servicesMap =>
          match checkEntries sh servicesMap 0 services with
          | Throws e => quiet (Throws e)
          | Returns (errors, resolved) =>
              if (0 <? List.length errors)%nat then
                quiet (Returns ("Validation/resolution errors:" ++ nl
                                ++ join nl errors))
              else
                let '(ps, spawns) := spawnAll (spawned st) resolved in
                {| answer := Returns (startedText resolved);
                   after := {| portForwardProcesses :=
                                 portForwardProcesses st ++ ps;
                               spawned := spawned st + List.length ps |};
                   effects := [OnSignal "SIGINT"; OnSignal "SIGTERM"]
                              ++ openLogs resolved ++ spawns |}
          end
      end
  end.

(** The [stop_k8s_port_forward] branch. The handler suspends once, for the
    500 ms timer; [meanwhile] is what the handlers that run during that wait
    do to the state. *)
Definition stop_k8s_port_forward (meanwhile : State -> State) (st : State)
  : Run :=
  let killedCount := List.length (portForwardProcesses st) in
  let graceful := map (fun p => Kill p "SIGINT") (portForwardProcesses st) in
  let st' := meanwhile st in
  let forced := map (fun p => Kill p "SIGKILL") (portForwardProcesses st') in
  let message :=
    if (0 <? killedCount)%nat
    then "Stopped " ++ show_Z (Z.of_nat killedCount)
         ++ " port-forward process(es)."
    else "No active port-forwards to stop." in
  {| answer := Returns message;
     after := {| portForwardProcesses := []; spawned := spawned st' |};
     effects := graceful ++ [Sleep 500] ++ forced
                ++ [StderrWrite (message ++ nl)] |}.

(** [err instanceof Error ? err.message : err]: the message of a rejected
    command is the text it was rejected with; the message of an error the
    runtime raises is the runtime's, [runtime]. *)
Definition errorText (runtime : js_error -> string) (e : js_error) : string :=
  match e with
  | Rejected message => message
  | _ => runtime e
  end.

(** The text the [list_k8s_namespaces] branch answers with. *)
Definition list_k8s_namespaces (runtime : js_error -> string) (sh : Shell)
  : string :=
  match getNamespaces sh with
  | Returns namespaces =>
      if (0 <? List.length namespaces)%nat
      then "Namespaces:" ++ nl ++ join nl (map (fun n => "- " ++ n) namespaces)
      else "No namespaces found."
  | Throws e => "Failed to list namespaces: " ++ errorText runtime e
  end.

(** [arr.sort((a, b) => a[0].localeCompare(b[0]))]: the sort is stable, so
    for a comparison that orders the names it is the insertion of each
    element, in turn, behind the elements that are not above it. *)
Fixpoint insertByName (V : Type) (localeCompare : string -> string -> Z)
    (x : string * V) (sorted : list (string * V)) : list (string * V) :=
  match sorted with
  | [] => [x]
  | y :: rest =>
      if localeCompare (fst x) (fst y) <? 0 then x :: y :: rest
      else y :: insertByName localeCompare x rest
  end.

Definition sortByName (V : Type) (localeCompare : string -> string -> Z)
    (l : list (string * V)) : list (string * V) :=
  fold_left (fun sorted x => insertByName localeCompare x sorted) l [].

(** [`${env} (ns: ${d.namespace})`] *)
Definition envText (e : string * ServiceDetails) : string :=
  fst e ++ " (ns: " ++ template (K8s.namespace (snd e)) ++ ")".

(** [`- ${shortName}: ${envList}`] *)
Definition serviceLine (e : string * EnvMap) : string :=
  "- " ++ fst e ++ ": " ++ join ", " (map envText (snd e)).

(** The text the [list_k8s_services] branch answers with. [namespace] is
    [None] when the argument is no string. *)
Definition list_k8s_services (re : RegExpEngine) (runtime : js_error -> string)
    (localeCompare : string -> string -> Z) (sh : Shell)
    (namespace : option string) : string :=
  match (podsData <- getPods sh namespace ;;
         parseServicesMap re podsData namespace) with
  | Returns servicesMap =>
      let lines :=
        "Services (shortName -> environments and namespace):"
        :: map serviceLine (sortByName localeCompare servicesMap) in
      if (1 <? List.length lines)%nat then join nl lines
      else "No services found."
  | Throws e => "Failed to list services: " ++ errorText runtime e
  end.

End Index.

(** ** The properties in the words of the specification *)

Module Spec.
Import Js K8s Num Util Index.

(** *** Service map *)

Definition lookup (m : ServicesMap) (short tag : string)
  : option ServiceDetails :=
  match get m short with
  | Some envMap => get envMap tag
  | None => None
  end.

(** Every short name once, and under it every environment once. *)
Definition uniquelyKeyed (m : ServicesMap) : Prop :=
  NoDup (map fst m) /\ Forall (fun e => NoDup (map fst (snd e))) m.

(** What a row stores when it is parsed on its own: short name, environment
    tag and identity; [None] for a row that is dropped, or that fails. *)
Definition rowAlone (re : RegExpEngine) (namespace : option string)
    (namespaceIndex nameIndex statusIndex : Z) (line : string)
  : option (string * string * ServiceDetails) :=
  match parseRow re namespace namespaceIndex nameIndex statusIndex [] line with
  | Returns [(short, [(tag, d)])] => Some (short, tag, d)
  | _ => None
  end.

Fixpoint somes {A : Type} (l : list (option A)) : list A :=
  match l with
  | [] => []
  | Some a :: r => a :: somes r
  | None :: r => somes r
  end.

(** What the rows of a listing store, row by row, in the order of the
    listing. *)
Definition contributions (re : RegExpEngine) (podsData : string)
    (namespace : option string) : list (string * string * ServiceDetails) :=
  match split_char LF (trim podsData) with
  | [] => []
  | header :: rows =>
      let headers := split_ws header in
      somes (map (rowAlone re namespace (indexOf headers "NAMESPACE")
                    (indexOf headers "NAME") (indexOf headers "STATUS")) rows)
  end.

Definition keyed (short tag : string) (c : string * string * ServiceDetails)
  : Prop :=
  fst (fst c) = short /\ snd (fst c) = tag.

Definition keyedb (short tag : string) (c : string * string * ServiceDetails)
  : bool :=
  String.eqb (fst (fst c)) short && String.eqb (snd (fst c)) tag.

(** The identity of the last contribution under a key. *)
Fixpoint lastFor (short tag : string)
    (cs : list (string * string * ServiceDetails)) : option ServiceDetails :=
  match cs with
  | [] => None
  | c :: rest =>
      match lastFor short tag rest with
      | Some d => Some d
      | None => if keyedb short tag c then Some (snd c) else None
      end
  end.

(** [tag] is the first recognised environment whose value followed by a
    dash starts [text], or ["default"] when there is none. *)
Definition firstEnvPrefix (text tag : string) : Prop :=
  (exists before after,
      ENV_PREFIXES = (before ++ tag :: after)%list
      /\ startsWith text (tag ++ "-") = true
      /\ Forall (fun e => startsWith text (e ++ "-") = false) before)
  \/ (tag = "default"
      /\ Forall (fun e => startsWith text (e ++ "-") = false) ENV_PREFIXES).

(** The full service name without the environment prefix that was matched,
    if one was. *)
Definition withoutEnv (tag full : string) : string :=
  if String.eqb tag "default" then full else strip_prefix (tag ++ "-") full.

(** The short name the specification derives: the matched environment
    prefix off the front of the full service name, then the namespace and a
    dash off the front of what is left. *)
Definition shortNameOf (tag : string) (d : ServiceDetails) : string :=
  let rest := withoutEnv tag (serviceName d) in
  match K8s.namespace d with
  | Some n => if is_empty n then rest else strip_prefix (n ++ "-") rest
  | None => rest
  end.

(** *** Requested entries *)

Definition requestedName (o : ServiceConfig) : string :=
  match cfg_serviceName o with JString x => trim x | _ => "" end.

(** The value coerces to a number that is a valid port. *)
Definition validPort (v : jsval) : bool :=
  match ToNumber v with
  | Returns n => isValidPort n
  | Throws _ => false
  end.

(** Missing or empty service name, invalid local port, or a remote port
    that is given and invalid; an entry that is no object fails too. *)
Definition fails_validation (s : entry) : bool :=
  match s with
  | Primitive _ => true
  | Object o =>
      is_empty (requestedName o)
      || negb (validPort (cfg_localPort o))
      || match cfg_remotePort o with
         | JUndefined | JNull => false
         | v => negb (validPort v)
         end
  end.

(** The coercion of the value to a number raises an error. *)
Definition uncoercible (v : jsval) : bool :=
  match ToNumber v with
  | Returns _ => false
  | Throws _ => true
  end.

(** A port of the entry cannot be coerced: the local port, or a remote
    port that is given. *)
Definition raises (s : entry) : bool :=
  match s with
  | Primitive _ => false
  | Object o =>
      uncoercible (cfg_localPort o)
      || match cfg_remotePort o with
         | JUndefined | JNull => false
         | v => uncoercible v
         end
  end.


(** The service is not found in the map. *)
Definition fails_resolution (m : ServicesMap) (s : entry) : bool :=
  match s with
  | Primitive _ => false
  | Object o =>
      match resolveService m (requestedName o)
              (asString (cfg_namespace o))
              (asString (cfg_environment o)) with
      | Some _ => false
      | None => true
      end
  end.

Definition fails (m : ServicesMap) (s : entry) : bool :=
  fails_validation s || fails_resolution m s.

(** The failing entries of a request with their positions, counted from
    [i]. *)
Fixpoint failing (m : ServicesMap) (i : nat) (services : list entry)
  : list (nat * entry) :=
  match services with
  | [] => []
  | s :: rest =>
      if fails m s then (i, s) :: failing m (S i) rest
      else failing m (S i) rest
  end.

(** A line of the error text reports the entry at position [k]. *)
Definition reports (sh : Shell) (m : ServicesMap) (line : string)
    (ks : nat * entry) : Prop :=
  checkEntry sh m (fst ks) (snd ks) = Returns (inl line)
  /\ startsWith line ("Entry " ++ entryNumber (fst ks) ++ ": ") = true.



(** *** Port query *)

(** What [parseInt10] reads in a text without leading white space. *)
Definition parsed (t : string) : number :=
  let '(neg, r) := take_sign t in
  let ds := fst (span is_digit r) in
  if is_empty ds then NaN
  else let n := binary64 (decimal_value ds) 1 in if neg then negate n else n.

(** The text does not start, after white space and a sign, with a digit. *)
Definition non_numeric (s : string) : bool :=
  match snd (take_sign (trimStart s)) with
  | String c _ => negb (is_digit c)
  | EmptyString => true
  end.

(** The query of the port fails: the tool reports an error, or writes to
    its error stream, or prints nothing, or prints no number. *)
Definition query_failed (reply : ExecReply) : Prop :=
  error reply <> None
  \/ trim (stderr reply) <> ""
  \/ trim (stdout reply) = ""
  \/ non_numeric (stdout reply) = true.

(** *** Stop *)

Definition stopMessage (count : nat) : string :=
  match count with
  | O => "No active port-forwards to stop."
  | S _ => "Stopped " ++ show_Z (Z.of_nat count) ++ " port-forward process(es)."
  end.

(** *** Texts *)

(** No character of the text passes the test. *)
Fixpoint without (f : ascii -> bool) (s : string) : bool :=
  match s with
  | EmptyString => true
  | String c r => negb (f c) && without f r
  end.

Definition spaceFree (s : string) : bool := without is_space s.

Definition charFree (c : ascii) (s : string) : bool := without (Ascii.eqb c) s.

(** Every character of the text is white space. *)
Definition spaceOnly (s : string) : bool :=
  without (fun c => negb (is_space c)) s.

(** Every character of the text is a decimal digit. *)
Definition digitsOnly (s : string) : bool :=
  without (fun c => negb (is_digit c)) s.

(** The text is a number: digits, with nothing but white space around
    them. *)
Definition numeric (s : string) : bool :=
  negb (is_empty (trim s)) && digitsOnly (trim s).

(** The last character of the text is white space. *)
Fixpoint endsInSpace (s : string) : bool :=
  match s with
  | EmptyString => false
  | String c EmptyString => is_space c
  | String _ r => endsInSpace r
  end.

(** How a text between double quotes reads where a backslash makes the next
    character stand for itself: [None] when a quote ends the text early, or
    a backslash is its last character. *)
Fixpoint readQuoted (s : string) : option string :=
  match s with
  | EmptyString => Some EmptyString
  | String c r =>
      if Ascii.eqb c backslash then
        match r with
        | String d r' => option_map (String d) (readQuoted r')
        | EmptyString => None
        end
      else if Ascii.eqb c dquote then None
      else option_map (String c) (readQuoted r)
  end.

(** *** Listings *)

Definition listingHeaders (podsData : string) : list string :=
  match split_char LF (trim podsData) with
  | [] => []
  | header :: _ => split_ws header
  end.

Definition listingRows (podsData : string) : list string :=
  tl (split_char LF (trim podsData)).

(** What a row holds under a header of the listing. *)
Definition column (podsData header line : string) : option string :=
  at_index (split_ws line) (indexOf (listingHeaders podsData) header).

(** The row has no status, or is running. *)
Definition runningRow (podsData line : string) : Prop :=
  match column podsData "STATUS" line with
  | Some st => st = "Running"
  | None => True
  end.

(** The tag of the first contribution under a short name. *)
Fixpoint firstTagOf (short : string)
    (cs : list (string * string * ServiceDetails)) : option string :=
  match cs with
  | [] => None
  | c :: rest =>
      if String.eqb (fst (fst c)) short then Some (snd (fst c))
      else firstTagOf short rest
  end.

(** The environment tags the parser writes. *)
Definition environmentTags : list string :=
  ["dev"; "qa"; "stg"; "prod"; "default"].

(** The environment table of a short name, empty when there is none. *)
Definition tableOf (m : ServicesMap) (short : string) : EnvMap :=
  match get m short with
  | Some envMap => envMap
  | None => []
  end.

(** The key written first in a table. *)
Definition firstKey (envMap : EnvMap) : option string :=
  option_map fst (hd_error envMap).

(** Under every short name of the map there is a table that is not empty,
    whose first key is the tag of the first contribution under the name. *)
Definition firstKeys (m : ServicesMap)
    (cs : list (string * string * ServiceDetails)) : Prop :=
  forall short,
    match get m short with
    | Some envMap => envMap <> [] /\ firstKey envMap = firstTagOf short cs
    | None => firstTagOf short cs = None
    end.

(** The namespace a row gets: the one passed to the parser, else the one of
    its NAMESPACE column. *)
Definition effectiveNamespace (podsData : string) (ns : option string)
    (line : string) : option string :=
  match ns with
  | Some n => Some n
  | None => column podsData "NAMESPACE" line
  end.

(** The requested environment is none of the names a plain object
    inherits. *)
Definition plainEnvironment (environment : option string) : Prop :=
  match environment with
  | Some e => existsb (String.eqb e) Object_prototype_names = false
  | None => True
  end.

(** *** Effects *)



Definition isKill (e : effect) : bool :=
  match e with Kill _ _ => true | _ => false end.

(** The entry asks for a window of logs: anything but [includeLogs: false]. *)
Definition wantsLogs (s : entry) : bool :=
  match s with
  | Object o => match cfg_includeLogs o with JBool false => false | _ => true end
  | Primitive _ => false
  end.

Definition isExec (a : action) : bool :=
  match a with Exec _ => true | _ => false end.

(** *** Listings and terminals *)

(** The second name is not below the first. *)
Definition inOrder (V : Type) (localeCompare : string -> string -> Z)
    (a b : string * V) : Prop :=
  ~ localeCompare (fst b) (fst a) < 0.

Definition isLaunchOf (file : string) (a : action) : bool :=
  match a with Launch f _ => String.eqb f file | _ => false end.

Definition isConsoleError (a : action) : bool :=
  match a with ConsoleError _ => true | _ => false end.

(** The events of the [osascript] child on which a listener falls back: an
    error, and a close with another exit code than 0. *)
Definition reportsFailure (e : osascript_event) : bool :=
  match e with
  | StderrData _ => false
  | Close (Some 0) => false
  | Close _ => true
  | ChildError _ => true
  end.

Definition failed_ (failures : ExecFailures) (command : string) : bool :=
  match failures command with Some _ => true | None => false end.

(** Every fallback to [kubectl] in the process comes right behind a text
    written with [console.error]. *)
Definition afterAReport (logsCommand : string) (acts : list action) : Prop :=
  forall i, nth_error acts i = Some (headless logsCommand) ->
  exists j text, i = S j /\ nth_error acts j = Some (ConsoleError text).

End Spec.

(** ** Sample clusters and requests *)

Module Samples.
Import Js K8s Num Util Index Spec.

(** An engine that takes no source. The samples splice literal namespaces
    only, which never reach the engine. *)
Definition plainEngine : RegExpEngine := fun _ _ => Throws SyntaxError.

Definition said (text : string) : ExecReply :=
  {| error := None; stdout := text; stderr := "" |}.

Definition failed (message : string) : ExecReply :=
  {| error := Some message; stdout := ""; stderr := "" |}.

Definition shopListing : string :=
  "NAMESPACE NAME READY STATUS" ++ nl
  ++ "shop dev-shop-api-7f9c-2x4k 1/1 Running" ++ nl
  ++ "shop qa-shop-web-1-2 1/1 Running" ++ nl
  ++ "shop qa-shop-web-1-3 1/1 Pending" ++ nl
  ++ "shop qa-shop-web-1-4 1/1 Running" ++ nl.

(** A cluster that lists the pods of [shopListing] and answers no port
    query. *)
Definition shopCluster : Shell := fun cmd =>
  if String.eqb cmd "kubectl get pods --all-namespaces" then said shopListing
  else failed "Error from server (NotFound)".


Definition request (name : string) (local : jsval) : ServiceConfig :=
  {| cfg_serviceName := JString name;
     cfg_namespace := JUndefined;
     cfg_localPort := local;
     cfg_remotePort := JUndefined;
     cfg_environment := JUndefined;
     cfg_includeLogs := JUndefined |}.

Definition idle : State := {| portForwardProcesses := []; spawned := 0 |}.

Definition busy : State :=
  {| portForwardProcesses := [ {| pid := 0 |}; {| pid := 1 |} ];
     spawned := 2 |}.

(** Two entries that pass and one whose local port is out of range. *)
Definition mixedRequest : list entry :=
  [Object (request "api" (JString "3000"));
   Object (request "web" (JNumber (Int 3001)));
   Object (request "api" (JNumber (Int 99999)))].

Definition validRequest : list entry :=
  [Object (request "api" (JString "3000"));
   Object (request "web" (JNumber (Int 3001)))].

Definition outOfRange : entry := Object (request "api" (JNumber (Int 99999))).

(** A port sent as an object that holds members named like the methods of
    a conversion. *)
Definition uncoerciblePort : jsval :=
  JObject [("valueOf", JNumber (Int 1)); ("toString", JNumber (Int 1))].

Definition shopApi : Resolved :=
  {| resolved_namespace := Some "shop";
     K8s.podName := "dev-shop-api-7f9c-2x4k";
     resolved_serviceName := Some "dev-shop-api";
     K8s.environment := "dev" |}.

Definition billingListing : string :=
  "NAMESPACE NAME READY STATUS" ++ nl
  ++ "billing-api dev-billing-api-7f9c-2x4k 1/1 Running".

Definition billingDetails : ServiceDetails :=
  {| id := "7f9c-2x4k";
     K8s.namespace := Some "billing-api";
     serviceName := "dev-billing-api" |}.

Definition billingMap : ServicesMap :=
  [("billing-api", [("dev", billingDetails)])].

Definition shopMap : ServicesMap :=
  [("api", [("dev", {| id := "7f9c-2x4k"; K8s.namespace := Some "shop";
                       serviceName := "dev-shop-api" |})]);
   ("web", [("qa", {| id := "1-4"; K8s.namespace := Some "shop";
                      serviceName := "qa-shop-web" |})])].

(** A pod name of three segments, the first an environment. *)
Definition shortPodListing : string := "NAME" ++ nl ++ "dev-a-b".

Definition shortPodDetails : ServiceDetails :=
  {| id := "a-b"; K8s.namespace := None; serviceName := "dev" |}.

Definition shortPodMap : ServicesMap := [("dev", [("dev", shortPodDetails)])].

(** A listing whose only row stops before the NAME column. *)
Definition truncatedListing : string :=
  "NAMESPACE NAME READY STATUS" ++ nl ++ "shop".

(** The listing of one namespace: NAME is the first column. *)
Definition oneNamespaceListing : string :=
  "NAME READY STATUS RESTARTS AGE" ++ nl
  ++ "dev-shop-api-7f9c-2x4k 1/1 Running 0 2d" ++ nl
  ++ "broken" ++ nl.

(** Both services of [shopListing], the second without a log window. *)
Definition quietRequest : list entry :=
  [Object (request "api" (JNumber (Int 3000)));
   Object {| cfg_serviceName := JString "web";
             cfg_namespace := JUndefined;
             cfg_localPort := JNumber (Int 3001);
             cfg_remotePort := JString "8080";
             cfg_environment := JUndefined;
             cfg_includeLogs := JBool false |}].

(** A handler that runs during the wait of a stop registers one process. *)
Definition lateArrival : State -> State := fun st =>
  {| portForwardProcesses := portForwardProcesses st ++ [ {| pid := 7 |} ];
     spawned := S (spawned st) |}.

(** The same service in two environments, qa listed first. *)
Definition qaFirstListing : string :=
  "NAMESPACE NAME READY STATUS" ++ nl
  ++ "shop-qa qa-api-1-a 1/1 Running" ++ nl
  ++ "shop-dev dev-api-2-b 1/1 Running" ++ nl
  ++ "shop-qa qa-api-3-c 1/1 Running" ++ nl.

Definition qaFirstMap : ServicesMap :=
  [("api",
    [("qa", {| id := "3-c"; K8s.namespace := Some "shop-qa";
               serviceName := "qa-api" |});
     ("dev", {| id := "2-b"; K8s.namespace := Some "shop-dev";
                serviceName := "dev-api" |})])].

(** A cluster of three namespaces, that answers nothing else. *)
Definition namespaceCluster : Shell := fun cmd =>
  if String.eqb cmd namespacesCommand
  then said (" default kube-system  shop" ++ nl)
  else failed "Error from server (NotFound)".

(** A cluster that prints the port of a service with its protocol. *)
Definition protocolCluster : Shell := fun cmd =>
  if String.eqb cmd "kubectl get pods --all-namespaces" then said shopListing
  else said "8080/TCP".

(** A cluster that prints a port of twenty-two digits. *)
Definition hugePortCluster : Shell := fun cmd =>
  if String.eqb cmd "kubectl get pods --all-namespaces" then said shopListing
  else said "1000000000000000000000".

(** A cluster whose services all listen on port 70000. *)
Definition widePortCluster : Shell := fun cmd =>
  if String.eqb cmd "kubectl get pods --all-namespaces" then said shopListing
  else said ("70000" ++ nl).

(** Two environments of one service, in two namespaces. *)
Definition twoStages : ServicesMap :=
  [("api",
    [("prod", {| id := "1-a"; K8s.namespace := Some "live";
                 serviceName := "prod-api" |});
     ("stg", {| id := "2-b"; K8s.namespace := Some "staging";
                serviceName := "stg-api" |})])].

(** The order of the code units of two names. *)
Definition codeUnitOrder (a b : string) : Z :=
  match String.compare a b with
  | Lt => -1
  | Eq => 0
  | Gt => 1
  end.

(** The [osascript] binary is missing: the child reports the error, then
    closes with the code of the failure. *)
Definition osascriptMissing : list osascript_event :=
  [ChildError "spawn osascript ENOENT"; Close (Some (-2))].

End Samples.

(** * Proofs *)

Import Js K8s Num Util Index Spec Samples.

#[local] Arguments Ascii.eqb : simpl never.

(** Decides every comparison of a character of the goal with a constant:
    by cases when the character is unknown, by evaluation otherwise. *)
Ltac split_on_characters :=
  repeat match goal with
         | |- context [Ascii.eqb ?k ?c] =>
             first
               [ is_var c; destruct (Ascii.eqb_spec k c); subst
               | let v := eval vm_compute in (Ascii.eqb k c) in
                 change (Ascii.eqb k c) with v ];
             cbn
         end.

(** ** Texts *)

Section Texts.

Lemma is_empty_true (s : string) : is_empty s = true -> s = "".
Proof. destruct s; simpl; congruence. Qed.

Lemma append_assoc (a b c : string) : (a ++ b) ++ c = a ++ (b ++ c).
Proof. induction a as [|x r IH]; simpl; [reflexivity | now rewrite IH]. Qed.

Lemma startsWith_append (p r : string) : startsWith (p ++ r) p = true.
Proof.
  induction p as [|c p IH]; simpl; [reflexivity|].
  now rewrite Ascii.eqb_refl, IH.
Qed.

Lemma cons_head_nonempty (c : ascii) (l : list string) : cons_head c l <> [].
Proof. destruct l; simpl; congruence. Qed.

Lemma split_char_nonempty (sep : ascii) (s : string) : split_char sep s <> [].
Proof.
  destruct s as [|c r]; simpl; [congruence|].
  destruct (Ascii.eqb c sep); [congruence | apply cons_head_nonempty].
Qed.

Lemma join_cons (sep p : string) (ps : list string) :
  ps <> [] -> join sep (p :: ps) = p ++ sep ++ join sep ps.
Proof. destruct ps; simpl; congruence. Qed.

Lemma join_cons_head (sep : string) (c : ascii) (l : list string) :
  l <> [] -> join sep (cons_head c l) = String c (join sep l).
Proof.
  destruct l as [|f fs]; [congruence|]; intros _.
  destruct fs; reflexivity.
Qed.

(** Joining the fields of a split gives the text back. *)
Lemma join_split_char (sep : ascii) (s : string) :
  join (String sep "") (split_char sep s) = s.
Proof.
  induction s as [|c r IH]; simpl; [reflexivity|].
  destruct (Ascii.eqb c sep) eqn:E.
  - apply Ascii.eqb_eq in E; subst c.
    rewrite join_cons by apply split_char_nonempty.
    simpl. now rewrite IH.
  - rewrite join_cons_head by apply split_char_nonempty.
    now rewrite IH.
Qed.

Lemma join_app (sep : string) (l1 l2 : list string) :
  l1 <> [] -> l2 <> [] ->
  join sep (l1 ++ l2) = join sep l1 ++ sep ++ join sep l2.
Proof.
  induction l1 as [|a l1 IH]; intros H1 H2; [congruence|].
  destruct l1 as [|b l1].
  - simpl app. now rewrite join_cons.
  - change ((a :: b :: l1) ++ l2)%list with (a :: ((b :: l1) ++ l2))%list.
    rewrite join_cons by (simpl; congruence).
    rewrite IH by congruence.
    rewrite (@join_cons sep a (b :: l1)) by congruence.
    now rewrite !append_assoc.
Qed.

(** A pod name of more than two segments is its full service name, a dash,
    and its id. *)
Lemma name_recomposes (nameColumn : string) :
  (2 < List.length (split_char dash nameColumn))%nat ->
  nameColumn =
  join "-" (slice_init2 (split_char dash nameColumn)) ++ "-"
  ++ join "-" (slice_last2 (split_char dash nameColumn)).
Proof.
  intros Hlen.
  set (parts := split_char dash nameColumn) in *.
  rewrite <- (join_split_char dash nameColumn) at 1.
  fold parts. unfold slice_init2, slice_last2.
  rewrite <- (firstn_skipn (List.length parts - 2) parts) at 1.
  apply join_app.
  - intros E. apply (f_equal (@List.length string)) in E.
    rewrite length_firstn in E. simpl in E. lia.
  - intros E. apply (f_equal (@List.length string)) in E.
    rewrite length_skipn in E. simpl in E. lia.
Qed.

End Texts.

(** ** Tables *)

Section Tables.
Variable V : Type.
Implicit Types (t : list (string * V)) (k : string) (v : V).

Lemma get_set_same t k v : get (set t k v) k = Some v.
Proof.
  induction t as [|[k' v'] r IH]; simpl.
  - now rewrite String.eqb_refl.
  - destruct (String.eqb k' k) eqn:E; simpl; rewrite E; auto.
Qed.

Lemma get_set_other t k k' v : k <> k' -> get (set t k v) k' = get t k'.
Proof.
  intros Hne. induction t as [|[k0 v0] r IH]; simpl.
  - destruct (String.eqb_spec k k'); [contradiction | reflexivity].
  - destruct (String.eqb_spec k0 k) as [->|Hk]; simpl.
    + destruct (String.eqb_spec k k'); [contradiction | reflexivity].
    + now rewrite IH.
Qed.

Lemma get_In t k v : get t k = Some v -> In (k, v) t.
Proof.
  induction t as [|[k0 v0] r IH]; simpl; [discriminate|].
  destruct (String.eqb_spec k0 k) as [->|Hk]; intros H.
  - injection H as ->. now left.
  - right. now apply IH.
Qed.

Lemma keys_set t k v k' :
  In k' (map fst (set t k v)) <-> k' = k \/ In k' (map fst t).
Proof.
  induction t as [|[k0 v0] r IH]; simpl.
  - intuition.
  - destruct (String.eqb_spec k0 k) as [->|Hk]; simpl.
    + intuition.
    + rewrite IH. intuition.
Qed.

Lemma NoDup_keys_set t k v :
  NoDup (map fst t) -> NoDup (map fst (set t k v)).
Proof.
  induction t as [|[k0 v0] r IH]; simpl; intros H.
  - constructor; [intros [] | constructor].
  - inversion H as [|? ? Hnotin Hr]; subst.
    destruct (String.eqb_spec k0 k) as [->|Hk]; simpl.
    + now constructor.
    + constructor; [|now apply IH].
      rewrite keys_set. intros [->|Hin]; [congruence | contradiction].
Qed.

Lemma Forall_set (P : string * V -> Prop) t k v :
  Forall P t -> (forall k0, P (k0, v)) -> Forall P (set t k v).
Proof.
  intros Ht Hv. induction t as [|[k0 v0] r IH]; simpl.
  - now constructor.
  - inversion Ht; subst.
    destruct (String.eqb k0 k); constructor; auto.
Qed.
End Tables.

(** ** Parser *)

Section Parser.

Variable re : RegExpEngine.

Lemma lookup_upsert (m : ServicesMap) (s t s' t' : string) (d : ServiceDetails) :
  lookup (upsert m s t d) s' t' =
  if String.eqb s s' && String.eqb t t' then Some d else lookup m s' t'.
Proof.
  unfold lookup, upsert.
  destruct (String.eqb_spec s s') as [<-|Hs]; simpl.
  - rewrite get_set_same.
    destruct (String.eqb_spec t t') as [<-|Ht].
    + apply get_set_same.
    + rewrite get_set_other by assumption.
      destruct (get m s); reflexivity.
  - now rewrite get_set_other.
Qed.

Lemma uniquelyKeyed_upsert (m : ServicesMap) (s t : string) (d : ServiceDetails) :
  uniquelyKeyed m -> uniquelyKeyed (upsert m s t d).
Proof.
  intros [Hk He]. unfold upsert. split.
  - now apply NoDup_keys_set.
  - apply Forall_set; [assumption|]. intros k0; simpl.
    apply NoDup_keys_set.
    destruct (get m s) as [envMap|] eqn:G; [|constructor].
    apply get_In in G. rewrite Forall_forall in He.
    exact (He _ G).
Qed.

(** A turn of the loop writes what the row stores on its own, whatever the
    map already holds. *)
Lemma parseRow_rowAlone (ns : option string) (a b c : Z) (m m' : ServicesMap)
    (line : string) :
  parseRow re ns a b c m line = Returns m' ->
  m' = match rowAlone re ns a b c line with
       | Some (s, t, d) => upsert m s t d
       | None => m
       end.
Proof.
  unfold rowAlone, parseRow.
  destruct (match (if negb (c =? -1) then at_index (split_ws line) c else None)
            with Some st => negb (String.eqb st "Running") | None => false end).
  { intros H; injection H as H; subst m'; reflexivity. }
  destruct (at_index (split_ws line) b) as [nameColumn|]; [|discriminate].
  destruct (2 <? List.length (split_char dash nameColumn))%nat.
  2:{ intros H; injection H as H; subst m'; reflexivity. }
  set (full := join "-" (slice_init2 (split_char dash nameColumn))).
  destruct (match
      match ns with Some n => Some n | None => at_index (split_ws line) a end
    with
    | Some n => if is_empty n then Returns (stripEnvPrefix full)
                else stripNamespacePrefix re n (stripEnvPrefix full)
    | None => Returns (stripEnvPrefix full)
    end) as [short|e]; simpl; try discriminate.
  intros H; injection H as H; subst m'; reflexivity.
Qed.

Lemma parseRows_lookup (ns : option string) (a b c : Z) (rows : list string) :
  forall m m',
  parseRows re ns a b c m rows = Returns m' ->
  forall s t,
  lookup m' s t =
  match lastFor s t (somes (map (rowAlone re ns a b c) rows)) with
  | Some d => Some d
  | None => lookup m s t
  end.
Proof.
  induction rows as [|line rest IH]; intros m m' H s t; simpl in H.
  - injection H as H; subst m'. reflexivity.
  - destruct (parseRow re ns a b c m line) as [m1|e] eqn:Hrow; try discriminate.
    simpl in H. rewrite (IH _ _ H s t).
    apply parseRow_rowAlone in Hrow. simpl.
    destruct (rowAlone re ns a b c line) as [[[s0 t0] d0]|]; simpl.
    + destruct (lastFor s t (somes (map (rowAlone re ns a b c) rest)));
        [reflexivity|].
      subst m1. rewrite lookup_upsert. unfold keyedb; simpl.
      now destruct (String.eqb s0 s && String.eqb t0 t).
    + now subst m1.
Qed.

Lemma parseRows_uniquelyKeyed (ns : option string) (a b c : Z)
    (rows : list string) :
  forall m m',
  parseRows re ns a b c m rows = Returns m' ->
  uniquelyKeyed m -> uniquelyKeyed m'.
Proof.
  induction rows as [|line rest IH]; intros m m' H Hm; simpl in H.
  - injection H as H; now subst m'.
  - destruct (parseRow re ns a b c m line) as [m1|e] eqn:Hrow; try discriminate.
    simpl in H. apply (IH _ _ H).
    apply parseRow_rowAlone in Hrow. subst m1.
    destruct (rowAlone re ns a b c line) as [[[s0 t0] d0]|];
      [now apply uniquelyKeyed_upsert | assumption].
Qed.

Lemma keyedb_keyed (s t : string) (c : string * string * ServiceDetails) :
  keyedb s t c = true <-> keyed s t c.
Proof.
  unfold keyedb, keyed. rewrite andb_true_iff, !String.eqb_eq. tauto.
Qed.

Lemma lastFor_none (s t : string) (cs : list (string * string * ServiceDetails)) :
  lastFor s t cs = None <-> Forall (fun c => ~ keyed s t c) cs.
Proof.
  induction cs as [|c rest IH]; simpl.
  - split; [constructor | reflexivity].
  - split.
    + intros H. destruct (lastFor s t rest); [discriminate|].
      destruct (keyedb s t c) eqn:K; [discriminate|].
      constructor; [|now apply IH].
      intros Hk. apply keyedb_keyed in Hk. congruence.
    + intros H. inversion H as [|? ? Hc Hrest]; subst.
      apply IH in Hrest. rewrite Hrest.
      destruct (keyedb s t c) eqn:K; [|reflexivity].
      apply keyedb_keyed in K. contradiction.
Qed.

Lemma lastFor_app (s t : string) (l1 l2 : list (string * string * ServiceDetails)) :
  lastFor s t (l1 ++ l2) =
  match lastFor s t l2 with
  | Some d => Some d
  | None => lastFor s t l1
  end.
Proof.
  induction l1 as [|c l1 IH]; simpl.
  - now destruct (lastFor s t l2).
  - rewrite IH. now destruct (lastFor s t l2).
Qed.

(** [lastFor] finds the contribution under the key that no later one
    replaces. *)
Lemma lastFor_last (s t : string) (d : ServiceDetails)
    (cs : list (string * string * ServiceDetails)) :
  lastFor s t cs = Some d <->
  exists before after,
    cs = (before ++ (s, t, d) :: after)%list
    /\ Forall (fun c => ~ keyed s t c) after.
Proof.
  split.
  - induction cs as [|c rest IH]; simpl; [discriminate|].
    intros H.
    destruct (lastFor s t rest) as [d'|] eqn:L.
    + injection H as ->.
      destruct (IH eq_refl) as (before & after & -> & Hafter).
      now exists (c :: before), after.
    + destruct (keyedb s t c) eqn:K; [|discriminate].
      injection H as H. apply keyedb_keyed in K as [K1 K2].
      destruct c as [[s0 t0] d0]; simpl in *; subst.
      exists [], rest. split; [reflexivity | now apply lastFor_none].
  - intros (before & after & -> & Hafter).
    rewrite lastFor_app. simpl.
    apply lastFor_none in Hafter. rewrite Hafter.
    unfold keyedb; simpl. now rewrite !String.eqb_refl.
Qed.

Lemma parse_lookup (podsData : string) (ns : option string) (m : ServicesMap) :
  parseServicesMap re podsData ns = Returns m ->
  uniquelyKeyed m /\
  forall s t, lookup m s t = lastFor s t (contributions re podsData ns).
Proof.
  unfold parseServicesMap, contributions.
  destruct (split_char LF (trim podsData)) as [|header rows].
  - intros H; injection H as H; subst m. split.
    + split; constructor.
    + reflexivity.
  - intros H. split.
    + eapply parseRows_uniquelyKeyed; [eassumption|]. split; constructor.
    + intros s t. erewrite parseRows_lookup by eassumption.
      now destruct lastFor.
Qed.

(** The prefix the expression strips off the full service name is the tag
    of the pod name, whenever the full service name carries it. *)
Lemma stripEnvPrefix_tag (full rest : string) :
  stripEnvPrefix full = withoutEnv (envPrefixOf (full ++ "-" ++ rest)) full.
Proof.
  unfold withoutEnv, stripEnvPrefix, envPrefixOf, strip_prefix, ENV_PREFIXES.
  destruct full as [|c1 [|c2 [|c3 [|c4 [|c5 r]]]]]; cbn;
    split_on_characters; try reflexivity;
    destruct rest as [|d1 [|d2 [|d3 [|d4 rest]]]]; cbn;
    split_on_characters; reflexivity.
Qed.

(** [find] returns the first element that passes the test. *)
Lemma find_first (A : Type) (f : A -> bool) (l : list A) :
  match find f l with
  | Some x =>
      exists before after,
        l = (before ++ x :: after)%list /\ f x = true
        /\ Forall (fun y => f y = false) before
  | None => Forall (fun y => f y = false) l
  end.
Proof.
  induction l as [|a l IH]; simpl; [constructor|].
  destruct (f a) eqn:Fa.
  - exists [], l. repeat split; [assumption | constructor].
  - destruct (find f l) as [x|].
    + destruct IH as (before & after & -> & Fx & Hb).
      exists (a :: before), after. repeat split; [assumption|].
      now constructor.
    + now constructor.
Qed.

Lemma envPrefixOf_first (text : string) : firstEnvPrefix text (envPrefixOf text).
Proof.
  unfold firstEnvPrefix, envPrefixOf.
  pose proof (find_first (fun env => startsWith text (env ++ "-")) ENV_PREFIXES)
    as H.
  destruct (find (fun env => startsWith text (env ++ "-")) ENV_PREFIXES)
    as [env|].
  - left. destruct H as (before & after & E & Hp & Hb). now exists before, after.
  - right. now split.
Qed.

(** What a stored row is made of. The short name is the derived one when
    the namespace is spliced as a literal source. *)
Lemma rowAlone_facts (ns : option string) (a b c : Z) (line short tag : string)
    (d : ServiceDetails) :
  rowAlone re ns a b c line = Some (short, tag, d) ->
  tag = envPrefixOf (serviceName d ++ "-" ++ id d)
  /\ (match K8s.namespace d with
      | Some n => RegExp_literal_source n = true
      | None => True
      end -> short = shortNameOf tag d).
Proof.
  unfold rowAlone, parseRow.
  destruct (match (if negb (c =? -1) then at_index (split_ws line) c else None)
            with Some st => negb (String.eqb st "Running") | None => false end);
    [discriminate|].
  destruct (at_index (split_ws line) b) as [nameColumn|]; [|discriminate].
  destruct (2 <? List.length (split_char dash nameColumn))%nat eqn:Hlen;
    [|discriminate].
  apply Nat.ltb_lt in Hlen. apply name_recomposes in Hlen.
  set (full := join "-" (slice_init2 (split_char dash nameColumn))) in *.
  set (serviceId := join "-" (slice_last2 (split_char dash nameColumn))) in *.
  set (namespaceColumn :=
         match ns with Some n => Some n | None => at_index (split_ws line) a end).
  assert (Hstrip : stripEnvPrefix full
                   = withoutEnv (envPrefixOf nameColumn) full)
    by (rewrite Hlen at 1; apply stripEnvPrefix_tag).
  destruct namespaceColumn as [n|]; unfold shortNameOf; simpl.
  - destruct (is_empty n) eqn:En; simpl.
    + intros H; injection H as <- <- <-; simpl. rewrite En.
      split; [f_equal; exact Hlen | intros _; exact Hstrip].
    + unfold stripNamespacePrefix.
      destruct (RegExp_literal_source n) eqn:Hl; simpl.
      * intros H; injection H as <- <- <-; simpl. rewrite En, Hstrip.
        split; [f_equal; exact Hlen | reflexivity].
      * destruct (re _ (stripEnvPrefix full)) as [short'|];
          simpl; [|discriminate].
        intros H; injection H as <- <- <-; simpl. rewrite Hl.
        split; [f_equal; exact Hlen | discriminate].
  - intros H; injection H as <- <- <-; simpl.
    split; [f_equal; exact Hlen | intros _; exact Hstrip].
Qed.

Lemma In_somes (A B : Type) (f : A -> option B) (l : list A) (y : B) :
  In y (somes (map f l)) -> exists x, In x l /\ f x = Some y.
Proof.
  induction l as [|a l IH]; simpl; [intros []|].
  destruct (f a) as [b|] eqn:Fa.
  - intros [<-|H].
    + exists a. auto.
    + destruct (IH H) as (x & Hx & Fx). exists x. auto.
  - intros H. destruct (IH H) as (x & Hx & Fx). exists x. auto.
Qed.

(** A stored identity is what some row of the listing stores on its own. *)
Lemma stored_is_contribution (podsData : string) (ns : option string)
    (m : ServicesMap) (short tag : string) (d : ServiceDetails) :
  parseServicesMap re podsData ns = Returns m ->
  lookup m short tag = Some d ->
  In (short, tag, d) (contributions re podsData ns).
Proof.
  intros Hp Hl. apply parse_lookup in Hp as [_ Hp].
  rewrite Hp in Hl. apply lastFor_last in Hl as (before & after & E & _).
  rewrite E. apply in_or_app. right. now left.
Qed.

Lemma contribution_facts (podsData : string) (ns : option string)
    (short tag : string) (d : ServiceDetails) :
  In (short, tag, d) (contributions re podsData ns) ->
  tag = envPrefixOf (serviceName d ++ "-" ++ id d)
  /\ (match K8s.namespace d with
      | Some n => RegExp_literal_source n = true
      | None => True
      end -> short = shortNameOf tag d).
Proof.
  unfold contributions. intros Hin.
  destruct (split_char LF (trim podsData)) as [|header rows]; [destruct Hin|].
  apply In_somes in Hin as (line & _ & Hrow).
  exact (rowAlone_facts _ _ _ _ _ Hrow).
Qed.

End Parser.

(** ** Properties of the parser *)

(** C2, as stated, fails on the code: the row of the example is stored under
    the short name [billing-api], with full service name [dev-billing-api];
    nothing is stored under [api]. *)
Lemma billing_example_is_not_api :
  parseServicesMap plainEngine billingListing (Some "billing-api")
  = Returns billingMap
  /\ lookup billingMap "api" "dev" = None
  /\ lookup billingMap "billing-api" "dev" = Some billingDetails
  /\ serviceName billingDetails <> "dev-billing-api-api".
Proof. repeat split; try reflexivity. discriminate. Qed.

(** C2, amended. Whatever the engine, the pod [dev-billing-api-7f9c-2x4k]
    parsed with namespace [billing-api] is stored under short name
    [billing-api] and tag [dev], with id [7f9c-2x4k] and full service name
    [dev-billing-api]. In general the short name of a parsed row, and so of
    an identity of the map, is its full service name without the matched
    environment prefix, then without the namespace followed by a dash when
    that starts what is left, for a namespace that holds no syntax character
    of regular expressions. *)
Theorem short_name_derivation (re : RegExpEngine) :
  (parseServicesMap re billingListing (Some "billing-api") = Returns billingMap
   /\ lookup billingMap "billing-api" "dev"
      = Some {| id := "7f9c-2x4k";
                K8s.namespace := Some "billing-api";
                serviceName := "dev-billing-api" |})
  /\ forall podsData ns short tag d,
       In (short, tag, d) (contributions re podsData ns)
       \/ (exists m, parseServicesMap re podsData ns = Returns m
                     /\ lookup m short tag = Some d) ->
       match K8s.namespace d with
       | Some n => RegExp_literal_source n = true
       | None => True
       end ->
       short = shortNameOf tag d.
Proof.
  split; [split; reflexivity|].
  intros podsData ns short tag d H Hliteral.
  assert (Hin : In (short, tag, d) (contributions re podsData ns)).
  { destruct H as [H | (m & Hp & Hl)]; [assumption|].
    eapply stored_is_contribution; eassumption. }
  apply contribution_facts in Hin as [_ Hshort]. now apply Hshort.
Qed.

(** C3, as stated, fails on the code: the pod [dev-a-b] is tagged [dev],
    yet [dev-] does not start its full service name [dev]. *)
Lemma tag_without_prefix_in_full_name :
  parseServicesMap plainEngine shortPodListing None = Returns shortPodMap
  /\ lookup shortPodMap "dev" "dev" = Some shortPodDetails
  /\ ~ firstEnvPrefix (serviceName shortPodDetails) "dev".
Proof.
  repeat split; try reflexivity.
  intros [(before & after & _ & Hp & _) | (Hd & _)]; discriminate.
Qed.

(** C3, amended. For every pod row that is parsed, and so for every identity
    of the map, the environment tag is the first of dev, qa, stg, prod whose
    value followed by a dash starts the pod name (the full service name, a
    dash, the id); when none does, the tag is default. *)
Theorem env_tag_from_pod_name (re : RegExpEngine) (podsData : string)
    (ns : option string) (short tag : string) (d : ServiceDetails) :
  In (short, tag, d) (contributions re podsData ns)
  \/ (exists m, parseServicesMap re podsData ns = Returns m
                /\ lookup m short tag = Some d) ->
  firstEnvPrefix (serviceName d ++ "-" ++ id d) tag.
Proof.
  intros H.
  assert (Hin : In (short, tag, d) (contributions re podsData ns)).
  { destruct H as [H | (m & Hp & Hl)]; [assumption|].
    eapply stored_is_contribution; eassumption. }
  apply contribution_facts in Hin as (-> & _).
  apply envPrefixOf_first.
Qed.

Lemma env_tag_from_pod_name_witness :
  firstEnvPrefix (serviceName shortPodDetails ++ "-" ++ id shortPodDetails) "dev".
Proof.
  apply (@env_tag_from_pod_name plainEngine shortPodListing None "dev" "dev"
           shortPodDetails).
  right. exists shortPodMap. split; reflexivity.
Defined.

(** C4 fails on the code: a row that ends before the NAME column makes the
    parser raise a TypeError instead of dropping the row, whatever the
    engine. *)
Theorem truncated_row_throws (re : RegExpEngine) :
  parseServicesMap re truncatedListing None = Throws TypeError.
Proof. reflexivity. Qed.

(** C9. In the map a listing parses to, every short name occurs once and
    under it every environment tag once; the identity found under a key is
    the one stored by the last row of the listing that has this key. *)
Theorem last_row_wins (re : RegExpEngine) (podsData : string)
    (ns : option string) (m : ServicesMap) :
  parseServicesMap re podsData ns = Returns m ->
  uniquelyKeyed m
  /\ forall short tag d,
       lookup m short tag = Some d <->
       exists before after,
         contributions re podsData ns
         = (before ++ (short, tag, d) :: after)%list
         /\ Forall (fun c => ~ keyed short tag c) after.
Proof.
  intros Hp. apply parse_lookup in Hp as [Hu Hl]. split; [assumption|].
  intros short tag d. rewrite Hl. apply lastFor_last.
Qed.

Lemma last_row_wins_witness :
  uniquelyKeyed shopMap
  /\ forall short tag d,
       lookup shopMap short tag = Some d <->
       exists before after,
         contributions plainEngine shopListing None
         = (before ++ (short, tag, d) :: after)%list
         /\ Forall (fun c => ~ keyed short tag c) after.
Proof.
  apply (@last_row_wins plainEngine shopListing None shopMap). reflexivity.
Defined.

(** ** Resolver *)

Section Resolver.

Lemma find_after_misses (A : Type) (f : A -> bool) (before after : list A) (x : A) :
  Forall (fun y => f y = false) before -> f x = true ->
  find f (before ++ x :: after) = Some x.
Proof.
  induction 1 as [|y before Hy _ IH]; intros Hx; simpl.
  - now rewrite Hx.
  - rewrite Hy. now apply IH.
Qed.

Lemma find_all_miss (A : Type) (f : A -> bool) (l : list A) :
  Forall (fun y => f y = false) l -> find f l = None.
Proof.
  induction 1 as [|y l Hy _ IH]; simpl; [reflexivity|]. now rewrite Hy.
Qed.

Lemma namespace_is_true (n : string) (e : string * ServiceDetails) :
  namespace_is n e = true <-> K8s.namespace (snd e) = Some n.
Proof.
  unfold namespace_is. destruct (K8s.namespace (snd e)) as [n'|].
  - rewrite String.eqb_eq. split; congruence.
  - split; discriminate.
Qed.

Lemma namespace_is_false (n : string) (e : string * ServiceDetails) :
  K8s.namespace (snd e) <> Some n -> namespace_is n e = false.
Proof.
  intros H. destruct (namespace_is n e) eqn:E; [|reflexivity].
  apply namespace_is_true in E. contradiction.
Qed.

End Resolver.

(** C5. When a namespace is given and an entry of the environment table of
    the short name lives in it, the first such entry is the answer and its
    tag is the resolved environment, whatever environment was asked for.
    When no entry lives in it, the call does not fail for that: the answer
    is the one of the same call without the namespace, which is the entry
    of the environment asked for when the table has it, and the first entry
    of the table when no environment is asked for. *)
Theorem namespace_match_overrides_environment (m : ServicesMap)
    (short ns : string) (requested : option string) (envMap : EnvMap) :
  get m short = Some envMap ->
  ns <> "" ->
  (forall before tag d after,
      envMap = (before ++ (tag, d) :: after)%list ->
      K8s.namespace d = Some ns ->
      Forall (fun e => K8s.namespace (snd e) <> Some ns) before ->
      resolveService m short (Some ns) requested
      = Some {| resolved_namespace := Some ns;
                K8s.podName := serviceName d ++ "-" ++ id d;
                resolved_serviceName := Some (serviceName d);
                K8s.environment := tag |})
  /\ (Forall (fun e => K8s.namespace (snd e) <> Some ns) envMap ->
      resolveService m short (Some ns) requested
      = resolveService m short None requested
      /\ (forall env d,
            requested = Some env -> env <> "" -> get envMap env = Some d ->
            resolveService m short (Some ns) requested
            = Some {| resolved_namespace := K8s.namespace d;
                      K8s.podName := serviceName d ++ "-" ++ id d;
                      resolved_serviceName := Some (serviceName d);
                      K8s.environment := env |})
      /\ (forall tag d rest,
            requested = None \/ requested = Some "" ->
            envMap = (tag, d) :: rest ->
            resolveService m short (Some ns) requested
            = Some {| resolved_namespace := K8s.namespace d;
                      K8s.podName := serviceName d ++ "-" ++ id d;
                      resolved_serviceName := Some (serviceName d);
                      K8s.environment := tag |})).
Proof.
  intros Hget Hns.
  assert (En : is_empty ns = false) by (destruct ns; [congruence | reflexivity]).
  split.
  - intros before tag d after -> Hd Hbefore.
    unfold resolveService. rewrite Hget, En.
    rewrite find_after_misses.
    + unfold resolvedFrom. now rewrite Hd.
    + eapply Forall_impl; [|exact Hbefore].
      intros e. apply namespace_is_false.
    + now apply namespace_is_true.
  - intros Hnone.
    assert (Hmiss : find (namespace_is ns) envMap = None).
    { apply find_all_miss. eapply Forall_impl; [|exact Hnone].
      intros e. apply namespace_is_false. }
    unfold resolveService. rewrite Hget, En, Hmiss. repeat split.
    + intros env d -> Henv Hd.
      assert (Ee : is_empty env = false)
        by (destruct env; [congruence | reflexivity]).
      unfold Js.truthy. rewrite Ee. cbn [negb].
      unfold read. now rewrite Hd.
    + intros tag d rest Hreq ->.
      assert (Hfirst : (if Js.truthy requested then requested
                        else option_map fst (hd_error ((tag, d) :: rest)))
                       = Some tag)
        by (destruct Hreq as [-> | ->]; reflexivity).
      rewrite Hfirst. unfold read. simpl get. now rewrite String.eqb_refl.
Qed.

Lemma namespace_match_overrides_environment_witness :
  resolveService twoStages "api" (Some "staging") (Some "prod")
  = Some {| resolved_namespace := Some "staging";
            K8s.podName := "stg-api-2-b";
            resolved_serviceName := Some "stg-api";
            K8s.environment := "stg" |}
  /\ resolveService twoStages "api" (Some "nowhere") (Some "stg")
     = Some {| resolved_namespace := Some "staging";
               K8s.podName := "stg-api-2-b";
               resolved_serviceName := Some "stg-api";
               K8s.environment := "stg" |}
  /\ resolveService twoStages "api" (Some "nowhere") None
     = Some {| resolved_namespace := Some "live";
               K8s.podName := "prod-api-1-a";
               resolved_serviceName := Some "prod-api";
               K8s.environment := "prod" |}.
Proof.
  assert (Hnowhere :
    Forall (fun e => K8s.namespace (snd e) <> Some "nowhere")
      [("prod", {| id := "1-a"; K8s.namespace := Some "live";
                   serviceName := "prod-api" |});
       ("stg", {| id := "2-b"; K8s.namespace := Some "staging";
                  serviceName := "stg-api" |})])
    by (constructor; [discriminate|];
        constructor; [discriminate | constructor]).
  split; [|split].
  - refine (proj1
      (@namespace_match_overrides_environment twoStages "api" "staging"
         (Some "prod") _ eq_refl _)
      [("prod", {| id := "1-a"; K8s.namespace := Some "live";
                   serviceName := "prod-api" |})]
      "stg"
      {| id := "2-b"; K8s.namespace := Some "staging"; serviceName := "stg-api" |}
      [] eq_refl eq_refl _).
    + discriminate.
    + constructor; [discriminate | constructor].
  - refine (proj1 (proj2 (proj2
      (@namespace_match_overrides_environment twoStages "api" "nowhere"
         (Some "stg") _ eq_refl _) Hnowhere))
      "stg"
      {| id := "2-b"; K8s.namespace := Some "staging"; serviceName := "stg-api" |}
      eq_refl _ eq_refl); discriminate.
  - refine (proj2 (proj2 (proj2
      (@namespace_match_overrides_environment twoStages "api" "nowhere"
         None _ eq_refl _) Hnowhere))
      "prod"
      {| id := "1-a"; K8s.namespace := Some "live"; serviceName := "prod-api" |}
      _ (or_introl eq_refl) eq_refl). discriminate.
Defined.

(** ** Numbers read in a text *)

Section Numerals.

Lemma round_half_even_one (n : Z) : round_half_even n 1 = n.
Proof.
  unfold round_half_even. rewrite Z.mod_1_r, Z.div_1_r. reflexivity.
Qed.

Lemma round_half_even_floor (n d : Z) : n / d <= round_half_even n d.
Proof.
  unfold round_half_even.
  destruct (2 * (n mod d) <? d); [lia|].
  destruct (d <? 2 * (n mod d)); [lia|].
  destruct (Z.even (n / d)); lia.
Qed.

(** A positive integer rounds to a positive integer, or overflows; an
    integer below [2 ^ 53] is a binary64 value itself. *)
Lemma binary64_integer (p : Z) :
  0 < p ->
  ((exists z, binary64 p 1 = Int z /\ 0 < z)
   \/ binary64 p 1 = Infinity false)
  /\ (p < 2 ^ 53 -> binary64 p 1 = Int p).
Proof.
  intros Hp. unfold binary64.
  destruct (Z.eqb_spec p 0) as [->|_]; [lia|].
  change (Z.log2 1) with 0. rewrite Z.sub_0_r.
  pose proof (Z.log2_nonneg p) as Hlog.
  destruct (Z.log2_spec p Hp) as [Hlow Hhigh].
  assert (E0 : (0 <=? Z.log2 p) = true) by now apply Z.leb_le.
  rewrite E0.
  assert (E1 : (1 * 2 ^ Z.log2 p <=? p) = true) by (apply Z.leb_le; lia).
  rewrite E1, Z.max_l by lia.
  destruct (Z.leb_spec 0 (Z.log2 p - 52)) as [Hk|Hk].
  - split.
    + destruct (2 ^ 1024 <=? _); [now right|]. left.
      eexists. split; [reflexivity|].
      assert (Hpow : 0 < 2 ^ (Z.log2 p - 52)) by (apply Z.pow_pos_nonneg; lia).
      apply Z.mul_pos_pos; [|assumption].
      pose proof (round_half_even_floor p (1 * 2 ^ (Z.log2 p - 52))) as Hr.
      rewrite Z.mul_1_l in *.
      assert (1 <= p / 2 ^ (Z.log2 p - 52)).
      { apply Z.div_le_lower_bound; [assumption|].
        rewrite Z.mul_1_r.
        transitivity (2 ^ Z.log2 p); [|assumption].
        apply Z.pow_le_mono_r; lia. }
      lia.
    + intros Hsmall.
      assert (Z.log2 p < 53) by (apply Z.log2_lt_pow2; lia).
      replace (Z.log2 p - 52) with 0 by lia.
      change (1 * 2 ^ 0) with 1. rewrite round_half_even_one.
      change (2 ^ 0) with 1. rewrite Z.mul_1_r.
      destruct (Z.leb_spec (2 ^ 1024) p) as [Hbig|_]; [|reflexivity].
      assert (2 ^ 53 < 2 ^ 1024) by (apply Z.pow_lt_mono_r; lia). lia.
  - rewrite round_half_even_one.
    assert (Hpow : 0 < 2 ^ (- (Z.log2 p - 52)))
      by (apply Z.pow_pos_nonneg; lia).
    rewrite Z.mod_mul by lia. simpl Z.eqb. cbv iota.
    rewrite Z.div_mul by lia.
    split; [left; eauto | reflexivity].
Qed.

Lemma digits_value_nonneg (s : string) :
  forall acc v, 0 <= acc -> digits_value 10 acc s = Some v -> 0 <= v.
Proof.
  induction s as [|c r IH]; intros acc v Hacc H; simpl in H.
  - injection H as <-. assumption.
  - destruct (digit_in 10 c) as [d|] eqn:Ed; [|discriminate].
    refine (IH _ _ _ H).
    assert (0 <= d).
    { unfold digit_in in Ed.
      set (n := Z.of_nat (nat_of_ascii c)) in *.
      destruct ((48 <=? n) && (n <=? 57)) eqn:E1.
      - apply andb_true_iff in E1 as [E1 _]. apply Z.leb_le in E1.
        destruct (n - 48 <? 10); [injection Ed as <-; lia | discriminate].
      - destruct ((97 <=? n) && (n <=? 102)) eqn:E2.
        + apply andb_true_iff in E2 as [E2 _]. apply Z.leb_le in E2.
          destruct (n - 87 <? 10); [injection Ed as <-; lia | discriminate].
        + destruct ((65 <=? n) && (n <=? 70)) eqn:E3.
          * apply andb_true_iff in E3 as [E3 _]. apply Z.leb_le in E3.
            destruct (n - 55 <? 10); [injection Ed as <-; lia | discriminate].
          * simpl in Ed. discriminate. }
    lia.
Qed.

Lemma decimal_value_nonneg (s : string) : 0 <= decimal_value s.
Proof.
  unfold decimal_value.
  destruct (digits_value 10 0 s) as [v|] eqn:E; [|lia].
  now apply (digits_value_nonneg s (acc := 0)).
Qed.

(** [parseInt] reads an integer, an infinity, or nothing. *)
Lemma parseInt10_kinds (s : string) :
  parseInt10 s = NaN
  \/ (exists z, parseInt10 s = Int z)
  \/ (exists b, parseInt10 s = Infinity b).
Proof.
  unfold parseInt10.
  destruct (take_sign (trimStart s)) as [neg r].
  destruct (span is_digit r) as [ds rest].
  destruct (is_empty ds); [now left|]. right.
  pose proof (decimal_value_nonneg ds) as Hv.
  assert (Hb : (exists z, binary64 (decimal_value ds) 1 = Int z)
               \/ binary64 (decimal_value ds) 1 = Infinity false).
  { destruct (Z.eq_dec (decimal_value ds) 0) as [->|Hnz].
    - left. now exists 0.
    - destruct (@binary64_integer (decimal_value ds) ltac:(lia))
        as [[(z & Hz & _) | Hinf] _]; [left; eauto | now right]. }
  destruct Hb as [(z & ->) | ->]; destruct neg; simpl; eauto.
Qed.

Lemma detectRemotePort_kinds (sh : Shell) (resolvedOne : Resolved) :
  (exists z, detectRemotePort sh resolvedOne = Int z /\ z <> 0)
  \/ (exists b, detectRemotePort sh resolvedOne = Infinity b).
Proof.
  unfold detectRemotePort.
  set (detected := getServicePort sh _ _).
  destruct (parseInt10_kinds detected) as [-> | [(z & ->) | (b & ->)]]; simpl.
  - left. exists 3000. split; [reflexivity | lia].
  - destruct (Z.eqb_spec z 0) as [->|Hz]; simpl.
    + left. exists 3000. split; [reflexivity | lia].
    + left. now exists z.
  - right. now exists b.
Qed.

Lemma binary64_whole (p : Z) :
  0 <= p ->
  (exists z, binary64 p 1 = Int z /\ 0 <= z) \/ binary64 p 1 = Infinity false.
Proof.
  intros Hp. destruct (Z.eq_dec p 0) as [->|Hne].
  - left. exists 0. split; [reflexivity | lia].
  - destruct (proj1 (@binary64_integer p ltac:(lia)))
      as [(z & Hz & Hpos) | Hinf]; [left; exists z; split; [assumption | lia]
                                   | now right].
Qed.

End Numerals.


(** ** Port query *)

Section PortQuery.

Lemma digit_is_no_space (c : ascii) : is_digit c = true -> is_space c = false.
Proof.
  destruct c as [[] [] [] [] [] [] [] []]; vm_compute; congruence.
Qed.

Lemma trimEnd_head (c : ascii) (r : string) :
  is_space c = false -> trimEnd (String c r) = String c (trimEnd r).
Proof. intros H. simpl. now rewrite H. Qed.

Lemma span_cons (f : ascii -> bool) (c : ascii) (r : string) :
  fst (span f (String c r)) = if f c then String c (fst (span f r)) else "".
Proof. simpl. destruct (f c); [|reflexivity]. now destruct (span f r). Qed.

(** White space at the end is behind every leading digit. *)
Lemma span_digit_trimEnd (r : string) :
  fst (span is_digit (trimEnd r)) = fst (span is_digit r).
Proof.
  induction r as [|c r IH]; [reflexivity|].
  rewrite span_cons.
  destruct (is_digit c) eqn:D.
  - rewrite trimEnd_head by now apply digit_is_no_space.
    rewrite span_cons, D. now rewrite IH.
  - simpl. destruct (is_space c && is_empty (trimEnd r)); [reflexivity|].
    rewrite span_cons. now rewrite D.
Qed.

Lemma trimStart_head (s : string) :
  match trimStart s with
  | String c _ => is_space c = false
  | EmptyString => True
  end.
Proof.
  induction s as [|c r IH]; simpl; [exact I|].
  destruct (is_space c) eqn:E; [exact IH | exact E].
Qed.

Lemma parseInt10_parsed (s : string) : parseInt10 s = parsed (trimStart s).
Proof.
  unfold parseInt10, parsed. destruct (take_sign (trimStart s)) as [neg r].
  now destruct (span is_digit r).
Qed.

Lemma parsed_trimEnd (t : string) :
  match t with String c _ => is_space c = false | EmptyString => True end ->
  trimStart (trimEnd t) = trimEnd t /\ parsed (trimEnd t) = parsed t.
Proof.
  destruct t as [|c r]; [now split|]. intros Hc.
  rewrite trimEnd_head by assumption. split.
  - simpl. now rewrite Hc.
  - unfold parsed, take_sign.
    destruct (Ascii.eqb_spec c "-") as [->|Hm];
      [now rewrite span_digit_trimEnd|].
    destruct (Ascii.eqb_spec c "+") as [->|Hp];
      [now rewrite span_digit_trimEnd|].
    assert (E : forall X, match String c X with
                          | String "-" r0 => (true, r0)
                          | String "+" r0 => (false, r0)
                          | _ => (false, String c X)
                          end = (false, String c X)).
    { intros X.
      destruct c as [[] [] [] [] [] [] [] []]; try reflexivity; congruence. }
    rewrite !E, <- (@trimEnd_head c r Hc), span_digit_trimEnd. reflexivity.
Qed.

(** [parseInt] reads the same number before and after [trim]. *)
Lemma parseInt10_trim (s : string) : parseInt10 (trim s) = parseInt10 s.
Proof.
  rewrite !parseInt10_parsed. unfold trim.
  destruct (parsed_trimEnd (trimStart s) (trimStart_head s)) as [E1 E2].
  now rewrite E1, E2.
Qed.

Lemma non_numeric_NaN (s : string) : non_numeric s = true -> parseInt10 s = NaN.
Proof.
  rewrite parseInt10_parsed. unfold non_numeric, parsed.
  destruct (take_sign (trimStart s)) as [neg r]; simpl.
  destruct r as [|c r]; [reflexivity|].
  intros H. rewrite span_cons.
  apply negb_true_iff in H. now rewrite H.
Qed.

Lemma execPromise_cases (sh : Shell) (cmd : string) :
  (exists e, execPromise sh cmd = Throws e)
  \/ (execPromise sh cmd = Returns (stdout (sh cmd))
      /\ error (sh cmd) = None /\ trim (stderr (sh cmd)) = "").
Proof.
  unfold execPromise. destruct (error (sh cmd)) as [e|]; [left; eauto|].
  destruct (stderr (sh cmd)) as [|c r] eqn:Es; [right; auto|].
  destruct (is_empty (trim (String c r))) eqn:Et; simpl.
  - right. repeat split. now apply is_empty_true.
  - left; eauto.
Qed.

Lemma detect_fallback (sh : Shell) (resolvedOne : Resolved) :
  query_failed
    (sh (servicePortCommand (resolved_namespace resolvedOne)
           (resolved_serviceName resolvedOne))) ->
  detectRemotePort sh resolvedOne = Int 3000.
Proof.
  unfold detectRemotePort, getServicePort.
  set (cmd := servicePortCommand _ _).
  intros Hq.
  destruct (execPromise_cases sh cmd) as [[e ->] | (-> & Herr & Hstderr)];
    [reflexivity|].
  destruct (is_empty (trim (stdout (sh cmd)))) eqn:Et; [reflexivity|].
  destruct Hq as [H | [H | [H | H]]].
  - congruence.
  - congruence.
  - rewrite H in Et. discriminate.
  - rewrite parseInt10_trim, (non_numeric_NaN _ H). reflexivity.
Qed.

Lemma blank_or_not (t : string) : {t = ""} + {t <> ""}.
Proof. destruct t; [now left | now right]. Qed.

(** Without a failure, the port is what the leading digits of the output
    read as, and 3000 when that is zero. *)
Lemma detect_reads (sh : Shell) (resolvedOne : Resolved) :
  let reply := sh (servicePortCommand (resolved_namespace resolvedOne)
                     (resolved_serviceName resolvedOne)) in
  ~ query_failed reply ->
  parsed (trimStart (stdout reply)) <> NaN
  /\ detectRemotePort sh resolvedOne
     = if Num.truthy (parsed (trimStart (stdout reply)))
       then parsed (trimStart (stdout reply)) else Int 3000.
Proof.
  intros reply Hq. unfold query_failed in Hq.
  assert (Herr : error reply = None)
    by (destruct (error reply); [exfalso; apply Hq; left; discriminate
                                | reflexivity]).
  assert (Hstderr : trim (stderr reply) = "")
    by (destruct (blank_or_not (trim (stderr reply))) as [E|E];
        [exact E | exfalso; apply Hq; right; left; exact E]).
  assert (Hout : trim (stdout reply) <> "")
    by (intros E; apply Hq; right; right; left; exact E).
  assert (Hnum : non_numeric (stdout reply) = false)
    by (destruct (non_numeric (stdout reply)) eqn:E;
        [exfalso; apply Hq; right; right; right; reflexivity | reflexivity]).
  split.
  - unfold non_numeric in Hnum. unfold parsed.
    destruct (take_sign (trimStart (stdout reply))) as [neg r].
    simpl snd in Hnum. destruct r as [|c r]; [discriminate|].
    apply negb_false_iff in Hnum. rewrite span_cons, Hnum.
    cbn [is_empty].
    destruct (binary64_whole (decimal_value_nonneg
                                (String c (fst (span is_digit r)))))
      as [(z & -> & _) | ->]; destruct neg; discriminate.
  - unfold detectRemotePort, getServicePort. fold reply.
    unfold execPromise. fold reply. rewrite Herr.
    assert (Hcond : negb (is_empty (stderr reply))
                    && negb (is_empty (trim (stderr reply))) = false)
      by (rewrite Hstderr; apply andb_false_r).
    rewrite Hcond.
    destruct (is_empty (trim (stdout reply))) eqn:Et;
      [apply is_empty_true in Et; contradiction|].
    now rewrite parseInt10_trim, parseInt10_parsed.
Qed.

End PortQuery.

(** ** The number a text of digits is read as *)

Section Digits.

Lemma digit_in_digit (c : ascii) :
  is_digit c = true -> exists d, digit_in 10 c = Some d /\ 0 <= d < 10.
Proof.
  intros H.
  destruct c as [[] [] [] [] [] [] [] []];
    try (vm_compute in H; discriminate H);
    eexists; (split; [vm_compute; reflexivity | lia]).
Qed.

Lemma digit_char_in (d : Z) :
  0 <= d < 10 ->
  is_digit (digit_char d) = true /\ digit_in 10 (digit_char d) = Some d.
Proof.
  intros H.
  assert (E : d = 0 \/ d = 1 \/ d = 2 \/ d = 3 \/ d = 4 \/ d = 5 \/ d = 6
              \/ d = 7 \/ d = 8 \/ d = 9) by lia.
  repeat (destruct E as [-> | E]; [split; reflexivity|]).
  subst d. split; reflexivity.
Qed.

Lemma digit_is_plain (c : ascii) :
  is_digit c = true ->
  Ascii.eqb c "x" = false /\ Ascii.eqb c "X" = false
  /\ Ascii.eqb c "o" = false /\ Ascii.eqb c "O" = false
  /\ Ascii.eqb c "b" = false /\ Ascii.eqb c "B" = false
  /\ Ascii.eqb c "-" = false /\ Ascii.eqb c "+" = false
  /\ Ascii.eqb c "I" = false.
Proof.
  destruct c as [[] [] [] [] [] [] [] []]; vm_compute; try discriminate;
    intros _; repeat split.
Qed.

Lemma digitsOnly_cons (c : ascii) (r : string) :
  digitsOnly (String c r) = is_digit c && digitsOnly r.
Proof. unfold digitsOnly. simpl. now rewrite negb_involutive. Qed.

Lemma digitsOnly_app (a b : string) :
  digitsOnly (a ++ b) = digitsOnly a && digitsOnly b.
Proof.
  induction a as [|c r IH]; [reflexivity|].
  simpl append. rewrite !digitsOnly_cons, IH. apply andb_assoc.
Qed.


Lemma append_empty (t : string) : t ++ "" = t.
Proof. induction t as [|c r IH]; simpl; [reflexivity | now rewrite IH]. Qed.



Lemma digits_value_app (base : Z) (s1 s2 : string) :
  forall acc,
  digits_value base acc (s1 ++ s2)
  = match digits_value base acc s1 with
    | Some v => digits_value base v s2
    | None => None
    end.
Proof.
  induction s1 as [|c r IH]; intros acc; simpl; [reflexivity|].
  destruct (digit_in base c); [apply IH | reflexivity].
Qed.

(** The digits that [decimal_digits] puts before [acc] are the numeral of
    [z]. *)
Lemma decimal_digits_numeral (fuel : nat) :
  forall z acc,
  0 <= z < 10 ^ Z.of_nat (S fuel) ->
  exists ds,
    decimal_digits (S fuel) z acc = ds ++ acc
    /\ ds <> ""
    /\ digitsOnly ds = true
    /\ forall a,
         digits_value 10 a ds
         = Some (a * 10 ^ Z.of_nat (String.length ds) + z).
Proof.
  assert (Hone : forall f z acc,
    0 <= z < 10 ->
    exists ds,
      decimal_digits (S f) z acc = ds ++ acc
      /\ ds <> ""
      /\ digitsOnly ds = true
      /\ forall a,
           digits_value 10 a ds
           = Some (a * 10 ^ Z.of_nat (String.length ds) + z)).
  { intros f z acc Hz. cbn [decimal_digits].
    assert (Hmod : 0 <= z mod 10 < 10) by (apply Z.mod_pos_bound; lia).
    destruct (digit_char_in Hmod) as [Hdigit Hvalue].
    destruct (Z.ltb_spec z 10) as [_ | Hge]; [|lia].
    exists (String (digit_char (z mod 10)) "").
    repeat split; [discriminate | |].
    + rewrite digitsOnly_cons, Hdigit. reflexivity.
    + intros a. cbn [digits_value]. rewrite Hvalue.
      rewrite Z.mod_small by lia.
      change (Z.of_nat (String.length (String (digit_char z) ""))) with 1.
      f_equal; lia. }
  induction fuel as [|fuel IH]; intros z acc Hz.
  { apply Hone. simpl in Hz. lia. }
  destruct (Z.ltb_spec z 10) as [Hlt | Hge]; [apply Hone; lia|].
  change (decimal_digits (S (S fuel)) z acc)
    with (if z <? 10 then String (digit_char (z mod 10)) acc
          else decimal_digits (S fuel) (z / 10)
                 (String (digit_char (z mod 10)) acc)).
  assert (Hmod : 0 <= z mod 10 < 10) by (apply Z.mod_pos_bound; lia).
  destruct (digit_char_in Hmod) as [Hdigit Hvalue].
  destruct (Z.ltb_spec z 10) as [Hlt | _].
  - lia.
  - assert (Hdiv : 0 <= z / 10 < 10 ^ Z.of_nat (S fuel)).
    { split; [apply Z.div_pos; lia|].
      apply Z.div_lt_upper_bound; [lia|].
      rewrite (Nat2Z.inj_succ (S fuel)), Z.pow_succ_r in Hz by lia. lia. }
    destruct (IH (z / 10) (String (digit_char (z mod 10)) acc) Hdiv)
      as (ds & Heq & Hne & Hd & Hv).
    exists (ds ++ String (digit_char (z mod 10)) "").
    repeat split.
    + rewrite Heq. now rewrite append_assoc.
    + destruct ds; [congruence | discriminate].
    + rewrite digitsOnly_app, Hd, digitsOnly_cons, Hdigit. reflexivity.
    + intros a. rewrite digits_value_app, Hv. cbn [digits_value].
      rewrite Hvalue. f_equal.
      assert (Hlen : Z.of_nat (String.length
                                 (ds ++ String (digit_char (z mod 10)) ""))
                     = Z.of_nat (String.length ds) + 1).
      { clear. induction ds as [|c r IHr]; [reflexivity|].
        simpl append. cbn [String.length].
        rewrite !Nat2Z.inj_succ, IHr. lia. }
      rewrite Hlen, Z.pow_add_r, Z.pow_1_r by lia.
      pose proof (Z.div_mod z 10 ltac:(lia)). lia.
Qed.

(** The numeral of an integer that is not negative is a text of digits
    whose value is the integer. *)
Lemma show_Z_numeral (z : Z) :
  0 <= z ->
  show_Z z <> "" /\ digitsOnly (show_Z z) = true
  /\ decimal_value (show_Z z) = z.
Proof.
  intros Hz. unfold show_Z.
  rewrite Z.abs_eq by assumption.
  destruct (Z.ltb_spec z 0) as [|_]; [lia|].
  assert (Hfuel : 0 <= z < 10 ^ Z.of_nat (S (Z.to_nat (Z.log2 z)))).
  { split; [assumption|].
    rewrite Nat2Z.inj_succ, Z2Nat.id by apply Z.log2_nonneg.
    destruct (Z.eq_dec z 0) as [->|Hne]; [reflexivity|].
    pose proof (Z.log2_spec z ltac:(lia)) as [_ Hup].
    eapply Z.lt_le_trans; [exact Hup|].
    apply Z.pow_le_mono_l. pose proof (Z.log2_nonneg z). lia. }
  destruct (decimal_digits_numeral _ "" Hfuel) as (ds & -> & Hne & Hd & Hv).
  rewrite append_empty. repeat split; try assumption.
  unfold decimal_value. rewrite Hv. lia.
Qed.


(** *** Digits at the head of a longer text *)

Lemma trimStart_pad (pad t : string) :
  spaceOnly pad = true ->
  match t with String c _ => is_space c = false | EmptyString => True end ->
  trimStart (pad ++ t) = t.
Proof.
  intros Hpad Ht. induction pad as [|c r IH].
  - destruct t as [|c r]; [reflexivity|]. simpl. now rewrite Ht.
  - unfold spaceOnly in Hpad. simpl in Hpad.
    rewrite negb_involutive in Hpad.
    apply andb_true_iff in Hpad as [Hc Hr].
    simpl. rewrite Hc. now apply IH.
Qed.

Lemma span_digits_app (ds tail : string) :
  digitsOnly ds = true ->
  match tail with String c _ => is_digit c = false | EmptyString => True end ->
  span is_digit (ds ++ tail) = (ds, tail).
Proof.
  intros Hd Ht. induction ds as [|c r IH].
  - destruct tail as [|c r]; [reflexivity|]. simpl. now rewrite Ht.
  - rewrite digitsOnly_cons in Hd. apply andb_true_iff in Hd as [Hc Hr].
    simpl. now rewrite Hc, (IH Hr).
Qed.

(** [parseInt] reads the numeral at the head of a text, whatever follows
    it. *)
Lemma parseInt10_numeral (pad tail : string) (z : Z) :
  spaceOnly pad = true ->
  0 <= z < 2 ^ 53 ->
  match tail with String c _ => is_digit c = false | EmptyString => True end ->
  parseInt10 (pad ++ show_Z z ++ tail) = Int z.
Proof.
  intros Hpad [Hz Hup] Htail.
  destruct (show_Z_numeral Hz) as (Hne & Hd & Hv).
  destruct (show_Z z) as [|c r] eqn:Es; [congruence|].
  pose proof Hd as Hd'. rewrite digitsOnly_cons in Hd'.
  apply andb_true_iff in Hd' as [Hc _].
  unfold parseInt10.
  rewrite trimStart_pad; [|assumption | now apply digit_is_no_space].
  assert (Hsign : take_sign (String c r ++ tail) = (false, String c r ++ tail)).
  { destruct (digit_is_plain c Hc) as (_ & _ & _ & _ & _ & _ & Hm & Hp & _).
    unfold take_sign. simpl append.
    destruct c as [[] [] [] [] [] [] [] []]; try reflexivity;
      vm_compute in Hm, Hp; discriminate. }
  rewrite Hsign, (span_digits_app _ _ Hd Htail). cbn [is_empty]. rewrite Hv.
  destruct (Z.eq_dec z 0) as [->|Hpos]; [reflexivity|].
  apply binary64_integer; lia.
Qed.

End Digits.

(** The numeral at the head of the output of the query is the port. *)
Lemma detect_numeral (sh : Shell) (resolvedOne : Resolved)
    (pad tail : string) (z : Z) :
  let reply := sh (servicePortCommand (resolved_namespace resolvedOne)
                     (resolved_serviceName resolvedOne)) in
  error reply = None -> trim (stderr reply) = "" ->
  stdout reply = pad ++ show_Z z ++ tail ->
  spaceOnly pad = true ->
  0 < z < 2 ^ 53 ->
  match tail with String c _ => is_digit c = false | EmptyString => True end ->
  detectRemotePort sh resolvedOne = Int z.
Proof.
  intros reply Herr Hstderr Hout Hpad Hz Htail.
  assert (Hread : parseInt10 (stdout reply) = Int z)
    by (rewrite Hout; apply parseInt10_numeral; [assumption | lia | assumption]).
  unfold detectRemotePort, getServicePort. fold reply.
  unfold execPromise. fold reply. rewrite Herr.
  assert (Hcond : negb (is_empty (stderr reply))
                  && negb (is_empty (trim (stderr reply))) = false)
    by (rewrite Hstderr; apply andb_false_r).
  rewrite Hcond.
  destruct (is_empty (trim (stdout reply))) eqn:Et.
  - exfalso. apply is_empty_true in Et.
    pose proof (parseInt10_trim (stdout reply)) as E.
    rewrite Et, Hread in E. vm_compute in E. discriminate.
  - rewrite parseInt10_trim, Hread. simpl.
    destruct (Z.eqb_spec z 0); [lia | reflexivity].
Qed.

(** ** Start *)

Section Start.

Variable sh : Shell.
Variable m : ServicesMap.

Lemma asNumber_ToNumber (v : jsval) : asNumber v = ToNumber v.
Proof. now destruct v. Qed.

Lemma entry_line_prefix (n rest : string) :
  startsWith ("Entry " ++ n ++ ": " ++ rest) ("Entry " ++ n ++ ": ") = true.
Proof.
  replace ("Entry " ++ n ++ ": " ++ rest) with (("Entry " ++ n ++ ": ") ++ rest).
  - apply startsWith_append.
  - now rewrite !append_assoc.
Qed.

(** The only error of a conversion is the TypeError of an object that has
    a member named [toString]. *)
Lemma joinPiece_error : forall (v : jsval) (e : js_error),
  joinPiece v = Throws e -> e = TypeError.
Proof.
  fix IH 1. intros [| |b|n|x|elements|members] e; simpl; try discriminate.
  - assert (Heach : forall l e',
      (fix each (l : list jsval) : outcome (list piece) :=
         match l with
         | [] => Returns []
         | x :: rest =>
             p <- joinPiece x ;; ps <- each rest ;; Returns (p :: ps)
         end) l = Throws e' -> e' = TypeError).
    { fix IHl 1. intros [|x rest] e'; [discriminate|].
      destruct (joinPiece x) as [p|ex] eqn:Ex.
      - simpl. intros H.
        destruct ((fix each (l : list jsval) : outcome (list piece) :=
                     match l with
                     | [] => Returns []
                     | x0 :: rest0 =>
                         p0 <- joinPiece x0 ;; ps <- each rest0 ;;
                         Returns (p0 :: ps)
                     end) rest) as [ps|er] eqn:Er; [discriminate|].
        simpl in H. injection H as <-. exact (IHl rest er Er).
      - simpl. intros H. injection H as <-. exact (IH x ex Ex). }
    destruct ((fix each (l : list jsval) : outcome (list piece) :=
                 match l with
                 | [] => Returns []
                 | x :: rest =>
                     p <- joinPiece x ;; ps <- each rest ;; Returns (p :: ps)
                 end) elements) as [ps|er] eqn:Er; [discriminate|].
    simpl. intros H. injection H as <-. exact (Heach elements er Er).
  - unfold OrdinaryToPrimitive.
    destruct (toString_ members); destruct (valueOf_ members); simpl;
      try discriminate; intros H; now injection H as <-.
Qed.

Lemma ToNumber_error (v : jsval) (e : js_error) :
  ToNumber v = Throws e -> e = TypeError.
Proof.
  destruct v as [| |b|n|x|elements|members]; try discriminate.
  - unfold ToNumber.
    destruct (joinPiece (JArray elements)) as [p|e'] eqn:Ep; [discriminate|].
    simpl. intros H. injection H as <-. exact (joinPiece_error _ Ep).
  - unfold ToNumber, OrdinaryToPrimitive.
    destruct (valueOf_ members); destruct (toString_ members); simpl;
      try discriminate; intros H; now injection H as <-.
Qed.

(** What the loop does with one entry, against what the entry is: a port
    that cannot be coerced ends the loop with a TypeError; an entry that
    fails gets a line under its position; an entry that passes is resolved,
    with its local port coerced and its remote port given or detected. *)
Lemma checkEntry_verdict (i : nat) (s : entry) :
  match checkEntry sh m i s with
  | Throws e => e = TypeError /\ raises s = true
  | Returns (inl line) =>
      raises s = false
      /\ fails m s = true
      /\ startsWith line ("Entry " ++ entryNumber i ++ ": ") = true
  | Returns (inr r) =>
      raises s = false
      /\ fails m s = false
      /\ match s with
         | Primitive _ => False
         | Object o =>
             exists resolvedOne,
               resolveService m (requestedName o) (asString (cfg_namespace o))
                 (asString (cfg_environment o)) = Some resolvedOne
               /\ ToNumber (cfg_localPort o) = Returns (localPort r)
               /\ match cfg_remotePort o with
                  | JUndefined | JNull =>
                      remotePort r = detectRemotePort sh resolvedOne
                  | v => ToNumber v = Returns (remotePort r)
                  end
               /\ includeLogs r = wantsLogs s
         end
  end.
Proof.
  destruct s as [v|o].
  { repeat split. apply (entry_line_prefix _ "invalid object"). }
  unfold checkEntry, raises, fails, fails_validation, fails_resolution,
    requestedName, validPort, uncoercible.
  rewrite asNumber_ToNumber.
  destruct (ToNumber (cfg_localPort o)) as [l|e] eqn:El.
  2:{ simpl. split; [exact (ToNumber_error _ El) | reflexivity]. }
  cbn [bind].
  set (name := match cfg_serviceName o with JString x => trim x | _ => "" end).
  assert (Hjudge : forall (rp : option number) (remoteFails : bool),
    remoteFails = match rp with
                  | Some r => negb (isValidPort r)
                  | None => false
                  end ->
    match judge sh m i o l rp with
    | inl line =>
        is_empty name || negb (isValidPort l) || remoteFails
        || match resolveService m name (asString (cfg_namespace o))
                   (asString (cfg_environment o)) with
           | Some _ => false
           | None => true
           end = true
        /\ startsWith line ("Entry " ++ entryNumber i ++ ": ") = true
    | inr r =>
        is_empty name || negb (isValidPort l) || remoteFails
        || match resolveService m name (asString (cfg_namespace o))
                   (asString (cfg_environment o)) with
           | Some _ => false
           | None => true
           end = false
        /\ exists resolvedOne,
             resolveService m name (asString (cfg_namespace o))
               (asString (cfg_environment o)) = Some resolvedOne
             /\ localPort r = l
             /\ remotePort r = match rp with
                               | Some x => x
                               | None => detectRemotePort sh resolvedOne
                               end
             /\ includeLogs r = wantsLogs (Object o)
    end).
  { intros rp remoteFails ->. unfold judge. fold name.
    destruct (is_empty name) eqn:En.
    { split; [reflexivity
             | apply (entry_line_prefix _ "serviceName is required")]. }
    destruct (isValidPort l) eqn:Ev.
    2:{ split; [reflexivity
               | apply (entry_line_prefix _ "localPort must be 1-65535")]. }
    cbn [negb orb].
    destruct (match rp with
              | Some r => negb (isValidPort r)
              | None => false
              end) eqn:Er.
    { split; [reflexivity
             | apply (entry_line_prefix _ "remotePort must be 1-65535")]. }
    cbn [orb].
    destruct (resolveService m name (asString (cfg_namespace o))
                (asString (cfg_environment o))) as [resolvedOne|] eqn:Hres.
    - split; [reflexivity|]. exists resolvedOne. repeat split.
    - split; [reflexivity|].
      apply (entry_line_prefix _
               ("could not resolve service " ++ quote ++ name ++ quote
                ++ (if Js.truthy (asString (cfg_namespace o))
                    then " in namespace "
                         ++ template (asString (cfg_namespace o))
                    else "")
                ++ ". Call list_k8s_services to see available names.")). }
  destruct (cfg_remotePort o) as [| |b|n|x|elements|members];
    cbn [givenNumber bind].
  1,2: specialize (Hjudge None false eq_refl);
    destruct (judge sh m i o l None) as [line|r];
    [ destruct Hjudge as [Hf Hp]; repeat split; assumption
    | destruct Hjudge as [Hf (resolvedOne & Hres & Hl & Hr & Hlogs)];
      repeat split; [assumption|]; exists resolvedOne;
      repeat split; [assumption | now rewrite Hl | assumption | assumption] ].
  all: rewrite asNumber_ToNumber;
    match goal with
    | |- context [bind (ToNumber ?w) _] =>
        destruct (ToNumber w) as [x'|e] eqn:Ex
    end;
    [ cbn [bind];
      specialize (Hjudge (Some x') (negb (isValidPort x')) eq_refl);
      destruct (judge sh m i o l (Some x')) as [line|r];
      [ destruct Hjudge as [Hf Hp]; repeat split; assumption
      | destruct Hjudge as [Hf (resolvedOne & Hres & Hl & Hr & Hlogs)];
        repeat split; [assumption|]; exists resolvedOne;
        repeat split;
          [assumption | now rewrite Hl | now rewrite Hr | assumption] ]
    | cbn [bind]; split; [exact (ToNumber_error _ Ex) | reflexivity] ].
Qed.

(** An entry that does not fail raises no error. *)
Lemma passes_coerces (s : entry) : fails m s = false -> raises s = false.
Proof.
  destruct s as [v|o]; [reflexivity|].
  unfold fails, fails_validation, raises, validPort, uncoercible.
  intros H. apply orb_false_iff in H as [H _].
  apply orb_false_iff in H as [H Hr].
  apply orb_false_iff in H as [_ Hl].
  destruct (ToNumber (cfg_localPort o)); [|discriminate]. cbn [orb].
  destruct (cfg_remotePort o) as [| |b|n|x|elements|members];
    try reflexivity;
    match goal with
    | |- context [ToNumber ?w] => destruct (ToNumber w); [reflexivity | discriminate]
    end.
Qed.

(** The failing entries that raise no error get their lines, and the
    others are resolved, when the loop comes to its end. *)
Lemma checkEntries_lines (services : list entry) :
  forall i,
  match checkEntries sh m i services with
  | Returns (errors, resolved) =>
      Forall (fun s => raises s = false) services
      /\ Forall2 (reports sh m) errors (failing m i services)
      /\ (List.length errors + List.length resolved
          = List.length services)%nat
  | Throws e =>
      e = TypeError /\ Exists (fun s => raises s = true) services
  end.
Proof.
  induction services as [|s rest IH]; intros i; cbn [checkEntries].
  - repeat split; constructor.
  - pose proof (checkEntry_verdict i s) as Hv.
    destruct (checkEntry sh m i s) as [[line|r]|e] eqn:Hc; cbn [bind].
    + destruct Hv as (Hr & Hf & Hp).
      specialize (IH (S i)).
      destruct (checkEntries sh m (S i) rest) as [[errors resolved]|e];
        cbn [bind fst snd].
      * destruct IH as (IH0 & IH1 & IH2). cbn [failing]. rewrite Hf.
        repeat split.
        -- now constructor.
        -- constructor; [|assumption]. split; assumption.
        -- simpl. lia.
      * destruct IH as [-> IH]. split; [reflexivity | now apply Exists_cons_tl].
    + destruct Hv as (Hr & Hf & _).
      specialize (IH (S i)).
      destruct (checkEntries sh m (S i) rest) as [[errors resolved]|e];
        cbn [bind fst snd].
      * destruct IH as (IH0 & IH1 & IH2). cbn [failing]. rewrite Hf.
        repeat split.
        -- now constructor.
        -- assumption.
        -- simpl. lia.
      * destruct IH as [-> IH]. split; [reflexivity | now apply Exists_cons_tl].
    + destruct Hv as [-> Hr]. split; [reflexivity | now apply Exists_cons_hd].
Qed.

(** The loop comes to its end exactly when no entry raises. *)
Lemma checkEntries_returns (services : list entry) (i : nat) :
  Forall (fun s => raises s = false) services ->
  exists errors resolved,
    checkEntries sh m i services = Returns (errors, resolved).
Proof.
  intros Hall. pose proof (checkEntries_lines services i) as H.
  destruct (checkEntries sh m i services) as [[errors resolved]|e];
    [eauto|].
  destruct H as [_ Hex]. apply Exists_exists in Hex as (s & Hin & Hs).
  rewrite Forall_forall in Hall. specialize (Hall _ Hin). congruence.
Qed.


Lemma failing_empty (services : list entry) :
  Forall (fun s => fails m s = false) services ->
  forall i, failing m i services = [].
Proof.
  induction 1 as [|s rest Hs _ IH]; intros i; simpl; [reflexivity|].
  rewrite Hs. apply IH.
Qed.

Lemma spawnAll_length (resolved : list ResolvedService) :
  forall next, List.length (fst (spawnAll next resolved)) = List.length resolved.
Proof.
  induction resolved as [|r rest IH]; intros next; simpl; [reflexivity|].
  specialize (IH (S next)). destruct (spawnAll (S next) rest). simpl in *.
  now rewrite IH.
Qed.




End Start.


(** ** Properties of the handlers *)


(** An object with a member named [toString] as local port: the call
    fails with a TypeError and returns no text of error lines either. *)
Example uncoercible_port_returns_no_error_lines (re : RegExpEngine) :
  fails_validation (Object (request "api" uncoerciblePort)) = true
  /\ start_k8s_port_forward re shopCluster
       (Some [outOfRange; Object (request "api" uncoerciblePort)]) idle
     = {| answer := Throws TypeError; after := idle; effects := [] |}.
Proof. split; reflexivity. Qed.



(** Two entries that pass and one with local port 99999: one line, for the
    third entry, and nothing spawned. *)
Example mixed_request_reports_third_entry (re : RegExpEngine) :
  start_k8s_port_forward re shopCluster (Some mixedRequest) idle
  = {| answer := Returns ("Validation/resolution errors:" ++ nl
                          ++ "Entry 3: localPort must be 1-65535");
       after := idle;
       effects := [] |}.
Proof. reflexivity. Qed.

(** C6, as stated, fails on the code: an output that is no number but
    starts with digits is not taken for a failure, and its leading digits
    are the remote port. *)
Lemma trailing_text_is_read_as_a_port :
  numeric "8080/TCP" = false
  /\ exists r,
       checkEntry protocolCluster shopMap 0
         (Object (request "api" (JNumber (Int 3000)))) = Returns (inr r)
       /\ remotePort r = Int 8080.
Proof. split; [reflexivity|]. eexists. split; reflexivity. Qed.

(** C6, amended. When an entry gives no remote port, the entry is resolved
    as any other whatever the query of the port of the resolved service
    gives: no error comes of a failure. When the query fails (the tool
    reports an error or writes to its error stream, or prints nothing, or
    prints a text that does not start, after white space and a sign, with a
    digit), the remote port is 3000; otherwise it is the integer that the
    leading digits of the output read as, whatever follows them, and 3000
    when that integer is zero: an output that starts, after white space,
    with the numeral of a positive integer gives that integer. *)
Theorem port_query_failure_gives_3000 (sh : Shell) (m : ServicesMap) (i : nat)
    (o : ServiceConfig) (resolvedOne : Resolved) :
  cfg_remotePort o = JUndefined \/ cfg_remotePort o = JNull ->
  fails m (Object o) = false ->
  resolveService m (requestedName o) (asString (cfg_namespace o))
    (asString (cfg_environment o)) = Some resolvedOne ->
  let reply := sh (servicePortCommand (resolved_namespace resolvedOne)
                     (resolved_serviceName resolvedOne)) in
  exists r,
    checkEntry sh m i (Object o) = Returns (inr r)
    /\ (query_failed reply -> remotePort r = Int 3000)
    /\ (~ query_failed reply ->
        parsed (trimStart (stdout reply)) <> NaN
        /\ remotePort r
           = if Num.truthy (parsed (trimStart (stdout reply)))
             then parsed (trimStart (stdout reply)) else Int 3000)
    /\ (forall pad z tail,
          error reply = None -> trim (stderr reply) = "" ->
          stdout reply = pad ++ show_Z z ++ tail ->
          spaceOnly pad = true ->
          0 < z < 2 ^ 53 ->
          match tail with
          | String c _ => is_digit c = false
          | EmptyString => True
          end ->
          remotePort r = Int z).
Proof.
  intros Hnone Hpass Hres reply.
  pose proof (checkEntry_verdict sh m i (Object o)) as Hv.
  destruct (checkEntry sh m i (Object o)) as [[line|r]|e].
  - destruct Hv as (_ & Hf & _). congruence.
  - destruct Hv as (_ & _ & resolvedOne' & Hres' & _ & Hremote & _).
    exists r. split; [reflexivity|].
    rewrite Hres in Hres'. injection Hres' as <-.
    assert (Hr : remotePort r = detectRemotePort sh resolvedOne)
      by (destruct Hnone as [E | E]; rewrite E in Hremote; exact Hremote).
    rewrite Hr. repeat split.
    + intros Hq. now apply detect_fallback.
    + now apply detect_reads.
    + now apply detect_reads.
    + intros pad z tail Herr Hstderr Hout Hpad Hz Htail.
      apply detect_numeral with (pad := pad) (tail := tail);
        try assumption.
  - destruct Hv as [_ Hr]. apply passes_coerces in Hpass. congruence.
Qed.

Lemma port_query_failure_gives_3000_witness :
  (exists r,
     checkEntry shopCluster shopMap 0
       (Object (request "api" (JNumber (Int 3000)))) = Returns (inr r)
     /\ remotePort r = Int 3000)
  /\ (exists r,
        checkEntry protocolCluster shopMap 0
          (Object (request "api" (JNumber (Int 3000)))) = Returns (inr r)
        /\ remotePort r = Int 8080).
Proof.
  split.
  - destruct (@port_query_failure_gives_3000 shopCluster shopMap 0
                (request "api" (JNumber (Int 3000))) shopApi
                (or_introl eq_refl) eq_refl eq_refl) as (r & Hr & Hfail & _).
    exists r. split; [exact Hr|]. apply Hfail. left. discriminate.
  - destruct (@port_query_failure_gives_3000 protocolCluster shopMap 0
                (request "api" (JNumber (Int 3000))) shopApi
                (or_introl eq_refl) eq_refl eq_refl)
      as (r & Hr & _ & _ & Hreads).
    exists r. split; [exact Hr|].
    apply (Hreads "" 8080 "/TCP"); try reflexivity.
    change (2 ^ 53) with 9007199254740992. lia.
Defined.

(** ** Stop *)

Section Stop.

Variable meanwhile : State -> State.

Lemma stop_count (st : State) :
  answer (stop_k8s_port_forward meanwhile st)
  = Returns (stopMessage (List.length (portForwardProcesses st)))
  /\ portForwardProcesses (after (stop_k8s_port_forward meanwhile st)) = [].
Proof.
  unfold stop_k8s_port_forward; cbn [answer after portForwardProcesses].
  split; [|reflexivity].
  now destruct (portForwardProcesses st).
Qed.

Lemma start_registers_all (re : RegExpEngine) (sh : Shell)
    (services : list entry) (m : ServicesMap) (st : State) :
  fetchServicesMap re sh = Returns m ->
  services <> [] ->
  Forall (fun s => fails m s = false) services ->
  List.length (portForwardProcesses
                 (after (start_k8s_port_forward re sh (Some services) st)))
  = (List.length (portForwardProcesses st) + List.length services)%nat.
Proof.
  intros Hfetch Hne Hpass.
  destruct services as [|s0 rest]; [congruence|].
  unfold start_k8s_port_forward. rewrite Hfetch.
  pose proof (checkEntries_lines sh m (s0 :: rest) 0) as Hloop.
  destruct (checkEntries sh m 0 (s0 :: rest)) as [[errors resolved]|e].
  2:{ exfalso. destruct Hloop as [_ Hex].
      apply Exists_exists in Hex as (x & Hx & Hr).
      rewrite Forall_forall in Hpass. specialize (Hpass _ Hx).
      apply passes_coerces in Hpass. congruence. }
  destruct Hloop as (_ & Hlines & Hlen).
  rewrite (failing_empty m Hpass) in Hlines.
  inversion Hlines; subst errors.
  cbn [List.length Nat.ltb Nat.leb].
  pose proof (spawnAll_length resolved (spawned st)) as Hs.
  destruct (spawnAll (spawned st) resolved) as [ps spawns].
  simpl fst in Hs. cbn [after portForwardProcesses].
  rewrite length_app, Hs. simpl in Hlen. lia.
Qed.

End Stop.

(** C7. The text returned by a stop names the number of processes that were
    registered when it was called, and the registry is empty afterwards,
    whatever other handlers do during the wait; a start of N entries that
    all pass registers N processes more, so that the stop that follows names
    that many more, N from an empty registry, and leaves the registry
    empty. *)
Theorem stop_reports_registered_count (meanwhile : State -> State) (st : State) :
  (answer (stop_k8s_port_forward meanwhile st)
   = Returns (stopMessage (List.length (portForwardProcesses st)))
   /\ portForwardProcesses (after (stop_k8s_port_forward meanwhile st)) = [])
  /\ forall re sh services m,
       fetchServicesMap re sh = Returns m ->
       services <> [] ->
       Forall (fun s => fails m s = false) services ->
       let started := after (start_k8s_port_forward re sh (Some services) st) in
       let before := List.length (portForwardProcesses st) in
       List.length (portForwardProcesses started)
       = (before + List.length services)%nat
       /\ answer (stop_k8s_port_forward meanwhile started)
          = Returns (stopMessage (before + List.length services))
       /\ portForwardProcesses (after (stop_k8s_port_forward meanwhile started))
          = []
       /\ (portForwardProcesses st = [] ->
           answer (stop_k8s_port_forward meanwhile started)
           = Returns (stopMessage (List.length services))).
Proof.
  split; [apply stop_count|].
  intros re sh services m Hfetch Hne Hpass started before.
  assert (Hlen : List.length (portForwardProcesses started)
                 = (before + List.length services)%nat)
    by (subst started before; now apply start_registers_all with (m := m)).
  destruct (stop_count meanwhile started) as [Ha Hr].
  rewrite Hlen in Ha. repeat split; try assumption.
  intros Hidle. rewrite Ha. subst before. now rewrite Hidle.
Qed.

(** A start of two entries followed by a stop. *)
Example start_two_then_stop (re : RegExpEngine) :
  let started := after (start_k8s_port_forward re shopCluster (Some validRequest) idle) in
  portForwardProcesses started = [ {| pid := 0 |}; {| pid := 1 |} ]
  /\ answer (stop_k8s_port_forward (fun s => s) started)
     = Returns "Stopped 2 port-forward process(es)."
  /\ portForwardProcesses (after (stop_k8s_port_forward (fun s => s) started))
     = [].
Proof. repeat split. Qed.

(** C8. In the effects of a stop there is the wait of 500 ms; every SIGINT
    comes before it and every SIGKILL after it; every process registered
    when the stop was called is sent SIGINT before the wait; a SIGKILL only
    goes, after the wait, to the processes registered at that time, each of
    which is sent one. *)
Theorem graceful_before_forced (meanwhile : State -> State) (st : State) :
  let trace := effects (stop_k8s_port_forward meanwhile st) in
  exists wait : nat,
    nth_error trace wait = Some (Sleep 500)
    /\ (forall j p, nth_error trace j = Some (Kill p "SIGINT") -> (j < wait)%nat)
    /\ (forall k p, nth_error trace k = Some (Kill p "SIGKILL") -> (wait < k)%nat)
    /\ (forall p, In p (portForwardProcesses st) ->
          exists j, (j < wait)%nat /\ nth_error trace j = Some (Kill p "SIGINT"))
    /\ (forall k p, nth_error trace k = Some (Kill p "SIGKILL") ->
          In p (portForwardProcesses (meanwhile st)))
    /\ (forall p, In p (portForwardProcesses (meanwhile st)) ->
          exists k, (wait < k)%nat /\ nth_error trace k = Some (Kill p "SIGKILL")).
Proof.
  unfold stop_k8s_port_forward; cbn [effects].
  set (registered := portForwardProcesses st).
  set (later := portForwardProcesses (meanwhile st)).
  set (message := if (0 <? List.length registered)%nat then _ else _).
  set (graceful := map (fun p => Kill p "SIGINT") registered).
  set (forced := map (fun p => Kill p "SIGKILL") later).
  assert (Hg : List.length graceful = List.length registered)
    by apply length_map.
  assert (Hno_int : forall p, ~ In (Kill p "SIGINT")
                                (forced ++ [StderrWrite (message ++ nl)])).
  { intros p Hin. apply in_app_or in Hin as [Hin | [Hin | []]].
    - apply in_map_iff in Hin as (q & Hq & _). discriminate.
    - discriminate. }
  assert (Hno_kill : forall p, ~ In (Kill p "SIGKILL") graceful).
  { intros p Hin. apply in_map_iff in Hin as (q & Hq & _). discriminate. }
  exists (List.length registered).
  repeat split.
  - rewrite nth_error_app2 by lia. now rewrite Hg, Nat.sub_diag.
  - intros j p Hj.
    destruct (Nat.lt_ge_cases j (List.length registered)) as [|Hge];
      [assumption|exfalso].
    rewrite nth_error_app2 in Hj by lia. rewrite Hg in Hj.
    destruct (j - List.length registered)%nat as [|j'] eqn:Ej;
      simpl in Hj; [discriminate|].
    apply nth_error_In in Hj. exact (Hno_int _ Hj).
  - intros k p Hk.
    destruct (Nat.lt_ge_cases (List.length registered) k) as [|Hle];
      [assumption|exfalso].
    destruct (Nat.eq_dec k (List.length registered)) as [->|Hne].
    + rewrite nth_error_app2 in Hk by lia.
      rewrite Hg, Nat.sub_diag in Hk. discriminate.
    + rewrite nth_error_app1 in Hk by lia.
      apply nth_error_In in Hk. exact (Hno_kill _ Hk).
  - intros p Hin.
    apply (in_map (fun p => Kill p "SIGINT")) in Hin.
    apply In_nth_error in Hin as [j Hj]. exists j.
    fold graceful in Hj.
    assert (Hlt : (j < List.length graceful)%nat)
      by (apply nth_error_Some; rewrite Hj; discriminate).
    split; [lia|]. now rewrite nth_error_app1.
  - intros k p Hk.
    apply nth_error_In in Hk.
    apply in_app_or in Hk as [Hk | Hk]; [destruct (Hno_kill _ Hk)|].
    simpl in Hk. destruct Hk as [Hk | Hk]; [discriminate|].
    apply in_app_or in Hk as [Hk | [Hk | []]]; [|discriminate].
    apply in_map_iff in Hk as (q & Hq & Hin). now injection Hq as <-.
  - intros p Hin.
    apply (in_map (fun p => Kill p "SIGKILL")) in Hin.
    apply In_nth_error in Hin as [k Hk]. fold forced in Hk.
    exists (List.length graceful + S k)%nat. split; [lia|].
    rewrite nth_error_app2 by lia.
    replace (List.length graceful + S k - List.length graceful)%nat
      with (S k) by lia.
    simpl. rewrite nth_error_app1; [assumption|].
    apply nth_error_Some. rewrite Hk. discriminate.
Qed.


(** ** Ports sent as text *)

Section Coercion.

Variable sh : Shell.
Variable m : ServicesMap.



(** *** Entries with a port sent as text *)









End Coercion.




(** The same request with the local port as text and as a number. *)
Example text_port_like_number (re : RegExpEngine) :
  start_k8s_port_forward re shopCluster
    (Some [Object (request "api" (JString "3000"))]) idle
  = start_k8s_port_forward re shopCluster
      (Some [Object (request "api" (JNumber (Int 3000)))]) idle
  /\ effects (start_k8s_port_forward re shopCluster
                (Some [Object (request "api" (JString "3000"))]) idle)
     = [OnSignal "SIGINT"; OnSignal "SIGTERM";
        OpenLogs "kubectl logs --namespace shop dev-shop-api-7f9c-2x4k -f"
          "dev~api:3000";
        Spawn {| pid := 0 |} "kubectl"
          [Some "port-forward"; Some "--namespace"; Some "shop";
           Some "dev-shop-api-7f9c-2x4k"; Some "3000:3000"]].
Proof. split; reflexivity. Qed.

(** * Further properties of the code *)

(** ** Fields of a split, ends of a trim *)

Section Fields.

Lemma split_ws_cons (c : ascii) (r : string) :
  split_ws (String c r) =
  if is_space c then
    match r with
    | String d _ => if is_space d then split_ws r else "" :: split_ws r
    | EmptyString => "" :: split_ws r
    end
  else cons_head c (split_ws r).
Proof. reflexivity. Qed.

Lemma split_ws_nonempty (s : string) : split_ws s <> [].
Proof.
  induction s as [|c r IH]; [discriminate|].
  rewrite split_ws_cons. destruct (is_space c).
  - destruct r as [|d r']; [discriminate|].
    destruct (is_space d); [assumption | discriminate].
  - apply cons_head_nonempty.
Qed.

Lemma without_cons (f : ascii -> bool) (c : ascii) (r : string) :
  without f (String c r) = negb (f c) && without f r.
Proof. reflexivity. Qed.

(** No field of a split on white space holds white space. *)
Lemma split_ws_spaceFree (s : string) :
  Forall (fun f => spaceFree f = true) (split_ws s).
Proof.
  induction s as [|c r IH]; [repeat constructor|].
  rewrite split_ws_cons. destruct (is_space c) eqn:Ec.
  - destruct r as [|d r']; [repeat constructor|].
    destruct (is_space d); [assumption | now constructor].
  - destruct (split_ws r) as [|f fs]; [repeat constructor; unfold spaceFree;
      rewrite without_cons, Ec; reflexivity|].
    inversion IH; subst. simpl cons_head. constructor; [|assumption].
    unfold spaceFree in *. now rewrite without_cons, Ec.
Qed.

Lemma trimEnd_cons (c : ascii) (r : string) :
  trimEnd (String c r) =
  if is_space c && is_empty (trimEnd r) then "" else String c (trimEnd r).
Proof. reflexivity. Qed.

Lemma endsInSpace_cons (c d : ascii) (r : string) :
  endsInSpace (String c (String d r)) = endsInSpace (String d r).
Proof. reflexivity. Qed.

Lemma trimEnd_clean (s : string) : endsInSpace (trimEnd s) = false.
Proof.
  induction s as [|c r IH]; [reflexivity|].
  rewrite trimEnd_cons.
  destruct (is_space c) eqn:Ec; destruct (trimEnd r) as [|d t] eqn:Et;
    simpl andb; cbv iota; try reflexivity.
  - now rewrite endsInSpace_cons.
  - simpl. exact Ec.
  - now rewrite endsInSpace_cons.
Qed.

Lemma trimEnd_idempotent (s : string) : trimEnd (trimEnd s) = trimEnd s.
Proof.
  induction s as [|c r IH]; [reflexivity|].
  rewrite trimEnd_cons.
  destruct (is_space c && is_empty (trimEnd r)) eqn:E; [reflexivity|].
  now rewrite trimEnd_cons, IH, E.
Qed.

Lemma trim_head (s : string) :
  match trim s with
  | String c _ => is_space c = false
  | EmptyString => True
  end.
Proof.
  unfold trim. pose proof (trimStart_head s) as H.
  destruct (trimStart s) as [|c r]; [exact I|].
  now rewrite (@trimEnd_head c r H).
Qed.

(** Trimming a trimmed text changes nothing. *)
Lemma trim_idempotent (s : string) : trim (trim s) = trim s.
Proof.
  unfold trim at 1.
  destruct (parsed_trimEnd (trimStart s) (trimStart_head s)) as [E _].
  fold (trim s) in E. rewrite E. unfold trim. apply trimEnd_idempotent.
Qed.

(** In a text that does not end in white space only the first field of the
    split can be empty, and only when the text starts with white space. *)
Lemma split_ws_fields (s : string) :
  s <> "" -> endsInSpace s = false ->
  Forall (fun f => is_empty f = false) (tl (split_ws s))
  /\ (match s with
      | String c _ => is_space c = false
      | EmptyString => True
      end -> Forall (fun f => is_empty f = false) (split_ws s)).
Proof.
  induction s as [|c r IH]; intros Hne Hend; [congruence|].
  rewrite split_ws_cons.
  destruct r as [|d r'].
  - simpl in Hend. rewrite Hend. simpl. split; repeat constructor.
  - rewrite endsInSpace_cons in Hend.
    destruct (IH ltac:(discriminate) Hend) as [IHt IHh].
    destruct (is_space c) eqn:Ec.
    + destruct (is_space d) eqn:Ed.
      * split; [assumption | discriminate].
      * split; [|discriminate]. simpl tl. now apply IHh.
    + pose proof (split_ws_nonempty (String d r')) as Hn.
      destruct (split_ws (String d r')) as [|f fs]; [congruence|].
      simpl in *. split; [assumption|]. intros _. now constructor.
Qed.

(** The fields of a trimmed text that is not empty: none is empty, none
    holds white space. *)
Lemma split_ws_trim (s : string) :
  trim s <> "" ->
  Forall (fun f => is_empty f = false /\ spaceFree f = true)
    (split_ws (trim s)).
Proof.
  intros Hne.
  assert (Hend : endsInSpace (trim s) = false) by apply trimEnd_clean.
  destruct (split_ws_fields Hne Hend) as [_ Hall].
  specialize (Hall (trim_head s)).
  pose proof (split_ws_spaceFree (trim s)) as Hfree.
  induction Hall as [|f fs Hf _ IH]; [constructor|].
  inversion Hfree; subst. constructor; auto.
Qed.

Lemma charFree_cons (sep c : ascii) (r : string) :
  charFree sep (String c r) = negb (Ascii.eqb sep c) && charFree sep r.
Proof. reflexivity. Qed.

Lemma split_char_cons (sep c : ascii) (r : string) :
  split_char sep (String c r) =
  if Ascii.eqb c sep then "" :: split_char sep r
  else cons_head c (split_char sep r).
Proof. reflexivity. Qed.

(** A text without the separator is one field. *)
Lemma split_char_one (sep : ascii) (s : string) :
  charFree sep s = true -> split_char sep s = [s].
Proof.
  induction s as [|c r IH]; [reflexivity|].
  rewrite charFree_cons, split_char_cons. intros H.
  apply andb_true_iff in H as [Hc Hr].
  rewrite Ascii.eqb_sym. apply negb_true_iff in Hc. rewrite Hc.
  now rewrite (IH Hr).
Qed.

Lemma split_char_app (sep : ascii) (a b : string) :
  charFree sep a = true ->
  split_char sep (a ++ String sep b) = a :: split_char sep b.
Proof.
  induction a as [|c r IH]; intros H.
  - simpl append. now rewrite split_char_cons, Ascii.eqb_refl.
  - rewrite charFree_cons in H. apply andb_true_iff in H as [Hc Hr].
    simpl append. rewrite split_char_cons, Ascii.eqb_sym.
    apply negb_true_iff in Hc. rewrite Hc. now rewrite (IH Hr).
Qed.

(** Splitting what was joined gives the parts back, when no part holds the
    separator. *)
Lemma split_char_join (sep : ascii) (parts : list string) :
  parts <> [] ->
  Forall (fun p => charFree sep p = true) parts ->
  split_char sep (join (String sep "") parts) = parts.
Proof.
  induction parts as [|p ps IH]; intros Hne Hall; [congruence|].
  inversion Hall as [|? ? Hp Hps]; subst.
  destruct ps as [|q ps].
  - simpl join. now apply split_char_one.
  - rewrite join_cons by discriminate.
    change (String sep "" ++ join (String sep "") (q :: ps))
      with (String sep (join (String sep "") (q :: ps))).
    rewrite split_char_app by assumption.
    now rewrite IH by (assumption || discriminate).
Qed.

(** No field of a split holds the separator. *)
Lemma split_char_fields (sep : ascii) (s : string) :
  Forall (fun p => charFree sep p = true) (split_char sep s).
Proof.
  induction s as [|c r IH]; [repeat constructor|].
  rewrite split_char_cons.
  destruct (Ascii.eqb c sep) eqn:E; [now constructor|].
  pose proof (split_char_nonempty sep r) as Hn.
  destruct (split_char sep r) as [|f fs]; [congruence|].
  inversion IH; subst. simpl cons_head. constructor; [|assumption].
  rewrite charFree_cons, Ascii.eqb_sym, E. assumption.
Qed.

End Fields.

(** ** Cluster queries *)

Section Queries.

Variable sh : Shell.

(** X1. The namespaces [getNamespaces] returns are the words of the output
    of the tool: none is empty, none holds white space, and there is none
    exactly when the output is blank. *)
Theorem namespaces_are_words (names : list string) :
  getNamespaces sh = Returns names ->
  execPromise sh namespacesCommand = Returns (stdout (sh namespacesCommand))
  /\ Forall (fun n => is_empty n = false /\ spaceFree n = true) names
  /\ (names = [] <-> trim (stdout (sh namespacesCommand)) = "")
  /\ (names <> [] -> names = split_ws (trim (stdout (sh namespacesCommand)))).
Proof.
  unfold getNamespaces.
  destruct (execPromise_cases sh namespacesCommand)
    as [[e ->] | (-> & _ & _)]; simpl; [discriminate|].
  set (out := trim (stdout (sh namespacesCommand))).
  intros H; injection H as <-. split; [reflexivity|].
  destruct (is_empty out) eqn:E.
  - apply is_empty_true in E. repeat split; auto; congruence.
  - assert (Hne : out <> "") by (intros Hx; rewrite Hx in E; discriminate).
    repeat split.
    + now apply split_ws_trim.
    + intros Hnil. exfalso. exact (split_ws_nonempty _ Hnil).
    + intros Hx. contradiction.
Qed.

(** What [getServicePort] returns is never blank and carries no white space
    around it: it is the trimmed output of the tool, or ["3000"]. *)
Lemma getServicePort_text (ns sn : option string) :
  is_empty (getServicePort sh ns sn) = false
  /\ trim (getServicePort sh ns sn) = getServicePort sh ns sn
  /\ (getServicePort sh ns sn = "3000"
      \/ getServicePort sh ns sn
         = trim (stdout (sh (servicePortCommand ns sn)))).
Proof.
  unfold getServicePort.
  destruct (execPromise_cases sh (servicePortCommand ns sn))
    as [[e ->] | (-> & _ & _)]; [repeat split; auto|].
  destruct (is_empty (trim (stdout (sh (servicePortCommand ns sn))))) eqn:E;
    [repeat split; auto|].
  repeat split; [assumption | apply trim_idempotent | now right].
Qed.

End Queries.

Lemma namespaces_are_words_witness :
  execPromise namespaceCluster namespacesCommand
  = Returns (stdout (namespaceCluster namespacesCommand))
  /\ Forall (fun n => is_empty n = false /\ spaceFree n = true)
       ["default"; "kube-system"; "shop"]
  /\ (["default"; "kube-system"; "shop"] = []
      <-> trim (stdout (namespaceCluster namespacesCommand)) = "")
  /\ (["default"; "kube-system"; "shop"] <> [] ->
      ["default"; "kube-system"; "shop"]
      = split_ws (trim (stdout (namespaceCluster namespacesCommand)))).
Proof.
  apply (@namespaces_are_words namespaceCluster). reflexivity.
Defined.


(** X2. The remote port detected for a service is never missing, zero or
    fractional: it is a non-zero integer, or an infinity for a run of digits
    beyond the range of numbers. It is the number [parseInt] reads in the
    output whenever that is not zero, with no check against 1..65535. *)
Theorem detected_port_is_unchecked (sh : Shell) (resolvedOne : Resolved) :
  ((exists z, detectRemotePort sh resolvedOne = Int z /\ z <> 0)
   \/ (exists b, detectRemotePort sh resolvedOne = Infinity b))
  /\ forall z,
       parseInt10 (getServicePort sh (resolved_namespace resolvedOne)
                     (resolved_serviceName resolvedOne)) = Int z ->
       z <> 0 ->
       detectRemotePort sh resolvedOne = Int z.
Proof.
  split; [apply detectRemotePort_kinds|].
  unfold detectRemotePort. intros z -> Hz. simpl.
  destruct (Z.eqb_spec z 0); [contradiction | reflexivity].
Qed.

(** A service that reports port 70000 is forwarded to port 70000. *)
Example detected_port_70000 :
  detectRemotePort widePortCluster shopApi = Int 70000.
Proof. reflexivity. Qed.

(** A port of twenty-two digits is forwarded as the runtime prints it. *)
Example detected_port_in_exponent_form :
  exists r,
    checkEntry hugePortCluster shopMap 0
      (Object (request "api" (JNumber (Int 3000)))) = Returns (inr r)
    /\ portForwardArgs r
       = [Some "port-forward"; Some "--namespace"; Some "shop";
          Some "dev-shop-api-7f9c-2x4k"; Some "3000:1e+21"].
Proof. eexists. split; reflexivity. Qed.

(** ** Where the identities of a map come from *)

Section Origin.

Variable re : RegExpEngine.

Lemma at_index_guard (A : Type) (l : list A) (c : Z) :
  (if negb (c =? -1) then at_index l c else None) = at_index l c.
Proof.
  destruct (Z.eqb_spec c (-1)) as [->|_]; reflexivity.
Qed.

Lemma Forall_skipn (A : Type) (P : A -> Prop) (n : nat) (l : list A) :
  Forall P l -> Forall P (skipn n l).
Proof.
  revert l; induction n as [|n IH]; intros l H; [assumption|].
  destruct l as [|a l]; [constructor|]. inversion H; subst. now apply IH.
Qed.

(** The last two segments of a pod name, joined and split again. *)
Lemma id_segments (nameColumn : string) :
  (2 < List.length (split_char dash nameColumn))%nat ->
  split_char dash (join "-" (slice_last2 (split_char dash nameColumn)))
  = slice_last2 (split_char dash nameColumn)
  /\ List.length (slice_last2 (split_char dash nameColumn)) = 2%nat.
Proof.
  intros Hlen. set (parts := split_char dash nameColumn) in *.
  assert (Hl : List.length (slice_last2 parts) = 2%nat).
  { unfold slice_last2. rewrite length_skipn. lia. }
  split; [|assumption].
  apply (@split_char_join dash).
  - intros E. rewrite E in Hl. discriminate.
  - apply Forall_skipn. apply split_char_fields.
Qed.

(** The row behind a stored identity: its NAME column is the pod name, its
    STATUS column is absent or Running, its namespace is the one passed or
    its NAMESPACE column, and the id is the last two segments of the name. *)
Lemma rowAlone_origin (ns : option string) (a b c : Z)
    (line short tag : string) (d : ServiceDetails) :
  rowAlone re ns a b c line = Some (short, tag, d) ->
  at_index (split_ws line) b = Some (serviceName d ++ "-" ++ id d)
  /\ match at_index (split_ws line) c with
     | Some st => st = "Running"
     | None => True
     end
  /\ K8s.namespace d
     = match ns with Some n => Some n | None => at_index (split_ws line) a end
  /\ List.length (split_char dash (id d)) = 2%nat.
Proof.
  unfold rowAlone, parseRow. rewrite at_index_guard.
  destruct (at_index (split_ws line) c) as [st|] eqn:Est.
  - destruct (String.eqb_spec st "Running") as [->|Hst]; simpl;
      [|discriminate].
    destruct (at_index (split_ws line) b) as [nameColumn|]; [|discriminate].
    destruct (2 <? List.length (split_char dash nameColumn))%nat eqn:Hlen;
      [|discriminate].
    apply Nat.ltb_lt in Hlen.
    pose proof (name_recomposes _ Hlen) as Hname.
    destruct (id_segments _ Hlen) as [Hsplit Htwo].
    destruct (match
        match ns with Some n => Some n | None => at_index (split_ws line) a end
      with
      | Some n =>
          if is_empty n
          then Returns (stripEnvPrefix
                          (join "-" (slice_init2 (split_char dash nameColumn))))
          else stripNamespacePrefix re n
                 (stripEnvPrefix
                    (join "-" (slice_init2 (split_char dash nameColumn))))
      | None => Returns (stripEnvPrefix
                           (join "-" (slice_init2 (split_char dash nameColumn))))
      end) as [short'|e]; simpl; [|discriminate].
    intros H; injection H as <- <- <-; simpl.
    repeat split; [f_equal; exact Hname | now rewrite Hsplit].
  - simpl.
    destruct (at_index (split_ws line) b) as [nameColumn|]; [|discriminate].
    destruct (2 <? List.length (split_char dash nameColumn))%nat eqn:Hlen;
      [|discriminate].
    apply Nat.ltb_lt in Hlen.
    pose proof (name_recomposes _ Hlen) as Hname.
    destruct (id_segments _ Hlen) as [Hsplit Htwo].
    destruct (match
        match ns with Some n => Some n | None => at_index (split_ws line) a end
      with
      | Some n =>
          if is_empty n
          then Returns (stripEnvPrefix
                          (join "-" (slice_init2 (split_char dash nameColumn))))
          else stripNamespacePrefix re n
                 (stripEnvPrefix
                    (join "-" (slice_init2 (split_char dash nameColumn))))
      | None => Returns (stripEnvPrefix
                           (join "-" (slice_init2 (split_char dash nameColumn))))
      end) as [short'|e]; simpl; [|discriminate].
    intros H; injection H as <- <- <-; simpl.
    repeat split; [f_equal; exact Hname | now rewrite Hsplit].
Qed.

Lemma contribution_origin (podsData : string) (ns : option string)
    (short tag : string) (d : ServiceDetails) :
  In (short, tag, d) (contributions re podsData ns) ->
  exists line,
    In line (listingRows podsData)
    /\ column podsData "NAME" line = Some (serviceName d ++ "-" ++ id d)
    /\ runningRow podsData line
    /\ K8s.namespace d = effectiveNamespace podsData ns line
    /\ List.length (split_char dash (id d)) = 2%nat.
Proof.
  unfold contributions, listingRows, column, runningRow, effectiveNamespace,
    column, listingHeaders.
  destruct (split_char LF (trim podsData)) as [|header rows]; [intros []|].
  intros Hin. apply In_somes in Hin as (line & Hline & Hrow).
  apply rowAlone_origin in Hrow as (Hname & Hst & Hns & Hid).
  exists line. simpl tl. repeat split; assumption.
Qed.

End Origin.

(** X3. Every identity of a parsed map, and every row the parser stores,
    comes from a row of the listing: the NAME column of that row is the pod
    name (full service name, dash, id), its STATUS column is absent or
    Running, the namespace is the one passed to the parser or else the
    NAMESPACE column of the row, and the id has exactly two segments. *)
Theorem identities_come_from_rows (re : RegExpEngine) (podsData : string)
    (ns : option string) (short tag : string) (d : ServiceDetails) :
  In (short, tag, d) (contributions re podsData ns)
  \/ (exists m, parseServicesMap re podsData ns = Returns m
                /\ lookup m short tag = Some d) ->
  exists line,
    In line (listingRows podsData)
    /\ column podsData "NAME" line = Some (serviceName d ++ "-" ++ id d)
    /\ runningRow podsData line
    /\ K8s.namespace d = effectiveNamespace podsData ns line
    /\ List.length (split_char dash (id d)) = 2%nat.
Proof.
  intros H. apply (@contribution_origin re podsData ns short tag d).
  destruct H as [H | (m & Hp & Hl)]; [assumption|].
  eapply stored_is_contribution; eassumption.
Qed.

Lemma identities_come_from_rows_witness :
  exists line,
    In line (listingRows shopListing)
    /\ column shopListing "NAME" line = Some "qa-shop-web-1-4"
    /\ runningRow shopListing line
    /\ Some "shop" = effectiveNamespace shopListing None line
    /\ List.length (split_char dash "1-4") = 2%nat.
Proof.
  apply (@identities_come_from_rows plainEngine shopListing None "web" "qa"
           {| id := "1-4"; K8s.namespace := Some "shop";
              serviceName := "qa-shop-web" |}).
  right. exists shopMap. split; reflexivity.
Defined.

(** ** Listings that always parse *)

Section Total.

Variable re : RegExpEngine.

Lemma at_index_first (l : list string) :
  l <> [] -> exists x, at_index l 0 = Some x.
Proof. destruct l as [|x l]; [congruence|]. intros _. now exists x. Qed.

Lemma parseRow_returns (ns : option string) (a c : Z) (m : ServicesMap)
    (line : string) :
  match ns with
  | Some n => RegExp_literal_source n = true
  | None => a = -1
  end ->
  exists m', parseRow re ns a 0 c m line = Returns m'.
Proof.
  intros Hns. unfold parseRow.
  destruct (match (if negb (c =? -1) then at_index (split_ws line) c else None)
            with Some st => negb (String.eqb st "Running") | None => false end);
    [eauto|].
  destruct (at_index_first (split_ws_nonempty line)) as [nameColumn ->].
  destruct (2 <? List.length (split_char dash nameColumn))%nat; [|eauto].
  destruct ns as [n|].
  - destruct (is_empty n); simpl; [eauto|].
    unfold stripNamespacePrefix. rewrite Hns. simpl. eauto.
  - subst a. simpl. eauto.
Qed.

Lemma parseRows_return (ns : option string) (a c : Z) (rows : list string) :
  match ns with
  | Some n => RegExp_literal_source n = true
  | None => a = -1
  end ->
  forall m, exists m', parseRows re ns a 0 c m rows = Returns m'.
Proof.
  intros Hns. induction rows as [|line rest IH]; intros m; simpl; [eauto|].
  destruct (@parseRow_returns ns a c m line Hns) as [m1 ->]. simpl.
  apply IH.
Qed.

End Total.

(** X4. A listing whose first header is NAME, as the tool prints for one
    namespace, always parses to a map, whatever its rows, when the namespace
    passed holds no syntax character of regular expressions, or when none is
    passed and the listing has no NAMESPACE column. *)
Theorem name_first_listing_parses (re : RegExpEngine) (podsData : string)
    (ns : option string) :
  indexOf (listingHeaders podsData) "NAME" = 0 ->
  match ns with
  | Some n => RegExp_literal_source n = true
  | None => indexOf (listingHeaders podsData) "NAMESPACE" = -1
  end ->
  exists m, parseServicesMap re podsData ns = Returns m.
Proof.
  unfold parseServicesMap, listingHeaders.
  destruct (split_char LF (trim podsData)) as [|header rows]; [eauto|].
  intros -> Hns. now apply parseRows_return.
Qed.

Lemma name_first_listing_parses_witness :
  exists m, parseServicesMap plainEngine oneNamespaceListing (Some "shop")
            = Returns m.
Proof.
  apply (@name_first_listing_parses plainEngine oneNamespaceListing
           (Some "shop")); reflexivity.
Defined.

(** ** The keys of a parsed map *)

Section Keys.

Variable re : RegExpEngine.

Lemma envPrefixOf_tag (text : string) : In (envPrefixOf text) environmentTags.
Proof.
  unfold envPrefixOf.
  destruct (find (fun env => startsWith text (env ++ "-")) ENV_PREFIXES)
    as [env|] eqn:F.
  - apply find_some in F as [Hin _]. unfold environmentTags.
    simpl in Hin. simpl. tauto.
  - simpl. tauto.
Qed.

Lemma In_get (V : Type) (t : list (string * V)) (k : string) (v : V) :
  NoDup (map fst t) -> In (k, v) t -> get t k = Some v.
Proof.
  induction t as [|[k0 v0] r IH]; intros Hnd Hin; [destruct Hin|].
  simpl in Hnd. inversion Hnd as [|? ? Hnot Hr]; subst. simpl.
  destruct Hin as [E | Hin].
  - injection E as -> ->. now rewrite String.eqb_refl.
  - destruct (String.eqb_spec k0 k) as [->|_]; [|now apply IH].
    exfalso. apply Hnot. apply in_map_iff. now exists (k, v).
Qed.

(** An entry of a table of a parsed map is what [lookup] finds. *)
Lemma entry_lookup (podsData : string) (ns : option string) (m : ServicesMap)
    (short tag : string) (envMap : EnvMap) (d : ServiceDetails) :
  parseServicesMap re podsData ns = Returns m ->
  get m short = Some envMap ->
  In (tag, d) envMap ->
  lookup m short tag = Some d.
Proof.
  intros Hp Hget Hin. apply parse_lookup in Hp as [[_ Hu] _].
  unfold lookup. rewrite Hget. apply In_get; [|assumption].
  apply get_In in Hget. rewrite Forall_forall in Hu. exact (Hu _ Hget).
Qed.

Lemma firstTagOf_app (short : string)
    (cs : list (string * string * ServiceDetails))
    (c : string * string * ServiceDetails) :
  firstTagOf short (cs ++ [c]) =
  match firstTagOf short cs with
  | Some t => Some t
  | None => if String.eqb (fst (fst c)) short then Some (snd (fst c)) else None
  end.
Proof.
  induction cs as [|c0 cs IH]; simpl; [reflexivity|].
  destruct (String.eqb (fst (fst c0)) short); [reflexivity | exact IH].
Qed.

Lemma firstKey_set (envMap : EnvMap) (t : string) (d : ServiceDetails) :
  set envMap t d <> []
  /\ firstKey (set envMap t d)
     = match firstKey envMap with Some k => Some k | None => Some t end.
Proof.
  destruct envMap as [|[k v] r]; simpl; [split; [discriminate | reflexivity]|].
  destruct (String.eqb k t); split; (discriminate || reflexivity).
Qed.

Lemma firstKeys_upsert (m : ServicesMap)
    (cs : list (string * string * ServiceDetails))
    (s t : string) (d : ServiceDetails) :
  firstKeys m cs -> firstKeys (upsert m s t d) (cs ++ [(s, t, d)]).
Proof.
  intros Hinv short. specialize (Hinv short).
  rewrite firstTagOf_app. unfold upsert. simpl fst; simpl snd.
  destruct (String.eqb_spec s short) as [->|Hne].
  - rewrite get_set_same.
    destruct (get m short) as [envMap|].
    + destruct Hinv as [Hn Hk].
      destruct (firstKey_set envMap t d) as [Hs Hf].
      split; [assumption|]. rewrite Hf, <- Hk.
      destruct envMap; [congruence | reflexivity].
    + rewrite Hinv. destruct (firstKey_set [] t d) as [Hs Hf].
      split; assumption.
  - rewrite get_set_other by assumption.
    destruct (get m short) as [envMap|].
    + destruct Hinv as [Hn Hk]. split; [assumption|].
      rewrite Hk. now destruct (firstTagOf short cs).
    + now rewrite Hinv.
Qed.

Lemma parseRows_firstKeys (ns : option string) (a b c : Z)
    (rows : list string) :
  forall m m' cs,
  parseRows re ns a b c m rows = Returns m' ->
  firstKeys m cs ->
  firstKeys m' (cs ++ somes (map (rowAlone re ns a b c) rows)).
Proof.
  induction rows as [|line rest IH]; intros m m' cs H Hinv; simpl in H.
  - injection H as <-. simpl. now rewrite app_nil_r.
  - destruct (parseRow re ns a b c m line) as [m1|e] eqn:Hrow;
      try discriminate.
    simpl in H. apply parseRow_rowAlone in Hrow. simpl.
    destruct (rowAlone re ns a b c line) as [[[s0 t0] d0]|].
    + subst m1. simpl somes.
      replace (cs ++ (s0, t0, d0) :: somes (map (rowAlone re ns a b c) rest))%list
        with ((cs ++ [(s0, t0, d0)])
              ++ somes (map (rowAlone re ns a b c) rest))%list
        by now rewrite <- app_assoc.
      apply (IH _ _ _ H). now apply firstKeys_upsert.
    + subst m1. now apply (IH _ _ _ H).
Qed.

Lemma parse_firstKeys (podsData : string) (ns : option string)
    (m : ServicesMap) :
  parseServicesMap re podsData ns = Returns m ->
  firstKeys m (contributions re podsData ns).
Proof.
  unfold parseServicesMap, contributions.
  destruct (split_char LF (trim podsData)) as [|header rows].
  - intros H; injection H as <-. intros short. reflexivity.
  - intros H.
    apply (parseRows_firstKeys _ _ _ _ _ (cs := []) H).
    intros short. reflexivity.
Qed.

End Keys.

(** X5. In a parsed map no environment table is empty, and every key of a
    table is one of dev, qa, stg, prod, default. *)
Theorem tables_hold_known_tags (re : RegExpEngine) (podsData : string)
    (ns : option string) (m : ServicesMap) (short : string) (envMap : EnvMap) :
  parseServicesMap re podsData ns = Returns m ->
  get m short = Some envMap ->
  envMap <> []
  /\ Forall (fun e => In (fst e) environmentTags) envMap.
Proof.
  intros Hp Hget. split.
  - pose proof (@parse_firstKeys re podsData ns m Hp short) as Hk.
    rewrite Hget in Hk. tauto.
  - apply Forall_forall. intros [tag d] Hin. simpl.
    pose proof (@entry_lookup re podsData ns m short tag envMap d Hp Hget Hin)
      as Hl.
    pose proof (@stored_is_contribution re podsData ns m short tag d Hp Hl)
      as Hc.
    apply contribution_facts in Hc as [-> _].
    apply envPrefixOf_tag.
Qed.

Lemma tables_hold_known_tags_witness :
  [("qa", {| id := "3-c"; K8s.namespace := Some "shop-qa";
             serviceName := "qa-api" |});
   ("dev", {| id := "2-b"; K8s.namespace := Some "shop-dev";
              serviceName := "dev-api" |})] <> []
  /\ Forall (fun e : string * ServiceDetails => In (fst e) environmentTags)
       [("qa", {| id := "3-c"; K8s.namespace := Some "shop-qa";
                  serviceName := "qa-api" |});
        ("dev", {| id := "2-b"; K8s.namespace := Some "shop-dev";
                   serviceName := "dev-api" |})].
Proof.
  apply (@tables_hold_known_tags plainEngine qaFirstListing None qaFirstMap
           "api"); reflexivity.
Defined.

(** ** Parsing, then resolving *)

Section ParseResolve.

Variable re : RegExpEngine.

Lemma read_own (envMap : EnvMap) (tag : string) (d : ServiceDetails) :
  get envMap tag = Some d -> read envMap tag = Own d.
Proof. unfold read. now intros ->. Qed.

(** What is resolved for a plain environment is an identity of the map. *)
Lemma resolved_is_stored (m : ServicesMap) (short : string)
    (nso envo : option string) (r : Resolved) :
  uniquelyKeyed m ->
  resolveService m short nso envo = Some r ->
  plainEnvironment envo ->
  exists tag d, lookup m short tag = Some d /\ r = resolvedFrom d tag.
Proof.
  intros [_ Hu] Hres Hplain. unfold resolveService in Hres.
  unfold lookup.
  destruct (get m short) as [envMap|] eqn:Hget; [|discriminate].
  assert (Hnd : NoDup (map fst envMap)).
  { apply get_In in Hget. rewrite Forall_forall in Hu. exact (Hu _ Hget). }
  destruct (match nso with
            | Some n => if is_empty n then None else find (namespace_is n) envMap
            | None => None
            end) as [[tag d]|] eqn:Hfind.
  - injection Hres as <-. exists tag, d. split; [|reflexivity].
    destruct nso as [n|]; [|discriminate].
    destruct (is_empty n); [discriminate|].
    apply find_some in Hfind as [Hin _]. now apply In_get.
  - destruct (if Js.truthy envo then envo
              else option_map fst (hd_error envMap)) as [env|] eqn:Henv;
      [|discriminate].
    unfold read in Hres.
    destruct (get envMap env) as [d|] eqn:Hd.
    + injection Hres as <-. now exists env, d.
    + destruct (existsb (String.eqb env) Object_prototype_names) eqn:Hproto;
        [|discriminate].
      exfalso.
      destruct (Js.truthy envo) eqn:Ht.
      * subst envo. unfold plainEnvironment in Hplain. congruence.
      * destruct envMap as [|[k v] rest]; [discriminate|].
        simpl in Henv. injection Henv as <-.
        simpl in Hd. rewrite String.eqb_refl in Hd. discriminate.
Qed.

End ParseResolve.

(** X6. With neither a namespace nor an environment, a service of a parsed
    map always resolves: to the environment of the first row of the listing
    under its short name, with the identity the map holds for it. *)
Theorem first_listed_environment_is_the_default (re : RegExpEngine)
    (podsData : string) (ns : option string) (m : ServicesMap)
    (short : string) (envMap : EnvMap) :
  parseServicesMap re podsData ns = Returns m ->
  get m short = Some envMap ->
  exists tag d,
    firstTagOf short (contributions re podsData ns) = Some tag
    /\ lookup m short tag = Some d
    /\ resolveService m short None None = Some (resolvedFrom d tag).
Proof.
  intros Hp Hget.
  pose proof (@parse_firstKeys re podsData ns m Hp short) as Hk.
  rewrite Hget in Hk. destruct Hk as [Hne Hfirst].
  destruct envMap as [|[tag d] rest]; [congruence|].
  exists tag, d. unfold firstKey in Hfirst. simpl in Hfirst.
  split; [now symmetry|].
  unfold lookup, resolveService. rewrite Hget. simpl.
  unfold read. simpl. rewrite String.eqb_refl. split; reflexivity.
Qed.

Lemma first_listed_environment_is_the_default_witness :
  exists tag d,
    firstTagOf "api" (contributions plainEngine qaFirstListing None) = Some tag
    /\ lookup qaFirstMap "api" tag = Some d
    /\ resolveService qaFirstMap "api" None None = Some (resolvedFrom d tag).
Proof.
  apply (@first_listed_environment_is_the_default plainEngine qaFirstListing
           None qaFirstMap "api"
           [("qa", {| id := "3-c"; K8s.namespace := Some "shop-qa";
                      serviceName := "qa-api" |});
            ("dev", {| id := "2-b"; K8s.namespace := Some "shop-dev";
                       serviceName := "dev-api" |})]); reflexivity.
Defined.

(** The service listed under qa first resolves to qa, with the pod of the
    last qa row. *)
Example qa_listed_first_resolves_to_qa :
  resolveService qaFirstMap "api" None None
  = Some {| resolved_namespace := Some "shop-qa";
            K8s.podName := "qa-api-3-c";
            resolved_serviceName := Some "qa-api";
            K8s.environment := "qa" |}.
Proof. reflexivity. Qed.

(** X7. Whatever namespace and plain environment are asked for, what
    [resolveService] answers on a parsed map is a pod of the listing: a row
    has the pod name in its NAME column, is running or has no status, and
    gives the namespace. *)
Theorem resolved_pod_is_listed (re : RegExpEngine) (podsData : string)
    (ns : option string) (m : ServicesMap) (short : string)
    (nso envo : option string) (r : Resolved) :
  parseServicesMap re podsData ns = Returns m ->
  resolveService m short nso envo = Some r ->
  plainEnvironment envo ->
  exists line,
    In line (listingRows podsData)
    /\ column podsData "NAME" line = Some (K8s.podName r)
    /\ runningRow podsData line
    /\ resolved_namespace r = effectiveNamespace podsData ns line.
Proof.
  intros Hp Hres Hplain.
  pose proof (@parse_lookup re podsData ns m Hp) as [Hu _].
  destruct (@resolved_is_stored m short nso envo r Hu Hres Hplain)
    as (tag & d & Hl & ->).
  pose proof (@stored_is_contribution re podsData ns m short tag d Hp Hl)
    as Hc.
  apply contribution_origin in Hc as (line & Hin & Hname & Hrun & Hns & _).
  exists line. simpl. repeat split; assumption.
Qed.

Lemma resolved_pod_is_listed_witness :
  exists line,
    In line (listingRows qaFirstListing)
    /\ column qaFirstListing "NAME" line = Some "dev-api-2-b"
    /\ runningRow qaFirstListing line
    /\ Some "shop-dev" = effectiveNamespace qaFirstListing None line.
Proof.
  apply (@resolved_pod_is_listed plainEngine qaFirstListing None qaFirstMap
           "api" (Some "shop-dev") (Some "qa")
           {| resolved_namespace := Some "shop-dev";
              K8s.podName := "dev-api-2-b";
              resolved_serviceName := Some "dev-api";
              K8s.environment := "dev" |}); reflexivity.
Defined.

(** X8. When no entry lives in the namespace asked for (or none is asked
    for), an environment that has no entry under the short name is not
    resolved, whatever other environments the service has, unless its name
    is one a plain object inherits. *)
Theorem missing_environment_is_not_resolved (m : ServicesMap) (short : string)
    (nso : option string) (env : string) (envMap : EnvMap) :
  get m short = Some envMap ->
  match nso with
  | Some n => Forall (fun e => K8s.namespace (snd e) <> Some n) envMap
  | None => True
  end ->
  env <> "" ->
  get envMap env = None ->
  existsb (String.eqb env) Object_prototype_names = false ->
  resolveService m short nso (Some env) = None.
Proof.
  intros Hget Hns Hne Hmiss Hplain. unfold resolveService. rewrite Hget.
  assert (Hfind : match nso with
                  | Some n =>
                      if is_empty n then None else find (namespace_is n) envMap
                  | None => None
                  end = None).
  { destruct nso as [n|]; [|reflexivity].
    destruct (is_empty n); [reflexivity|].
    apply find_all_miss. eapply Forall_impl; [|exact Hns].
    intros e. apply namespace_is_false. }
  rewrite Hfind.
  assert (Ht : Js.truthy (Some env) = true)
    by (destruct env; [congruence | reflexivity]).
  rewrite Ht. unfold read. now rewrite Hmiss, Hplain.
Qed.

Lemma missing_environment_is_not_resolved_witness :
  resolveService twoStages "api" (Some "nowhere") (Some "qa") = None.
Proof.
  apply (@missing_environment_is_not_resolved twoStages "api" (Some "nowhere")
           "qa"
           [("prod", {| id := "1-a"; K8s.namespace := Some "live";
                        serviceName := "prod-api" |});
            ("stg", {| id := "2-b"; K8s.namespace := Some "staging";
                       serviceName := "stg-api" |})]);
    try reflexivity.
  - repeat constructor; discriminate.
  - discriminate.
Defined.

(** X9. An environment named like a member every object inherits, such as
    [constructor], is taken for an entry although the table has none: the
    service resolves to the pod [undefined-undefined] without a namespace,
    and the entry that asks for it passes resolution. *)
Theorem inherited_name_resolves_to_no_pod (m : ServicesMap) (short env : string)
    (envMap : EnvMap) :
  get m short = Some envMap ->
  get envMap env = None ->
  In env Object_prototype_names ->
  resolveService m short None (Some env)
  = Some {| resolved_namespace := None;
            K8s.podName := "undefined-undefined";
            resolved_serviceName := None;
            K8s.environment := env |}
  /\ forall o,
       requestedName o = short ->
       asString (cfg_namespace o) = None ->
       asString (cfg_environment o) = Some env ->
       fails_resolution m (Object o) = false.
Proof.
  intros Hget Hmiss Hin.
  assert (Hproto : existsb (String.eqb env) Object_prototype_names = true).
  { apply existsb_exists. exists env. split; [assumption|].
    apply String.eqb_refl. }
  assert (Ht : Js.truthy (Some env) = true).
  { destruct env; [|reflexivity]. simpl in Hin.
    repeat (destruct Hin as [Hin|Hin]; [discriminate|]). destruct Hin. }
  assert (Hres : resolveService m short None (Some env)
                 = Some {| resolved_namespace := None;
                           K8s.podName := "undefined-undefined";
                           resolved_serviceName := None;
                           K8s.environment := env |}).
  { unfold resolveService. rewrite Hget, Ht. unfold read.
    now rewrite Hmiss, Hproto. }
  split; [assumption|].
  intros o Hname Hnso Henv. unfold fails_resolution.
  now rewrite Hname, Hnso, Henv, Hres.
Qed.

Lemma inherited_name_resolves_to_no_pod_witness :
  resolveService shopMap "api" None (Some "constructor")
  = Some {| resolved_namespace := None;
            K8s.podName := "undefined-undefined";
            resolved_serviceName := None;
            K8s.environment := "constructor" |}
  /\ forall o,
       requestedName o = "api" ->
       asString (cfg_namespace o) = None ->
       asString (cfg_environment o) = Some "constructor" ->
       fails_resolution shopMap (Object o) = false.
Proof.
  apply (@inherited_name_resolves_to_no_pod shopMap "api" "constructor"
           [("dev", {| id := "7f9c-2x4k"; K8s.namespace := Some "shop";
                       serviceName := "dev-shop-api" |})]);
    try reflexivity.
  simpl. tauto.
Defined.

(** ** What a start spawns *)

Section Spawned.

Variable sh : Shell.
Variable m : ServicesMap.


(** The ports of an entry that passes. *)
Lemma checkEntry_ports (i : nat) (o : ServiceConfig) (r : ResolvedService) :
  checkEntry sh m i (Object o) = Returns (inr r) ->
  ToNumber (cfg_localPort o) = Returns (localPort r)
  /\ isValidPort (localPort r) = true
  /\ match cfg_remotePort o with
     | JUndefined | JNull =>
         (exists z, remotePort r = Int z /\ z <> 0)
         \/ (exists b, remotePort r = Infinity b)
     | JBool b =>
         ToNumber (JBool b) = Returns (remotePort r)
         /\ isValidPort (remotePort r) = true
     | JNumber n =>
         remotePort r = n /\ isValidPort (remotePort r) = true
     | JString x =>
         remotePort r = StringToNumber x /\ isValidPort (remotePort r) = true
     | JArray elements =>
         ToNumber (JArray elements) = Returns (remotePort r)
         /\ isValidPort (remotePort r) = true
     | JObject members =>
         ToNumber (JObject members) = Returns (remotePort r)
         /\ isValidPort (remotePort r) = true
     end.
Proof.
  intros Hc. pose proof (checkEntry_verdict sh m i (Object o)) as Hv.
  rewrite Hc in Hv.
  destruct Hv as (_ & Hpass & resolvedOne & _ & Hlocal & Hremote & _).
  unfold fails, fails_validation, validPort in Hpass.
  apply orb_false_iff in Hpass as [Hval _].
  apply orb_false_iff in Hval as [Hval Hrem].
  apply orb_false_iff in Hval as [_ Hloc].
  apply negb_false_iff in Hloc. rewrite Hlocal in Hloc.
  split; [assumption|]. split; [assumption|].
  destruct (cfg_remotePort o) as [| |b|n|x|elements|members];
    try (rewrite Hremote; apply detectRemotePort_kinds);
    apply negb_false_iff in Hrem; rewrite Hremote in Hrem;
    try (split; assumption);
    (split; [simpl in Hremote; congruence | assumption]).
Qed.







End Spawned.

(** X10. The ports of an entry that passes: the local port is the coerced
    one and is an integer in 1..65535; a remote port that is given is the
    coerced one and is in 1..65535 too; a remote port that is detected is a
    non-zero integer or an infinity, unchecked. *)
Theorem forwarded_ports (sh : Shell) (m : ServicesMap) (i : nat)
    (o : ServiceConfig) (r : ResolvedService) :
  checkEntry sh m i (Object o) = Returns (inr r) ->
  ToNumber (cfg_localPort o) = Returns (localPort r)
  /\ isValidPort (localPort r) = true
  /\ match cfg_remotePort o with
     | JUndefined | JNull =>
         (exists z, remotePort r = Int z /\ z <> 0)
         \/ (exists b, remotePort r = Infinity b)
     | JBool b =>
         ToNumber (JBool b) = Returns (remotePort r)
         /\ isValidPort (remotePort r) = true
     | JNumber n =>
         remotePort r = n /\ isValidPort (remotePort r) = true
     | JString x =>
         remotePort r = StringToNumber x /\ isValidPort (remotePort r) = true
     | JArray elements =>
         ToNumber (JArray elements) = Returns (remotePort r)
         /\ isValidPort (remotePort r) = true
     | JObject members =>
         ToNumber (JObject members) = Returns (remotePort r)
         /\ isValidPort (remotePort r) = true
     end.
Proof. apply checkEntry_ports. Qed.

Lemma forwarded_ports_witness :
  exists r,
    checkEntry widePortCluster shopMap 0
      (Object (request "api" (JString "3000"))) = Returns (inr r)
    /\ ToNumber (JString "3000") = Returns (localPort r)
    /\ isValidPort (localPort r) = true
    /\ ((exists z, remotePort r = Int z /\ z <> 0)
        \/ (exists b, remotePort r = Infinity b)).
Proof.
  eexists. split; [reflexivity|].
  exact (@forwarded_ports widePortCluster shopMap 0
           (request "api" (JString "3000")) _ eq_refl).
Defined.

(** An array among the entries counts as an object without fields, and
    [null] as no object. *)
Example array_and_null_entries (sh : Shell) (m : ServicesMap) :
  checkEntry sh m 0 (entryOf (JArray [JString "api"]))
  = Returns (inl "Entry 1: serviceName is required")
  /\ checkEntry sh m 1 (entryOf JNull)
     = Returns (inl "Entry 2: invalid object").
Proof. split; reflexivity. Qed.

(** A port sent in an array of one element is the port of that element. *)
Example port_in_an_array :
  exists r,
    checkEntry shopCluster shopMap 0
      (Object (request "api" (JArray [JNumber (Int 3000)]))) = Returns (inr r)
    /\ localPort r = Int 3000.
Proof. eexists. split; reflexivity. Qed.

Section Started.

Variable re : RegExpEngine.
Variable sh : Shell.


End Started.



(** Two entries, the second without logs and with its remote port given. *)
Example quiet_request_effects :
  effects (start_k8s_port_forward plainEngine shopCluster (Some quietRequest)
             busy)
  = [OnSignal "SIGINT"; OnSignal "SIGTERM";
     OpenLogs "kubectl logs --namespace shop dev-shop-api-7f9c-2x4k -f"
       "dev~api:3000";
     Spawn {| pid := 2 |} "kubectl"
       [Some "port-forward"; Some "--namespace"; Some "shop";
        Some "dev-shop-api-7f9c-2x4k"; Some "3000:3000"];
     Spawn {| pid := 3 |} "kubectl"
       [Some "port-forward"; Some "--namespace"; Some "shop";
        Some "qa-shop-web-1-4"; Some "3001:8080"]].
Proof. reflexivity. Qed.


(** X13. A start raises an error in two cases only, both with a non-empty
    array of entries: fetching or parsing the listing of the pods raises
    it; or the listing is there and a port of an entry cannot be coerced to
    a number, and the error is a TypeError. *)
Theorem start_fails_with_the_listing_or_a_port (re : RegExpEngine)
    (sh : Shell) (services : option (list entry)) (st : State)
    (e : js_error) :
  answer (start_k8s_port_forward re sh services st) = Throws e
  <-> exists s rest,
        services = Some (s :: rest)
        /\ (fetchServicesMap re sh = Throws e
            \/ (exists m, fetchServicesMap re sh = Returns m)
               /\ Exists (fun x => raises x = true) (s :: rest)
               /\ e = TypeError).
Proof.
  unfold start_k8s_port_forward.
  destruct services as [[|s rest]|].
  - split; [discriminate | intros (s & rest & H & _); discriminate].
  - destruct (fetchServicesMap re sh) as [m|e'].
    + pose proof (checkEntries_lines sh m (s :: rest) 0) as Hloop.
      destruct (checkEntries sh m 0 (s :: rest)) as [[errors resolved]|e'].
      * destruct Hloop as (Hall & _).
        assert (Hnone : ~ Exists (fun x => raises x = true) (s :: rest)).
        { intros Hex. apply Exists_exists in Hex as (x & Hx & Hr).
          rewrite Forall_forall in Hall. specialize (Hall _ Hx).
          congruence. }
        destruct (0 <? List.length errors)%nat.
        -- split; [discriminate|].
           intros (s' & rest' & Hs & [H | (_ & Hex & _)]);
             [discriminate|].
           injection Hs as <- <-. contradiction.
        -- destruct (spawnAll (spawned st) resolved).
           split; [discriminate|].
           intros (s' & rest' & Hs & [H | (_ & Hex & _)]);
             [discriminate|].
           injection Hs as <- <-. contradiction.
      * destruct Hloop as [-> Hex]. cbn [answer]. split.
        -- intros H. injection H as <-. exists s, rest.
           split; [reflexivity|]. right. repeat split; eauto.
        -- intros (s' & rest' & _ & [H | (_ & _ & ->)]);
             [discriminate | reflexivity].
    + cbn [answer]. split.
      * intros H; injection H as ->. exists s, rest.
        split; [reflexivity | now left].
      * intros (s' & rest' & _ & [H | ((m & Hm) & _)]);
          [now injection H as -> | discriminate].
  - split; [discriminate | intros (s & rest & H & _); discriminate].
Qed.

(** ** Stopping twice, and arrivals during the wait *)

(** X14. Start and stop compose: a stop that follows a start whose entries
    all passed counts the processes registered before that start together
    with one per requested service; a further stop finds nothing, sends no
    signal and says so. *)
Theorem stop_after_start_counts_all (re : RegExpEngine) (sh : Shell)
    (services : list entry) (m : ServicesMap) (st : State)
    (meanwhile : State -> State) :
  fetchServicesMap re sh = Returns m ->
  services <> [] ->
  Forall (fun s => fails m s = false) services ->
  let started := after (start_k8s_port_forward re sh (Some services) st) in
  let stopped := after (stop_k8s_port_forward meanwhile started) in
  answer (stop_k8s_port_forward meanwhile started)
  = Returns (stopMessage (List.length (portForwardProcesses st)
                          + List.length services))
  /\ answer (stop_k8s_port_forward (fun s => s) stopped)
     = Returns "No active port-forwards to stop."
  /\ filter isKill (effects (stop_k8s_port_forward (fun s => s) stopped)) = [].
Proof.
  intros Hfetch Hne Hpass started stopped.
  destruct (stop_count meanwhile started) as [Hanswer _].
  rewrite Hanswer. subst started.
  rewrite (start_registers_all re sh st Hfetch Hne Hpass).
  repeat split.
Qed.

Lemma stop_after_start_counts_all_witness :
  answer (stop_k8s_port_forward lateArrival
            (after (start_k8s_port_forward plainEngine shopCluster
                      (Some validRequest) busy)))
  = Returns "Stopped 4 port-forward process(es).".
Proof.
  refine (proj1 (@stop_after_start_counts_all plainEngine shopCluster
                   validRequest shopMap busy lateArrival _ _ _)).
  - reflexivity.
  - discriminate.
  - repeat constructor.
Defined.

(** X15. A process that another handler registers while a stop waits was not
    there for the graceful signal: it is sent SIGKILL without SIGINT, it is
    not counted in the answer, and it leaves the registry with the others. *)
Theorem late_arrival_is_killed_uncounted (meanwhile : State -> State)
    (st : State) (p : ChildProcess) :
  ~ In p (portForwardProcesses st) ->
  In p (portForwardProcesses (meanwhile st)) ->
  In (Kill p "SIGKILL") (effects (stop_k8s_port_forward meanwhile st))
  /\ ~ In (Kill p "SIGINT") (effects (stop_k8s_port_forward meanwhile st))
  /\ answer (stop_k8s_port_forward meanwhile st)
     = Returns (stopMessage (List.length (portForwardProcesses st)))
  /\ portForwardProcesses (after (stop_k8s_port_forward meanwhile st)) = [].
Proof.
  intros Hnew Hlate.
  destruct (stop_count meanwhile st) as [Hanswer Hempty].
  repeat split; try assumption.
  - unfold stop_k8s_port_forward; cbn [effects].
    apply in_or_app. right. simpl. right. apply in_or_app. left.
    now apply (in_map (fun q => Kill q "SIGKILL")).
  - unfold stop_k8s_port_forward; cbn [effects]. intros Hin.
    apply in_app_or in Hin as [Hin | Hin].
    + apply in_map_iff in Hin as (q & Hq & Hin).
      injection Hq as ->. contradiction.
    + simpl in Hin. destruct Hin as [Hin | Hin]; [discriminate|].
      apply in_app_or in Hin as [Hin | [Hin | []]]; [|discriminate].
      apply in_map_iff in Hin as (q & Hq & _). discriminate.
Qed.

Lemma late_arrival_is_killed_uncounted_witness :
  In (Kill {| pid := 7 |} "SIGKILL")
    (effects (stop_k8s_port_forward lateArrival busy))
  /\ ~ In (Kill {| pid := 7 |} "SIGINT")
         (effects (stop_k8s_port_forward lateArrival busy))
  /\ answer (stop_k8s_port_forward lateArrival busy)
     = Returns (stopMessage (List.length (portForwardProcesses busy)))
  /\ portForwardProcesses (after (stop_k8s_port_forward lateArrival busy)) = [].
Proof.
  apply (@late_arrival_is_killed_uncounted lateArrival busy {| pid := 7 |}).
  - simpl. intros [H | [H | []]]; discriminate.
  - simpl. tauto.
Defined.

(** ** Listing namespaces and services *)

Section Listings.

Variable runtime : js_error -> string.

Lemma bullet_free (names : list string) :
  Forall (fun n => is_empty n = false /\ spaceFree n = true) names ->
  Forall (fun p => charFree LF p = true) (map (fun n => "- " ++ n) names).
Proof.
  induction 1 as [|n names [_ Hn] _ IH]; simpl; constructor; [|assumption].
  change ("- " ++ n) with (String "-" (String " " n)).
  rewrite !charFree_cons.
  assert (Hfree : charFree LF n = true).
  { clear IH. unfold spaceFree in Hn. induction n as [|c r IHr]; [reflexivity|].
    rewrite without_cons in Hn. apply andb_true_iff in Hn as [Hc Hr].
    rewrite charFree_cons, (IHr Hr), andb_true_r.
    apply negb_true_iff. apply negb_true_iff in Hc.
    destruct (Ascii.eqb_spec LF c) as [<-|_]; [|reflexivity].
    vm_compute in Hc. discriminate. }
  rewrite Hfree. reflexivity.
Qed.

End Listings.

(** X16. The answer of [list_k8s_namespaces] follows the reply of the tool:
    the error of a failed command, or whatever the command wrote on its
    error stream, turns it into a failure text, also when names were
    printed; a blank output gives "No namespaces found."; otherwise the
    lines of the answer are the heading and one line per word of the
    output, so that the names can be read back. *)
Theorem namespaces_answer (runtime : js_error -> string) (sh : Shell) :
  let reply := sh namespacesCommand in
  let text := list_k8s_namespaces runtime sh in
  (forall message, error reply = Some message ->
     text = "Failed to list namespaces: " ++ message)
  /\ (error reply = None -> trim (stderr reply) <> "" ->
      text = "Failed to list namespaces: " ++ stderr reply)
  /\ (error reply = None -> trim (stderr reply) = "" ->
      trim (stdout reply) = "" ->
      text = "No namespaces found.")
  /\ (error reply = None -> trim (stderr reply) = "" ->
      trim (stdout reply) <> "" ->
      split_char LF text
      = "Namespaces:"
        :: map (fun n => "- " ++ n) (split_ws (trim (stdout reply)))).
Proof.
  intros reply text. subst text.
  unfold list_k8s_namespaces, getNamespaces, execPromise. fold reply.
  repeat split.
  - intros message ->. reflexivity.
  - intros -> Hne.
    destruct (stderr reply) as [|c r] eqn:Es; [now elim Hne|].
    destruct (is_empty (trim (String c r))) eqn:Et;
      [apply is_empty_true in Et; contradiction|].
    reflexivity.
  - intros -> Hblank Hout.
    assert (Hcond : negb (is_empty (stderr reply))
                    && negb (is_empty (trim (stderr reply))) = false)
      by (rewrite Hblank; apply andb_false_r).
    rewrite Hcond. simpl. now rewrite Hout.
  - intros -> Hblank Hout.
    assert (Hcond : negb (is_empty (stderr reply))
                    && negb (is_empty (trim (stderr reply))) = false)
      by (rewrite Hblank; apply andb_false_r).
    rewrite Hcond. simpl.
    destruct (is_empty (trim (stdout reply))) eqn:Eo;
      [apply is_empty_true in Eo; contradiction|].
    pose proof (split_ws_nonempty (trim (stdout reply))) as Hwords.
    pose proof (split_ws_trim (stdout reply) Hout) as Hfields.
    destruct (split_ws (trim (stdout reply))) as [|w ws] eqn:Ew;
      [congruence|].
    cbn [List.length Nat.ltb Nat.leb].
    change (split_char LF
              ("Namespaces:"
               ++ String LF (join nl (map (fun n => "- " ++ n) (w :: ws))))
            = "Namespaces:" :: map (fun n => "- " ++ n) (w :: ws)).
    rewrite split_char_app by reflexivity.
    f_equal. apply (@split_char_join LF); [discriminate|].
    now apply bullet_free.
Qed.

Lemma namespaces_answer_witness :
  split_char LF (list_k8s_namespaces (fun _ => "") namespaceCluster)
  = ["Namespaces:"; "- default"; "- kube-system"; "- shop"].
Proof.
  refine (proj2 (proj2 (proj2 (@namespaces_answer (fun _ => "")
                                 namespaceCluster))) _ _ _).
  - reflexivity.
  - reflexivity.
  - discriminate.
Defined.

(** Three namespaces, with white space around them. *)
Example three_namespaces (runtime : js_error -> string) :
  list_k8s_namespaces runtime namespaceCluster
  = "Namespaces:" ++ nl ++ "- default" ++ nl ++ "- kube-system" ++ nl
    ++ "- shop".
Proof. reflexivity. Qed.

Section Sorting.

Variable V : Type.
Variable localeCompare : string -> string -> Z.

Lemma insertByName_perm (x : string * V) (l : list (string * V)) :
  Permutation (x :: l) (insertByName localeCompare x l).
Proof.
  induction l as [|y rest IH]; simpl; [apply Permutation_refl|].
  destruct (localeCompare (fst x) (fst y) <? 0); [apply Permutation_refl|].
  eapply perm_trans; [apply perm_swap|]. now apply perm_skip.
Qed.

Lemma fold_insert_perm (l acc : list (string * V)) :
  Permutation (l ++ acc)%list
    (fold_left (fun sorted x => insertByName localeCompare x sorted) l acc).
Proof.
  revert acc. induction l as [|x l IH]; intros acc; simpl;
    [apply Permutation_refl|].
  eapply perm_trans; [|apply IH].
  eapply perm_trans; [apply Permutation_middle|].
  apply Permutation_app_head, insertByName_perm.
Qed.

Lemma sortByName_perm (l : list (string * V)) :
  Permutation l (sortByName localeCompare l).
Proof.
  unfold sortByName. eapply perm_trans; [|apply fold_insert_perm].
  rewrite app_nil_r. apply Permutation_refl.
Qed.

Hypothesis asymmetric :
  forall a b, localeCompare a b < 0 -> ~ localeCompare b a < 0.

Lemma insertByName_sorted (x : string * V) (l : list (string * V)) :
  Sorted (inOrder localeCompare) l ->
  Sorted (inOrder localeCompare) (insertByName localeCompare x l).
Proof.
  induction l as [|y rest IH]; intros Hs; simpl.
  - repeat constructor.
  - destruct (localeCompare (fst x) (fst y) <? 0) eqn:E.
    + constructor; [assumption|]. constructor.
      apply Z.ltb_lt in E. now apply asymmetric.
    + inversion Hs as [|? ? Hrest Hhd]; subst.
      constructor; [now apply IH|].
      apply Z.ltb_ge in E.
      destruct rest as [|z rest']; simpl.
      * constructor. unfold inOrder. lia.
      * destruct (localeCompare (fst x) (fst z) <? 0).
        -- constructor. unfold inOrder. lia.
        -- inversion Hhd; subst. now constructor.
Qed.

Lemma fold_insert_sorted (l acc : list (string * V)) :
  Sorted (inOrder localeCompare) acc ->
  Sorted (inOrder localeCompare)
    (fold_left (fun sorted x => insertByName localeCompare x sorted) l acc).
Proof.
  revert acc. induction l as [|x l IH]; intros acc Hs; simpl; [assumption|].
  apply IH. now apply insertByName_sorted.
Qed.

Lemma sortByName_sorted (l : list (string * V)) :
  Sorted (inOrder localeCompare) (sortByName localeCompare l).
Proof. apply fold_insert_sorted. constructor. Qed.

End Sorting.

Lemma codeUnitOrder_asymmetric (a b : string) :
  codeUnitOrder a b < 0 -> ~ codeUnitOrder b a < 0.
Proof.
  unfold codeUnitOrder. rewrite (String.compare_antisym a b).
  destruct (String.compare b a); simpl; lia.
Qed.

(** X17. The answer of [list_k8s_services]: the error of the listing or of
    its parsing turns into a failure text; an empty map gives "No services
    found."; otherwise the answer is the heading and one line for each
    service of the map, none left out and none twice, in an order in which
    no name is below the one before it. *)
Theorem services_answer (re : RegExpEngine) (runtime : js_error -> string)
    (localeCompare : string -> string -> Z) (sh : Shell)
    (namespace : option string) :
  (forall a b, localeCompare a b < 0 -> ~ localeCompare b a < 0) ->
  let parsed := (podsData <- getPods sh namespace ;;
                 parseServicesMap re podsData namespace) in
  let text := list_k8s_services re runtime localeCompare sh namespace in
  (forall e, parsed = Throws e ->
     text = "Failed to list services: " ++ errorText runtime e)
  /\ (parsed = Returns [] -> text = "No services found.")
  /\ (forall m, parsed = Returns m -> m <> [] ->
        exists listed,
          Permutation m listed
          /\ Sorted (inOrder localeCompare) listed
          /\ text
             = join nl ("Services (shortName -> environments and namespace):"
                        :: map serviceLine listed)).
Proof.
  intros Hasym parsed text. subst text. unfold list_k8s_services.
  fold parsed. repeat split.
  - intros e ->. reflexivity.
  - intros ->. reflexivity.
  - intros m -> Hne. exists (sortByName localeCompare m).
    repeat split;
      [apply sortByName_perm | now apply sortByName_sorted |].
    pose proof (Permutation_length (sortByName_perm localeCompare m)) as Hlen.
    destruct (sortByName localeCompare m) as [|e rest].
    + destruct m; [congruence | discriminate].
    + reflexivity.
Qed.

Lemma services_answer_witness :
  exists listed,
    Permutation shopMap listed
    /\ Sorted (inOrder codeUnitOrder) listed
    /\ list_k8s_services plainEngine (fun _ => "") codeUnitOrder shopCluster
         None
       = join nl ("Services (shortName -> environments and namespace):"
                  :: map serviceLine listed).
Proof.
  refine (proj2 (proj2 (@services_answer plainEngine (fun _ => "")
                          codeUnitOrder shopCluster None
                          codeUnitOrder_asymmetric)) shopMap _ _).
  - reflexivity.
  - discriminate.
Defined.

(** The services of the sample cluster, as they are listed. *)
Example shop_services (runtime : js_error -> string) :
  list_k8s_services plainEngine runtime codeUnitOrder shopCluster None
  = "Services (shortName -> environments and namespace):" ++ nl
    ++ "- api: dev (ns: shop)" ++ nl
    ++ "- web: qa (ns: shop)".
Proof. reflexivity. Qed.

(** ** Opening the logs in a terminal *)

Section Terminal.

Lemma replaceAll_cons (c : ascii) (by_ : string) (a : ascii) (r : string) :
  replaceAll c by_ (String a r)
  = if Ascii.eqb a c then by_ ++ replaceAll c by_ r
    else String a (replaceAll c by_ r).
Proof. reflexivity. Qed.

Lemma escapeQuoted_cons (a : ascii) (r : string) :
  escapeQuoted (String a r)
  = if Ascii.eqb a backslash
    then String backslash (String backslash (escapeQuoted r))
    else if Ascii.eqb a dquote
         then String backslash (String dquote (escapeQuoted r))
         else String a (escapeQuoted r).
Proof.
  unfold escapeQuoted. rewrite (replaceAll_cons backslash).
  destruct (Ascii.eqb a backslash) eqn:Eb.
  - reflexivity.
  - rewrite replaceAll_cons. destruct (Ascii.eqb a dquote); reflexivity.
Qed.

Lemma readQuoted_cons (c : ascii) (r : string) :
  readQuoted (String c r)
  = if Ascii.eqb c backslash then
      match r with
      | String d r' => option_map (String d) (readQuoted r')
      | EmptyString => None
      end
    else if Ascii.eqb c dquote then None
    else option_map (String c) (readQuoted r).
Proof. reflexivity. Qed.

Lemma split_char_append (sep : ascii) (a b : string) :
  split_char sep (a ++ String sep b)
  = (split_char sep a ++ split_char sep b)%list.
Proof.
  induction a as [|c r IH].
  - simpl append. now rewrite split_char_cons, Ascii.eqb_refl.
  - simpl append. rewrite !split_char_cons, IH.
    destruct (Ascii.eqb c sep); [reflexivity|].
    pose proof (split_char_nonempty sep r) as Hn.
    destruct (split_char sep r); [congruence | reflexivity].
Qed.

Lemma filter_keeps (A : Type) (f : A -> bool) (x : A) (l : list A) :
  f x = true -> filter f (x :: l) = x :: filter f l.
Proof. intros H. simpl. now rewrite H. Qed.

Lemma filter_drops (A : Type) (f : A -> bool) (x : A) (l : list A) :
  f x = false -> filter f (x :: l) = filter f l.
Proof. intros H. simpl. now rewrite H. Qed.

Lemma onOsascript_fallbacks (logsCommand stderrData : string)
    (events : list osascript_event) :
  List.length (filter (isLaunchOf "kubectl")
                 (onOsascript logsCommand stderrData events))
  = List.length (filter reportsFailure events).
Proof.
  revert stderrData.
  induction events as [|e rest IH]; intros stderrData; [reflexivity|].
  assert (Hclose : forall text,
    List.length
      (filter (isLaunchOf "kubectl")
         (ConsoleError text
          :: ((if is_empty stderrData then []
               else [ConsoleError ("stderr: " ++ stderrData)])
              ++ headless logsCommand
                 :: onOsascript logsCommand stderrData rest)%list))
    = S (List.length (filter reportsFailure rest))).
  { intros text. rewrite filter_drops by reflexivity.
    rewrite filter_app, length_app.
    rewrite (filter_keeps _ _ _ (eq_refl : isLaunchOf "kubectl"
                                             (headless logsCommand) = true)).
    cbn [List.length]. rewrite IH.
    destruct (is_empty stderrData); reflexivity. }
  destruct e as [chunk | [[|z|z]|] | message];
    cbn [reportsFailure filter List.length]; cbn [onOsascript];
    try apply Hclose; try apply IH.
  rewrite filter_drops by reflexivity.
  rewrite (filter_keeps _ _ _ (eq_refl : isLaunchOf "kubectl"
                                           (headless logsCommand) = true)).
  cbn [List.length]. now rewrite IH.
Qed.

Lemma afterAReport_nil (c : string) : afterAReport c [].
Proof. intros [|i] H; discriminate. Qed.

Lemma afterAReport_app (c : string) (a b : list action) :
  afterAReport c a -> afterAReport c b -> afterAReport c (a ++ b).
Proof.
  intros Ha Hb i H.
  destruct (Nat.lt_ge_cases i (List.length a)) as [Hlt | Hge].
  - rewrite nth_error_app1 in H by assumption.
    destruct (Ha i H) as (j & text & -> & Hj).
    exists j, text. split; [reflexivity|].
    rewrite nth_error_app1 by lia. exact Hj.
  - rewrite nth_error_app2 in H by assumption.
    destruct (Hb _ H) as (j & text & Hi & Hj).
    exists (List.length a + j)%nat, text. split; [lia|].
    rewrite nth_error_app2 by lia.
    replace (List.length a + j - List.length a)%nat with j by lia.
    exact Hj.
Qed.

Lemma afterAReport_other (c : string) (x : action) :
  isLaunchOf "kubectl" x = false -> afterAReport c [x].
Proof.
  intros Hx [|[|i]] H; try discriminate.
  injection H as ->. discriminate.
Qed.

Lemma afterAReport_block (c text : string) :
  afterAReport c [ConsoleError text; headless c].
Proof.
  intros [|[|[|i]]] H; try discriminate.
  exists 0%nat, text. now split.
Qed.

Lemma onOsascript_afterAReport (logsCommand stderrData : string)
    (events : list osascript_event) :
  afterAReport logsCommand (onOsascript logsCommand stderrData events).
Proof.
  revert stderrData.
  induction events as [|e rest IH]; intros stderrData;
    [apply afterAReport_nil|].
  assert (Hclose : forall text,
    afterAReport logsCommand
      (ConsoleError text
       :: ((if is_empty stderrData then []
            else [ConsoleError ("stderr: " ++ stderrData)])
           ++ headless logsCommand
              :: onOsascript logsCommand stderrData rest)%list)).
  { intros text. destruct (is_empty stderrData); simpl app.
    - apply (@afterAReport_app logsCommand
               [ConsoleError text; headless logsCommand]);
        [apply afterAReport_block | apply IH].
    - apply (@afterAReport_app logsCommand [ConsoleError text]);
        [now apply afterAReport_other|].
      apply (@afterAReport_app logsCommand
               [ConsoleError ("stderr: " ++ stderrData);
                headless logsCommand]);
        [apply afterAReport_block | apply IH]. }
  destruct e as [chunk | [[|z|z]|] | message]; cbn [onOsascript];
    try apply Hclose; try apply IH.
  apply (@afterAReport_app logsCommand
           [ConsoleError ("Failed to execute osascript: " ++ message);
            headless logsCommand]);
    [apply afterAReport_block | apply IH].
Qed.

End Terminal.

(** X18. The escaping of [openLogsInTerminal] can be undone: read with a
    backslash making the next character stand for itself, the escaped text
    is the text, and no double quote of it ends the reading. A text without
    backslash and double quote is left as it is. *)
Theorem escaped_text_reads_back (s : string) :
  readQuoted (escapeQuoted s) = Some s
  /\ (charFree backslash s = true -> charFree dquote s = true ->
      escapeQuoted s = s).
Proof.
  split.
  - induction s as [|a r IH]; [reflexivity|].
    rewrite escapeQuoted_cons.
    destruct (Ascii.eqb a backslash) eqn:Eb.
    + apply Ascii.eqb_eq in Eb. subst a.
      rewrite readQuoted_cons, Ascii.eqb_refl, IH. reflexivity.
    + destruct (Ascii.eqb a dquote) eqn:Eq.
      * apply Ascii.eqb_eq in Eq. subst a.
        rewrite readQuoted_cons, Ascii.eqb_refl, IH. reflexivity.
      * rewrite readQuoted_cons, Eb, Eq, IH. reflexivity.
  - induction s as [|a r IH]; [reflexivity|].
    rewrite !charFree_cons, escapeQuoted_cons. intros Hb Hq.
    apply andb_true_iff in Hb as [Hb Hbr].
    apply andb_true_iff in Hq as [Hq Hqr].
    apply negb_true_iff in Hb, Hq.
    rewrite Ascii.eqb_sym in Hb. rewrite Ascii.eqb_sym in Hq.
    rewrite Hb, Hq, (IH Hbr Hqr). reflexivity.
Qed.

Lemma escaped_text_reads_back_witness :
  escapeQuoted "dev~api:3000" = "dev~api:3000".
Proof.
  refine (proj2 (@escaped_text_reads_back "dev~api:3000") _ _); reflexivity.
Defined.

(** A dollar and a backquote are no concern of the escaping. *)
Example substitution_is_not_escaped :
  escapeQuoted "$(id) `id`" = "$(id) `id`".
Proof. reflexivity. Qed.

(** X19. On every platform, whatever fails, the logs are only followed in
    the process of the server right after a failure was written with
    [console.error]: the fallback is never the first thing tried. *)
Theorem fallback_follows_a_report (p : platform) (failures : ExecFailures)
    (events : list osascript_event) (logsCommand logsTitle : string)
    (i : nat) :
  nth_error (openLogsInTerminal p failures events logsCommand logsTitle) i
  = Some (headless logsCommand) ->
  exists j text,
    i = S j
    /\ nth_error (openLogsInTerminal p failures events logsCommand logsTitle) j
       = Some (ConsoleError text).
Proof.
  revert i. change (afterAReport logsCommand
                      (openLogsInTerminal p failures events logsCommand
                         logsTitle)).
  destruct p; cbn [openLogsInTerminal].
  - apply (@afterAReport_app logsCommand [Exec _]);
      [now apply afterAReport_other|].
    destruct (failures _);
      [apply afterAReport_block | apply afterAReport_nil].
  - apply (@afterAReport_app logsCommand [Launch "osascript" _]);
      [now apply afterAReport_other | apply onOsascript_afterAReport].
  - apply (@afterAReport_app logsCommand [Exec _]);
      [now apply afterAReport_other|].
    destruct (failures (gnomeCommand _ _)); [|apply afterAReport_nil].
    apply (@afterAReport_app logsCommand [Exec _]);
      [now apply afterAReport_other|].
    destruct (failures (xTerminalCommand _ _)); [|apply afterAReport_nil].
    apply (@afterAReport_app logsCommand [Exec _]);
      [now apply afterAReport_other|].
    destruct (failures (xtermCommand _ _));
      [apply afterAReport_block | apply afterAReport_nil].
Qed.

Lemma fallback_follows_a_report_witness :
  exists j text,
    2%nat = S j
    /\ nth_error (openLogsInTerminal darwin (fun _ => None) osascriptMissing
                    "kubectl logs --namespace shop dev-shop-api-7f9c-2x4k -f"
                    "api") j
       = Some (ConsoleError text).
Proof.
  apply (@fallback_follows_a_report darwin (fun _ => None) osascriptMissing
           "kubectl logs --namespace shop dev-shop-api-7f9c-2x4k -f" "api" 2).
  reflexivity.
Defined.

(** X20. How often the logs are followed in the process of the server: on
    Windows once when the [start] command fails; on macOS once for every
    error of the [osascript] child and for every close of it with another
    exit code than 0, so twice for a child that reports both; elsewhere
    once when [gnome-terminal], [x-terminal-emulator] and [xterm] all fail,
    each tried only after the one before it failed. *)
Theorem fallbacks_counted (p : platform) (failures : ExecFailures)
    (events : list osascript_event) (logsCommand logsTitle : string) :
  let acts := openLogsInTerminal p failures events logsCommand logsTitle in
  let gnome := gnomeCommand logsCommand logsTitle in
  let xTerminal := xTerminalCommand logsCommand logsTitle in
  let xterm := xtermCommand logsCommand logsTitle in
  List.length (filter (isLaunchOf "kubectl") acts)
  = match p with
    | win32 =>
        if failed_ failures (windowsCommand logsCommand logsTitle)
        then 1%nat else 0%nat
    | darwin => List.length (filter reportsFailure events)
    | otherPlatform =>
        if failed_ failures gnome && failed_ failures xTerminal
           && failed_ failures xterm
        then 1%nat else 0%nat
    end
  /\ (p = otherPlatform ->
      filter isExec acts
      = Exec gnome
        :: (if failed_ failures gnome
            then Exec xTerminal
                 :: (if failed_ failures xTerminal then [Exec xterm] else [])
            else [])).
Proof.
  intros acts gnome xTerminal xterm. subst acts gnome xTerminal xterm.
  split.
  - destruct p; cbn [openLogsInTerminal]; unfold failed_.
    + destruct (failures _); reflexivity.
    + cbn [filter isLaunchOf String.eqb Ascii.eqb].
      apply onOsascript_fallbacks.
    + destruct (failures (gnomeCommand _ _)); [|reflexivity].
      destruct (failures (xTerminalCommand _ _)); [|reflexivity].
      destruct (failures (xtermCommand _ _)); reflexivity.
  - intros ->. cbn [openLogsInTerminal]. unfold failed_.
    destruct (failures (gnomeCommand _ _)); [|reflexivity].
    destruct (failures (xTerminalCommand _ _)); [|reflexivity].
    destruct (failures (xtermCommand _ _)); reflexivity.
Qed.

Lemma fallbacks_counted_witness :
  filter isExec
    (openLogsInTerminal otherPlatform
       (fun command =>
          if startsWith command "gnome-terminal" then Some "not found"
          else None)
       [] "kubectl logs --namespace shop api-1-2 -f" "api")
  = [Exec (gnomeCommand "kubectl logs --namespace shop api-1-2 -f" "api");
     Exec (xTerminalCommand "kubectl logs --namespace shop api-1-2 -f" "api")].
Proof.
  refine (proj2 (@fallbacks_counted otherPlatform
                   (fun command =>
                      if startsWith command "gnome-terminal"
                      then Some "not found" else None)
                   [] "kubectl logs --namespace shop api-1-2 -f" "api") _).
  reflexivity.
Defined.

(** A missing [osascript] makes the server follow the logs twice. *)
Example missing_osascript_follows_twice (failures : ExecFailures) :
  filter (isLaunchOf "kubectl")
    (openLogsInTerminal darwin failures osascriptMissing
       "kubectl logs --namespace shop api-1-2 -f" "api")
  = [Launch "kubectl" ["logs"; "--namespace"; "shop"; "api-1-2"; "-f"];
     Launch "kubectl" ["logs"; "--namespace"; "shop"; "api-1-2"; "-f"]].
Proof. reflexivity. Qed.

(** X21. The arguments of the fallback are the words of the logs command
    behind [kubectl], cut at every space: [logs], [--namespace], the pieces
    of the namespace, the pieces of the pod name and [-f]. A namespace and
    a pod name without a space are one argument each. *)
Theorem fallback_arguments (r : ResolvedService) :
  headless (logsCommandOf r)
  = Launch "kubectl"
      ("logs" :: "--namespace"
       :: split_char " " (template (namespace r))
       ++ split_char " " (podName r) ++ ["-f"])%list
  /\ (charFree " " (template (namespace r)) = true ->
      charFree " " (podName r) = true ->
      headless (logsCommandOf r)
      = Launch "kubectl"
          ["logs"; "--namespace"; template (namespace r); podName r; "-f"]).
Proof.
  assert (Hgeneral :
    headless (logsCommandOf r)
    = Launch "kubectl"
        ("logs" :: "--namespace"
         :: split_char " " (template (namespace r))
         ++ split_char " " (podName r) ++ ["-f"])%list).
  { unfold headless, logsCommandOf. f_equal.
    change ("kubectl logs --namespace " ++ template (namespace r) ++ " "
            ++ podName r ++ " -f")
      with ("kubectl"
            ++ String " " ("logs"
            ++ String " " ("--namespace"
            ++ String " " (template (namespace r)
            ++ String " " (podName r ++ String " " "-f"))))).
    rewrite !split_char_append. reflexivity. }
  split; [exact Hgeneral|].
  intros Hn Hp. rewrite Hgeneral.
  now rewrite (split_char_one _ _ Hn), (split_char_one _ _ Hp).
Qed.

Lemma fallback_arguments_witness :
  headless
    (logsCommandOf {| namespace := Some "shop";
                      podName := "dev-shop-api-7f9c-2x4k";
                      localPort := Int 3000;
                      remotePort := Int 8080;
                      label := "dev~api:3000";
                      includeLogs := true;
                      Index.environment := "dev" |})
  = Launch "kubectl"
      ["logs"; "--namespace"; "shop"; "dev-shop-api-7f9c-2x4k"; "-f"].
Proof.
  refine (proj2 (@fallback_arguments
                   {| namespace := Some "shop";
                      podName := "dev-shop-api-7f9c-2x4k";
                      localPort := Int 3000;
                      remotePort := Int 8080;
                      label := "dev~api:3000";
                      includeLogs := true;
                      Index.environment := "dev" |}) _ _); reflexivity.
Defined.
